(** * mlsgpu: spatial partitioning and indexing core

    A shallow embedding of the pieces of [src/bucket.h] and
    [src/splattree.cpp] that the specification talks about, together with
    the properties proved about them.

    Conventions.
    - Unsigned machine integers are values of [Z]; every operation that can
      wrap in C++ is written with its reduction modulo [2 ^ width].
    - [std::vector] is [list]; indexing goes through stdpp's lookup and
      [alter], whose out-of-range behaviour (no change) is never relied on
      by a theorem without saying so.
    - Code that throws returns an [outcome]. *)

From Stdlib Require Import ZArith Lia Bool List Sorted.
From stdpp Require Import base numbers list sorting.

Local Open Scope Z_scope.

(** ** Exceptions and outcomes *)

(** The standard exceptions the embedded code throws. *)
Inductive exn : Type :=
| InvalidArgument   (* std::invalid_argument *)
| OutOfRange        (* std::out_of_range *)
| RangeError        (* std::range_error *)
| LengthError       (* std::length_error *)
| DensityError (cellSplats : Z).   (* Bucket::DensityError *)

(** What running a piece of code yields: a value, a thrown exception, a
    failed C [assert], or a loop that used up the fuel of its model. *)
Inductive outcome (A : Type) : Type :=
| Ret (a : A)
| Throw (e : exn)
| AssertFail
| OutOfFuel.
Arguments Ret {A} a.
Arguments Throw {A} e.
Arguments AssertFail {A}.
Arguments OutOfFuel {A}.

Definition bind {A B} (m : outcome A) (k : A -> outcome B) : outcome B :=
  match m with
  | Ret a => k a
  | Throw e => Throw e
  | AssertFail => AssertFail
  | OutOfFuel => OutOfFuel
  end.

#[global] Instance outcome_bind : MBind outcome := fun A B k m => bind m k.
#[global] Instance outcome_ret : MRet outcome := fun A a => Ret a.

(** [MLSGPU_ASSERT(cond, exception)] of errors.h: throws when the condition
    is false. *)
Definition MLSGPU_ASSERT (cond : bool) (e : exn) : outcome unit :=
  if cond then Ret tt else Throw e.

(** ** Bucket::Range (bucket.h) *)

Module Range.

(** [scan_type] and [size_type] are 32-bit, [index_type] is 64-bit. *)
Definition scan_max : Z := 2 ^ 32 - 1.
Definition size_max : Z := 2 ^ 32 - 1.
Definition index_max : Z := 2 ^ 64 - 1.

Record t : Type := mk { scan : Z; size : Z; start : Z }.

(** Modelled from the spec: the bodies of the constructors and of
    [Range::append] live in bucket.cpp, which is not part of the sources;
    bucket.h only declares them.  The empty range has [size = 0]
    (TestRange::testConstructor); the values of its other two fields are
    not observable through anything proved below. *)
Definition empty : t := mk 0 0 0.

(** Modelled from the spec: [Range(scan, splat)], a range of one splat. *)
Definition single (scan splat : Z) : t := mk scan 1 splat.

(** Modelled from the spec: [Range(scan, start, size)]; rejected with
    out-of-range when [start + size - 1] does not fit [index_type]. *)
Definition make (scan start size : Z) : outcome t :=
  if (size =? 0) || (start + size - 1 <=? index_max)
  then Ret (mk scan size start)
  else Throw OutOfRange.

(** Modelled from the spec: [Range::append(scan, splat)].  Section 4.1
    gives the extension rule and the rule for the empty range;
    TestRange::testAppendMiddle fixes what the sentence leaves out: an
    element that already lies inside the range is accepted and changes
    nothing.  The sum [start + size] is the mathematical one: the header
    documents that [append] maintains "start + size - 1 does not overflow
    index_type", which rules out accepting a wrapped index.

    The result pairs the returned flag with the range after the call. *)
Definition append (r : t) (scan splat : Z) : bool * t :=
  if size r =? 0 then
    (true, mk scan 1 splat)
  else if (scan =? Range.scan r) && (splat =? start r + size r)
          && (size r <? size_max) then
    (true, mk (Range.scan r) (size r + 1) (start r))
  else if (scan =? Range.scan r) && (start r <=? splat)
          && (splat <? start r + size r) then
    (true, r)
  else
    (false, r).

(** A well-formed range: fields within their machine types, and the
    documented invariant. *)
Definition wf (r : t) : Prop :=
  0 <= scan r <= scan_max /\ 0 <= size r <= size_max /\
  0 <= start r <= index_max /\
  (0 < size r -> start r + size r - 1 <= index_max).

End Range.

(** ** Bucket::internal::RangeCollector (bucket.h) *)

Module RangeCollector.

(** The collector's members: the range being built and the output
    iterator; the latter is a [back_insert_iterator], modelled by the
    vector it appends to. *)
Record t : Type := mk { current : Range.t; out : list Range.t }.

(** [RangeCollector(out)]. *)
Definition init (out : list Range.t) : t := mk Range.empty out.

(** [append(scan, splat)]. *)
Definition append (c : t) (scan splat : Z) : t :=
  let '(ok, cur) := Range.append (current c) scan splat in
  if ok then mk cur (out c)
  else mk (Range.single scan splat) (out c ++ [current c]).

(** [flush()]. *)
Definition flush (c : t) : t :=
  if 0 <? Range.size (current c)
  then mk Range.empty (out c ++ [current c])
  else c.

(** The destructor flushes. *)
Definition destroy (c : t) : list Range.t := out (flush c).

(** A sequence of [append] calls. *)
Definition appendAll (c : t) (ids : list (Z * Z)) : t :=
  fold_left (fun c id => append c (fst id) (snd id)) ids c.

End RangeCollector.

(** ** Bucket::internal::Node and forEachNode *)

Module Node.

(** Modelled from the spec: [Node] is declared in bucket_internal.h, which is
    not part of the sources.  Section 3 of the specification and
    TestNode::testConstructor, testChild, testToMicro and testSize describe
    it: three cell coordinates and a level; coordinates are kept as
    mathematical integers (the Grid invariant of the specification rules out
    overflow). *)
Record t : Type := mk { x : Z; y : Z; z : Z; level : nat }.

(** Modelled from the spec: [size()], the side length in micro-cells,
    [1 << level]. *)
Definition size (n : t) : Z := Z.shiftl 1 (Z.of_nat (level n)).

(** Modelled from the spec: [child(idx)], one of the eight sub-octants; bit 0
    of [idx] selects the x half, bit 1 the y half, bit 2 the z half.  It is
    invalid-argument on a level-0 node or when [idx >= 8]
    (TestNode::testChild). *)
Definition child (n : t) (idx : Z) : outcome t :=
  _ ← MLSGPU_ASSERT ((0 <? Z.of_nat (level n)) && (idx <? 8)) InvalidArgument;
  Ret (mk (2 * x n + Z.land idx 1)
          (2 * y n + Z.land (Z.shiftr idx 1) 1)
          (2 * z n + Z.land (Z.shiftr idx 2) 1)
          (level n - 1)).

(** Modelled from the spec: [toMicro(lower, upper)], the half-open box of
    micro-cells the node covers. *)
Definition toMicro (n : t) : (Z * Z * Z) * (Z * Z * Z) :=
  let l := Z.of_nat (level n) in
  ((Z.shiftl (x n) l, Z.shiftl (y n) l, Z.shiftl (z n) l),
   (Z.shiftl (x n + 1) l, Z.shiftl (y n + 1) l, Z.shiftl (z n + 1) l)).

(** Modelled from the spec: [toCells(microSize, lower, upper, limit)], the
    node's box in grid cells, clamped to the number of cells of the
    enclosing grid (TestNode::testToCells). *)
Definition toCells (microSize : Z) (limit : Z * Z * Z) (n : t)
  : (Z * Z * Z) * (Z * Z * Z) :=
  let '((lx, ly, lz), (ux, uy, uz)) := toMicro n in
  let '(nx, ny, nz) := limit in
  ((Z.min (lx * microSize) nx, Z.min (ly * microSize) ny,
    Z.min (lz * microSize) nz),
   (Z.min (ux * microSize) nx, Z.min (uy * microSize) ny,
    Z.min (uz * microSize) nz)).

End Node.

Module ForEachNode.

Definition max3 (d : Z * Z * Z) : Z :=
  let '(a, b, c) := d in Z.max (Z.max a b) c.

(** A child is skipped when the lower bound of its micro-cell box is at or
    beyond the extent of the region on some axis. *)
Definition inside (dims : Z * Z * Z) (n : Node.t) : bool :=
  let '(lx, ly, lz) := fst (Node.toMicro n) in
  let '(dx, dy, dz) := dims in
  (lx <? dx) && (ly <? dy) && (lz <? dz).

(** Sequencing a loop body over a list in the exception monad. *)
Fixpoint foldM {A S : Type} (f : S -> A -> outcome S) (l : list A) (s : S)
  : outcome S :=
  match l with
  | [] => Ret s
  | a :: l' => s' ← f s a; foldM f l' s'
  end.

(** Modelled from the spec: the recursive part of [forEachNode] (section
    4.3).  [visit] may have effects (the tests' callback records the nodes
    it sees), so it threads a state of type [S].  The first argument bounds
    the recursion depth; it is started at the level of the root. *)
Fixpoint walk {S : Type} (dims : Z * Z * Z) (visit : Node.t -> S -> bool * S)
    (depth : nat) (n : Node.t) (s : S) : outcome S :=
  let '(descend, s1) := visit n s in
  if descend && (0 <? Z.of_nat (Node.level n)) then
    match depth with
    | O => OutOfFuel
    | S depth' =>
        foldM (fun s k =>
                 c ← Node.child n k;
                 if inside dims c then walk dims visit depth' c s else Ret s)
              [0; 1; 2; 3; 4; 5; 6; 7] s1
    end
  else Ret s1.

(** The nodes a traversal visits, in the order it visits them, when the
    decision to descend depends on the node only: the vocabulary in which
    the passes of the bucketing are described. *)
Definition childNode (n : Node.t) (k : Z) : Node.t :=
  Node.mk (2 * Node.x n + Z.land k 1)
          (2 * Node.y n + Z.land (Z.shiftr k 1) 1)
          (2 * Node.z n + Z.land (Z.shiftr k 2) 1)
          (Node.level n - 1).

Fixpoint subtree (dims : Z * Z * Z) (descend : Node.t -> bool)
    (depth : nat) (n : Node.t) : list Node.t :=
  n :: (if descend n && (0 <? Z.of_nat (Node.level n)) then
          match depth with
          | O => []
          | S depth' =>
              k ← [0; 1; 2; 3; 4; 5; 6; 7];
              if inside dims (childNode n k)
              then subtree dims descend depth' (childNode n k) else []
          end
        else []).

(** A visited node below which the traversal does not go. *)
Definition terminal (descend : Node.t -> bool) (n : Node.t) : bool :=
  negb (descend n && (0 <? Z.of_nat (Node.level n))).

(** Modelled from the spec: [forEachNode(dims, levels, func)].  The body is
    not part of the sources; section 4.3 of the specification and
    TestForEachNode fix it.  The tests decide two points: the root sits at
    level [levels - 1] (testSimple: four levels, root [Node(0,0,0,3)]), and
    a region of extent 6 with three levels is rejected (testAsserts), so the
    root must cover the region: [2 ^ (levels - 1) >= max dims].
    [MAX_DIM] is the bound on a dimension the specification names; it is a
    constant of the missing header and is taken as a parameter. *)
Definition forEachNode {S : Type} (MAX_DIM : Z) (dims : Z * Z * Z)
    (levels : Z) (visit : Node.t -> S -> bool * S) (s : S) : outcome S :=
  _ ← MLSGPU_ASSERT ((1 <=? levels) && (levels <=? Z.log2 MAX_DIM))
        InvalidArgument;
  let level := levels - 1 in
  _ ← MLSGPU_ASSERT (max3 dims <=? Z.shiftl 1 level) InvalidArgument;
  walk dims visit (Z.to_nat level) (Node.mk 0 0 0 (Z.to_nat level)) s.

(** The precondition as section 4.3 of the specification words it. *)
Definition precondition_spec (MAX_DIM : Z) (dims : Z * Z * Z) (levels : Z)
  : Prop :=
  0 < levels <= Z.log2 MAX_DIM /\ 2 ^ levels >= max3 dims.

(** The precondition the tests pin down. *)
Definition precondition (MAX_DIM : Z) (dims : Z * Z * Z) (levels : Z)
  : Prop :=
  0 < levels <= Z.log2 MAX_DIM /\ 2 ^ (levels - 1) >= max3 dims.

(** TestForEachNode::nodeFunc: records the node, and asks to descend when
    the node contains the micro-cell (2, 1, 4). *)
Definition nodeFunc (n : Node.t) (nodes : list Node.t) : bool * list Node.t :=
  let '((lx, ly, lz), (ux, uy, uz)) := Node.toMicro n in
  ((lx <=? 2) && (2 <? ux) && (ly <=? 1) && (1 <? uy)
   && (lz <=? 4) && (4 <? uz),
   nodes ++ [n]).

(** TestForEachNode's [dummyNodeFunc]. *)
Definition dummyNodeFunc (n : Node.t) (s : unit) : bool * unit := (false, s).

End ForEachNode.

(** ** SplatTree (splattree.cpp) *)

Module SplatTree.

(** Width of [unsigned int], the type [digit << shift], [1U << (3 * i)] and
    the comparison [(1 << maxLevel) < size] are evaluated in. *)
Definition uint_digits : Z := 32.

(** Reduction to an unsigned type of [w] bits. *)
Definition wrap (w : Z) (v : Z) : Z := v mod 2 ^ w.

(** [SplatTree::size_type] is declared in splattree.h, which is not part of
    the sources.  Its width, [std::numeric_limits<size_type>::digits], is the
    parameter [digits] of everything below; [size_max digits] is
    [std::numeric_limits<size_type>::max()]. *)
Definition size_max (digits : Z) : Z := 2 ^ digits - 1.

(** The loop of [makeCode].  State: [x], [y], [z], [shift], [ans].  A shift
    of an [unsigned int] keeps the low 32 bits of the mathematical result;
    [ans += ...] wraps in [size_type]. *)
Fixpoint makeCode_loop (digits : Z) (fuel : nat) (x y z shift ans : Z)
  : outcome (Z * Z) :=
  if (x =? 0) && (y =? 0) && (z =? 0) then Ret (shift, ans)
  else
    match fuel with
    | O => OutOfFuel
    | S fuel' =>
        let digit :=
          wrap uint_digits
               (Z.land x 1 + Z.shiftl (Z.land y 1) 1 + Z.shiftl (Z.land z 1) 2) in
        let ans' := wrap digits (ans + wrap uint_digits (Z.shiftl digit shift)) in
        makeCode_loop digits fuel'
                      (Z.shiftr x 1) (Z.shiftr y 1) (Z.shiftr z 1)
                      (shift + 3) ans'
    end.

(** [SplatTree::makeCode(x, y, z)].  The arguments are [size_type] values, so
    the loop runs at most [digits] times. *)
Definition makeCode (digits : Z) (x y z : Z) : outcome Z :=
  '(shift, ans) ← makeCode_loop digits (Z.to_nat digits) x y z 0 0;
  _ ← MLSGPU_ASSERT (shift <? digits) RangeError;
  Ret ans.

(** The number of bits of a non-negative integer: the number of times the
    loop of [makeCode] halves it before it is zero. *)
Definition bitlen (v : Z) : Z := if v <=? 0 then 0 else Z.log2 v + 1.

Definition max3 (x y z : Z) : Z := Z.max (Z.max x y) z.

(** The interleaving of the low [n] bits of [x], [y] and [z], least
    significant first, as an integer that is not reduced to any width. *)
Fixpoint interleave_bits (n : nat) (x y z : Z) : Z :=
  match n with
  | O => 0
  | S n' =>
      x mod 2 + 2 * (y mod 2) + 4 * (z mod 2)
      + 8 * interleave_bits n' (x / 2) (y / 2) (z / 2)
  end.

(** The interleaving of all bits of [x], [y] and [z]. *)
Definition interleave (x y z : Z) : Z :=
  interleave_bits (Z.to_nat (bitlen (max3 x y z))) x y z.

(** The coordinates [makeCode] accepts: non-negative, and three times the
    bit length of the largest is below the width of [size_type]. *)
Definition valid (digits : Z) (x y z : Z) : Prop :=
  0 <= x /\ 0 <= y /\ 0 <= z /\ 3 * bitlen (max3 x y z) < digits.

(** [struct Entry]. *)
Record Entry : Type := mkEntry { pos : Z; splatId : Z }.

(** [std::stable_sort] with [Entry::operator<]: insertion sort that places
    a new element in front of the first element that is not smaller, which
    keeps equal elements in their original order. *)
Fixpoint insert (e : Entry) (l : list Entry) : list Entry :=
  match l with
  | [] => [e]
  | h :: t => if pos e <=? pos h then e :: h :: t else h :: insert e t
  end.

Definition stable_sort (l : list Entry) : list Entry := fold_right insert [] l.

(** Vocabulary for the properties of the flattened arrays: the number of
    entries of a list that fall into cell [c], the number that fall into a
    cell before [c], and the order [stable_sort] sorts by. *)
Definition cnt (c : Z) (es : list Entry) : Z :=
  Z.of_nat (length (filter (fun e => pos e = c) es)).

Definition cntlt (c : Z) (es : list Entry) : Z :=
  Z.of_nat (length (filter (fun e => pos e < c) es)).

Definition pos_le (a b : Entry) : Prop := pos a <= pos b.

Definition sumZ (l : list Z) : Z := foldr Z.add 0 l.

(** [while ((1 << maxLevel) < size) maxLevel++;]  The left operand is an
    [int] converted to [unsigned int] for the comparison. *)
Fixpoint maxLevel_loop (fuel : nat) (size maxLevel : Z) : outcome Z :=
  if wrap uint_digits (Z.shiftl 1 maxLevel) <? size then
    match fuel with
    | O => OutOfFuel
    | S fuel' => maxLevel_loop fuel' size (maxLevel + 1)
    end
  else Ret maxLevel.

(** [levelStart]: [levelStart[0] = 0] and
    [levelStart[i + 1] = levelStart[i] + (1U << (3 * i))] for
    [i = 0 .. maxLevel]. *)
Fixpoint levelStart_from (digits : Z) (n : nat) (i acc : Z) : list Z :=
  match n with
  | O => [acc]
  | S n' =>
      acc :: levelStart_from digits n' (i + 1)
               (wrap digits (acc + wrap uint_digits (Z.shiftl 1 (3 * i))))
  end.

Definition make_levelStart (digits maxLevel : Z) : list Z :=
  levelStart_from digits (Z.to_nat (maxLevel + 1)) 0 0.

(** [while ((ihi[i] >> shift) - (ilo[i] >> shift) > 1) shift++;] *)
Fixpoint shift_loop (fuel : nat) (lo hi shift : Z) : outcome Z :=
  if 1 <? Z.shiftr hi shift - Z.shiftr lo shift then
    match fuel with
    | O => OutOfFuel
    | S fuel' => shift_loop fuel' lo hi (shift + 1)
    end
  else Ret shift.

(** C [assert], as in a build that keeps the assertions (no [NDEBUG]): a
    check that fails aborts.  Where the checks hold, a build without them
    does the same. *)
Definition assert (cond : bool) : outcome unit :=
  if cond then Ret tt else AssertFail.

(** The exclusive prefix sum over [start], in [size_type] arithmetic. *)
Fixpoint prefix_sum (digits : Z) (sum : Z) (start : list Z) : list Z :=
  match start with
  | [] => []
  | c :: rest => sum :: prefix_sum digits (wrap digits (sum + c)) rest
  end.

(** The three nested loops over [z], [y], [x] (in this nesting order) from
    [ilo] to [ihi] inclusive, as the list of cells in the order the loops
    reach them. *)
Definition cells (ilo ihi : Z * Z * Z) : list (Z * Z * Z) :=
  let '(lx, ly, lz) := ilo in
  let '(hx, hy, hz) := ihi in
  z ← seqZ lz (hz - lz + 1);
  y ← seqZ ly (hy - ly + 1);
  x ← seqZ lx (hx - lx + 1);
  [(x, y, z)].

(** Running a loop body that may throw over a list, collecting results. *)
Fixpoint mapM {A B : Type} (f : A -> outcome B) (l : list A) : outcome (list B) :=
  match l with
  | [] => Ret []
  | a :: l' => b ← f a; bs ← mapM f l'; Ret (b :: bs)
  end.

(** The persistent arrays of a [SplatTree]. *)
Record t : Type := mk { levelStart : list Z; start : list Z; ids : list Z }.

Section Construction.

(** [Splat] and [Grid] come from splat.h and grid.h.  The constructor uses
    a grid through [numVertices(axis)] and [worldToVertex], and a splat
    through its position and radius.  The floating-point part of the loop
    body (lines 95-112: [sqrt], the corners [lo] and [hi], [worldToVertex],
    and the conversions [RoundUp] and [RoundDown]) is the function
    [vertexBounds]: for a splat it gives [(ilo, ihi)] as the conversions
    deliver them. *)
Variable Splat Grid : Type.
Variable numVertices : Grid -> Z * Z * Z.
Variable vertexBounds : Grid -> Splat -> (Z * Z * Z) * (Z * Z * Z).
Variable digits : Z.

(** One axis of the loop at lines 109-117: the two assertions on the
    bounds, then the shift loop, which carries [shift] over from the
    previous axis. *)
Definition axis_step (nv lo hi shift : Z) : outcome Z :=
  _ ← assert ((0 <=? hi) && (hi <? nv));
  _ ← assert ((0 <=? lo) && (lo <? nv));
  shift_loop (Z.to_nat uint_digits) lo hi shift.

(** The body of the loop over splats (lines 94-134): the entries of one
    splat, in the order they are pushed. *)
Definition splat_entries (grid : Grid) (maxLevel : Z) (levelStart : list Z)
    (splatId : Z) (splat : Splat) : outcome (list Entry) :=
  let '((lx, ly, lz), (hx, hy, hz)) := vertexBounds grid splat in
  let '(nx, ny, nz) := numVertices grid in
  shift ← axis_step nx lx hx 0;
  shift ← axis_step ny ly hy shift;
  shift ← axis_step nz lz hz shift;
  _ ← assert (shift <=? maxLevel);
  let ilo := (Z.shiftr lx shift, Z.shiftr ly shift, Z.shiftr lz shift) in
  let ihi := (Z.shiftr hx shift, Z.shiftr hy shift, Z.shiftr hz shift) in
  let level := maxLevel - shift in
  mapM (fun '(x, y, z) =>
          code ← makeCode digits x y z;
          Ret (mkEntry (wrap digits (nth (Z.to_nat level) levelStart 0 + code))
                       splatId))
       (cells ilo ihi).

(** The loop over splats (lines 92-135), started at [splatId]. *)
Fixpoint all_entries (grid : Grid) (maxLevel : Z) (levelStart : list Z)
    (splatId : Z) (splats : list Splat) : outcome (list Entry) :=
  match splats with
  | [] => Ret []
  | splat :: rest =>
      es ← splat_entries grid maxLevel levelStart splatId splat;
      es' ← all_entries grid maxLevel levelStart (splatId + 1) rest;
      Ret (es ++ es')
  end.

(** [start[e.pos]++] (line 146), on its own. *)
Definition bump (st : list Z) (e : Entry) : list Z :=
  alter (fun c => wrap digits (c + 1)) (Z.to_nat (pos e)) st.

(** The extraction loop (lines 142-147): [ids.push_back(e.splatId)] and
    [start[e.pos]++]. *)
Definition extract (start0 : list Z) (entries : list Entry)
  : list Z * list Z :=
  fold_left (fun '(ids, start) e =>
               (ids ++ [splatId e],
                alter (fun c => wrap digits (c + 1)) (Z.to_nat (pos e)) start))
            entries ([], start0).

(** [maxLevel] as lines 77-80 compute it. *)
Definition compute_maxLevel (grid : Grid) : outcome Z :=
  let '(nx, ny, nz) := numVertices grid in
  let size := wrap uint_digits (Z.max (Z.max nx ny) nz) in
  maxLevel_loop (Z.to_nat uint_digits) size 0.

(** [SplatTree::SplatTree(splats, grid)]. *)
Definition construct (splats : list Splat) (grid : Grid) : outcome t :=
  _ ← MLSGPU_ASSERT (Z.of_nat (length splats) <=? size_max digits) LengthError;
  maxLevel ← compute_maxLevel grid;
  let levelStart := make_levelStart digits maxLevel in
  let start0 :=
    replicate (Z.to_nat (wrap uint_digits (List.last levelStart 0 + 1))) 0 in
  entries ← all_entries grid maxLevel levelStart 0 splats;
  let '(ids, start1) := extract start0 (stable_sort entries) in
  Ret (mk levelStart (prefix_sum digits 0 start1) ids).

(** "The splat with index [id] resolves to cell [c]": the entries the loop
    body computes for that splat, from its placement level and the Morton
    codes of the cells it touches, include one at position [c]. *)
Definition resolves (grid : Grid) (splats : list Splat) (id c : Z) : Prop :=
  exists maxLevel splat es,
    compute_maxLevel grid = Ret maxLevel
    /\ 0 <= id /\ splats !! Z.to_nat id = Some splat
    /\ splat_entries grid maxLevel (make_levelStart digits maxLevel) id splat
       = Ret es
    /\ c ∈ (pos <$> es).

(** The octree over the grid has [maxLevel + 1] levels and its cells can be
    numbered in [size_type]: the vertex counts are [unsigned int] values
    and the finest level's Morton codes, of [3 * maxLevel] bits, fit. *)
Definition levels_fit (grid : Grid) (maxLevel : Z) : Prop :=
  (let '(nx, ny, nz) := numVertices grid in max3 nx ny nz < 2 ^ uint_digits)
  /\ compute_maxLevel grid = Ret maxLevel
  /\ 3 * maxLevel < digits.

End Construction.

(** [levelStart[i]] when nothing overflows: the number of cells on the
    levels before [i]. *)
Fixpoint geo (n : nat) : Z :=
  match n with
  | O => 0
  | S k => geo k + 8 ^ Z.of_nat k
  end.

End SplatTree.

(** ** Bucket::bucket *)

Module Bucketer.

(** A grid is used through its three extents, [getExtent(axis)], each a
    pair (first, second) of cell coordinates, lower inclusive and upper
    exclusive.  Reference point and spacing are the same for a grid and
    all its sub-grids (TestBucket::validate checks it), so cell coordinates
    are meaningful across them. *)
Definition extent : Type := Z * Z.
Definition grid : Type := extent * extent * extent.

Definition numCells1 (e : extent) : Z := snd e - fst e.

Definition numCells (g : grid) : Z * Z * Z :=
  let '(ex, ey, ez) := g in (numCells1 ex, numCells1 ey, numCells1 ez).

(** [gridsIntersect] of test_bucket.cpp. *)
Definition extentsIntersect (a b : extent) : bool :=
  negb ((snd a <=? fst b) || (snd b <=? fst a)).

Definition gridsIntersect (a b : grid) : bool :=
  let '(ax, ay, az) := a in
  let '(bx, b_y, bz) := b in
  extentsIntersect ax bx && extentsIntersect ay b_y && extentsIntersect az bz.

(** A splat enters the bucketing through its bounding cube only.  The cube
    is given in floating point; what the bucketing needs of it is the box
    of lattice cells it intersects, in the cell coordinates of the
    enclosing grid's lattice.  A splat of the model is that box, with its
    position in the input: the scan it comes from and its index in the
    scan. *)
Record Splat : Type := mkSplat { scan : Z; index : Z; cube : grid }.

(** The splat source: scans, each a sequence of cubes. *)
Definition enumerate (files : list (list grid)) : list Splat :=
  concat (imap (fun s file =>
                  imap (fun i c => mkSplat (Z.of_nat s) (Z.of_nat i) c) file)
               files).

(** One call of the sink: the sub-grid, the ranges and the splat count. *)
Record Bucket : Type :=
  mkBucket { bgrid : grid; ranges : list Range.t; numSplats : Z }.

(** The ranges [RangeCollector] makes of a sequence of splats. *)
Definition collect (splats : list Splat) : list Range.t :=
  RangeCollector.destroy
    (RangeCollector.appendAll (RangeCollector.init [])
       ((fun s => (scan s, index s)) <$> splats)).

(** A range covers the splat with a given scan and index. *)
Definition covers (r : Range.t) (s i : Z) : Prop :=
  Range.scan r = s /\ Range.start r <= i < Range.start r + Range.size r.

(** Vocabulary for the geometry of grids: a cell lies in a grid, a grid
    lies within another, a grid has at least one cell. *)
Definition extentIn (p : Z) (e : extent) : Prop := fst e <= p < snd e.

Definition cellIn (p : Z * Z * Z) (g : grid) : Prop :=
  let '(px, py, pz) := p in
  let '(ex, ey, ez) := g in
  extentIn px ex /\ extentIn py ey /\ extentIn pz ez.

Definition extentSub (a b : extent) : Prop := fst b <= fst a /\ snd a <= snd b.

Definition subGrid (a b : grid) : Prop :=
  let '(ax, ay, az) := a in
  let '(bx, b_y, bz) := b in
  extentSub ax bx /\ extentSub ay b_y /\ extentSub az bz.

Definition nonempty (g : grid) : Prop :=
  let '(ex, ey, ez) := g in
  fst ex < snd ex /\ fst ey < snd ey /\ fst ez < snd ez.

Definition disjoint (a b : grid) : Prop := gridsIntersect a b = false.

(** The splats a collector has taken in: those covered by a range it has
    written or by the range it is building. *)
Definition covered (c : RangeCollector.t) (s i : Z) : Prop :=
  (exists r, r ∈ RangeCollector.out c /\ covers r s i)
  \/ covers (RangeCollector.current c) s i.

Definition ceilDiv (a b : Z) : Z := (a + b - 1) / b.

(** Modelled from the spec: the octree depth for a region of the given
    micro-cell extents, [ceil(log2(max(micro)))] (section 4.3), as the
    number of levels [forEachNode] takes: the root sits one level below
    the number of levels. *)
Definition levelsFor (micro : Z * Z * Z) : Z := Z.log2_up (ForEachNode.max3 micro) + 1.

Section Parameters.

(** [MAX_DIM] is the constant of [forEachNode]; [leafCells] is the
    parameter section 4.4 derives the micro-cell size from, together with
    [maxCells] (its [blockCells]). *)
Variable MAX_DIM : Z.
Variable maxSplats maxCells maxSplit leafCells : Z.

(** Modelled from the spec: [microSize = min(leafCells, blockCells)], the
    side of a micro-cell in grid cells (section 4.4). *)
Definition microSize : Z := Z.min leafCells maxCells.

(** One axis of a node's sub-grid: the node's cells, clamped to the
    number of cells of the region and placed at the region's lower end. *)
Definition nodeExtent (e : extent) (X l : Z) : extent :=
  (fst e + Z.min (Z.shiftl X l * microSize) (numCells1 e),
   fst e + Z.min (Z.shiftl (X + 1) l * microSize) (numCells1 e)).

(** Modelled from the spec: the sub-grid of [region] a node stands for,
    its box of cells ([toCells]) placed in the region. *)
Definition nodeGrid (region : grid) (n : Node.t) : grid :=
  let '((lx, ly, lz), (ux, uy, uz)) :=
    Node.toCells microSize (numCells region) n in
  let '((x0, _), (y0, _), (z0, _)) := region in
  ((x0 + lx, x0 + ux), (y0 + ly, y0 + uy), (z0 + lz, z0 + uz)).

(** Modelled from the spec: the tally of the histogram, how many of the
    splats' cubes intersect a sub-grid. *)
Definition countSplats (g : grid) (splats : list Splat) : Z :=
  Z.of_nat (length (List.filter (fun s => gridsIntersect g (cube s)) splats)).

(** Modelled from the spec: step 1,
    [microExtents = ceilDiv(R.cells, microSize)]. *)
Definition microExtents (region : grid) : Z * Z * Z :=
  let '(cx, cy, cz) := numCells region in
  (ceilDiv cx microSize, ceilDiv cy microSize, ceilDiv cz microSize).

(** Modelled from the spec: a sub-grid with its splat count violates the
    [(maxCells, maxSplats)] constraints. *)
Definition violates (g : grid) (count : Z) : bool :=
  (maxSplats <? count) || (maxCells <? ForEachNode.max3 (numCells g)).

(** Modelled from the spec: the visit of the histogram pass (step 2).
    Every node is descended into, and the largest count among the
    micro-cells is kept for the density check. *)
Definition histVisit (region : grid) (splats : list Splat)
    (n : Node.t) (worst : Z) : bool * Z :=
  (true,
   if (Node.level n =? 0)%nat
   then Z.max worst (countSplats (nodeGrid region n) splats)
   else worst).

(** Modelled from the spec: the visit of the picking pass (step 4).  The
    region itself is known to violate the constraints and is subdivided;
    below it, a node is descended into iff it violates the constraints and
    its count exceeds the target; a node that is not descended into is
    recorded. *)
Definition pickVisit (region : grid) (splats : list Splat)
    (rootLevel : nat) (target : Z) (n : Node.t) (picked : list Node.t)
  : bool * list Node.t :=
  if (Node.level n =? rootLevel)%nat then (true, picked)
  else
    let g := nodeGrid region n in
    let c := countSplats g splats in
    if violates g c && (target <? c) then (true, picked)
    else (false, picked ++ [n]).

(** The two visits, as a decision that depends on the node only and an
    update of the state. *)
Definition histUpdate (region : grid) (splats : list Splat)
    (worst : Z) (n : Node.t) : Z :=
  if (Node.level n =? 0)%nat
  then Z.max worst (countSplats (nodeGrid region n) splats)
  else worst.

Definition pickDescend (region : grid) (splats : list Splat)
    (rootLevel : nat) (target : Z) (n : Node.t) : bool :=
  (Node.level n =? rootLevel)%nat
  || (violates (nodeGrid region n) (countSplats (nodeGrid region n) splats)
      && (target <? countSplats (nodeGrid region n) splats)).

(** What is expected of a bucket emitted for a region and its splats: it
    lies in the region, meets the two constraints, is not empty, and its
    ranges and its count are those of the splats that intersect it. *)
Definition bucket_ok (region : grid) (splats : list Splat) (b : Bucket)
  : Prop :=
  subGrid (bgrid b) region
  /\ ForEachNode.max3 (numCells (bgrid b)) <= maxCells
  /\ 0 < numSplats b <= maxSplats
  /\ ranges b
     = collect (List.filter (fun s => gridsIntersect (bgrid b) (cube s)) splats)
  /\ numSplats b
     = Z.of_nat (length (List.filter
                           (fun s => gridsIntersect (bgrid b) (cube s)) splats)).

(** Modelled from the spec: the recursion of [bucket] (section 4.4, steps
    1 to 5); its body, in bucket.cpp, is not part of the sources.  [splats]
    are the splats whose cubes intersect [region].  The recursion-state
    argument ([cellsDone]) only reports progress and is left out.  Reading
    notes, all checked against TestBucket below: an empty splat list emits
    nothing at every step; the density check raises the largest micro-cell
    count before anything else is decided; and the sub-regions of step 4
    are proper sub-nodes, so the root is always subdivided. *)
Fixpoint bucketRecurse (fuel : nat) (region : grid) (splats : list Splat)
  : outcome (list Bucket) :=
  match splats with
  | [] => Ret []
  | _ :: _ =>
      let micro := microExtents region in
      let levels := levelsFor micro in
      worst ← ForEachNode.forEachNode MAX_DIM micro levels
                (histVisit region splats) 0;
      if maxSplats <? worst then Throw (DensityError worst)
      else if (ForEachNode.max3 (numCells region) <=? maxCells)
              && (Z.of_nat (length splats) <=? maxSplats)
      then Ret [mkBucket region (collect splats) (Z.of_nat (length splats))]
      else
        match fuel with
        | O => OutOfFuel
        | S fuel' =>
            let target := Z.max 1 (Z.of_nat (length splats) / maxSplit) in
            picked ← ForEachNode.forEachNode MAX_DIM micro levels
                       (pickVisit region splats (Z.to_nat (levels - 1)) target)
                       [];
            ForEachNode.foldM
              (fun acc n =>
                 let g := nodeGrid region n in
                 bs ← bucketRecurse fuel' g
                        (List.filter (fun s => gridsIntersect g (cube s)) splats);
                 Ret (acc ++ bs))
              picked []
        end
  end.

(** Modelled from the spec: [bucket(splats, bbox, maxSplats, maxCells,
    maxSplit, sink)]; the sink is modelled by the list of its calls.
    Splats whose cube lies outside [bbox] are discarded up front; the depth
    of the recursion is bounded by the depth of the octree over [bbox]. *)
Definition bucket (files : list (list grid)) (bbox : grid)
  : outcome (list Bucket) :=
  bucketRecurse (Z.to_nat (levelsFor (microExtents bbox))) bbox
    (List.filter (fun s => gridsIntersect bbox (cube s)) (enumerate files)).

(** The micro-cells of the bucketing grid: the level-0 nodes within the
    micro-cell extents of [bbox], as sub-grids. *)
Definition isMicroCell (bbox g : grid) : Prop :=
  exists x y z,
    let '(mx, my, mz) := microExtents bbox in
    0 <= x < mx /\ 0 <= y < my /\ 0 <= z < mz
    /\ g = nodeGrid bbox (Node.mk x y z 0).

End Parameters.

(** Two extents share no cell; two grids are separated by an axis on which
    their extents share no cell. *)
Definition extentsApart (a b : extent) : Prop := snd a <= fst b \/ snd b <= fst a.

Definition separated (a b : grid) : Prop :=
  let '(ax, ay, az) := a in
  let '(bx, b_y, bz) := b in
  extentsApart ax bx \/ extentsApart ay b_y \/ extentsApart az bz.

(** The data of TestBucket::setupSimple: for each of the thirteen splats,
    the box of cells of the test's grid (reference (-10, 0, 10), spacing
    2.5) that its cube (position, radius) intersects. *)
Definition setupSimple : list (list grid) :=
  [ [ ((7, 9), (7, 9), (-1, 1));  ((15, 17), (6, 8), (-1, 1));
      ((16, 18), (4, 6), (-1, 1)); ((16, 18), (6, 8), (-1, 1));
      ((18, 20), (6, 8), (-1, 1)); ((16, 20), (5, 8), (-2, 2)) ];
    [ ((8, 10), (14, 16), (-1, 1)); ((8, 10), (14, 16), (-1, 1));
      ((8, 10), (14, 16), (-1, 1)); ((8, 10), (14, 16), (-1, 1));
      ((10, 12), (12, 14), (-1, 1)) ];
    [ ((10, 12), (12, 14), (-1, 1)); ((12, 16), (16, 20), (-2, 2)) ] ].

(** The grid of the tests: [Grid(ref, 2.5f, 4, 20, 0, 20, -4, 4)]. *)
Definition testGrid : grid := ((4, 20), (0, 20), (-4, 4)).

(** The calls of [bucket] in TestBucket::testSimple, testMultiLevel,
    testFlat, testDensityError and testEmpty, with a micro-cell of one grid
    cell and [MAX_DIM] = 2^31. *)
Definition testSimple : outcome (list Bucket) :=
  bucket (2 ^ 31) 5 8 1000000 1 setupSimple testGrid.

Definition testMultiLevel : outcome (list Bucket) :=
  bucket (2 ^ 31) 5 8 8 1 setupSimple testGrid.

Definition testFlat : outcome (list Bucket) :=
  bucket (2 ^ 31) 15 32 1000000 1 setupSimple testGrid.

Definition testDensityError : outcome (list Bucket) :=
  bucket (2 ^ 31) 1 8 1000000 1 setupSimple testGrid.

Definition testEmpty : outcome (list Bucket) :=
  bucket (2 ^ 31) 5 8 1000000 1 [] testGrid.

(** The blocks testSimple collects. *)
Definition testSimple_blocks : list Bucket :=
  Eval vm_compute in
    match testSimple with Ret bs => bs | _ => [] end.

End Bucketer.

(** ** Using a RangeCollector: sequences of calls, and the splats of ranges *)

Module RangeOps.

(** A call on a collector: [append(scan, splat)] or [flush()]. *)
Inductive op : Type :=
| Append (scan splat : Z)
| Flush.

Definition step (c : RangeCollector.t) (o : op) : RangeCollector.t :=
  match o with
  | Append s i => RangeCollector.append c s i
  | Flush => RangeCollector.flush c
  end.

(** The calls of a list, in order. *)
Definition run (c : RangeCollector.t) (ops : list op) : RangeCollector.t :=
  fold_left step ops c.

(** The ids the calls of a list append, in order. *)
Definition appended (ops : list op) : list (Z * Z) :=
  ops ≫= fun o => match o with Append s i => [(s, i)] | Flush => [] end.

(** The ids a range stands for, in order: the inner loop of
    TestForEachSplat::testSimple that builds [expected],
    [for (i = 0; i < range.size; ++i) push_back(Id(range.scan, range.start + i))].
    The sum is the mathematical one: the invariant of [Range] keeps
    [start + size - 1] within [index_type]. *)
Definition expand (r : Range.t) : list (Z * Z) :=
  (fun i => (Range.scan r, Range.start r + i)) <$> seqZ 0 (Range.size r).

(** The outer loop: the ids of a list of ranges. *)
Definition expandAll (rs : list Range.t) : list (Z * Z) := rs ≫= expand.

(** Ids in the order of the input: by scan, then by index. *)
Definition idLt (a b : Z * Z) : Prop :=
  fst a < fst b \/ (fst a = fst b /\ snd a < snd b).

(** An id within its machine types. *)
Definition idOK (id : Z * Z) : Prop :=
  0 <= fst id <= Range.scan_max /\ 0 <= snd id <= Range.index_max.

(** A range as the collector writes them: not empty, and within the
    machine types with the documented invariant. *)
Definition good (r : Range.t) : Prop :=
  0 < Range.size r /\ Range.wf r.

(** [count] consecutive splats of one scan, from [first] on: the calls of
    the loop of TestRangeBig::testBigRange. *)
Definition consecutive (scan first count : Z) : list (Z * Z) :=
  (fun k => (scan, first + k)) <$> seqZ 0 count.

(** The assertion of TestBucket::validate on two neighbours of a range
    list: "the splat IDs should be increasing and ranges should be
    properly coalesced",
    [range.scan > prev.scan
     || (range.scan == prev.scan && range.start > prev.start + prev.size)]. *)
Definition apart (prev range : Range.t) : Prop :=
  Range.scan range > Range.scan prev
  \/ (Range.scan range = Range.scan prev
      /\ Range.start range > Range.start prev + Range.size prev).

(** The calls of TestRangeCollector::testFlush. *)
Definition testFlush : list op :=
  [Append 3 5; Append 3 6; Flush; Append 3 7; Append 4 0; Flush].

End RangeOps.

(** ** The bounds of a splat in the SplatTree constructor *)

Module SplatBounds.

Section Bounds.

Variable Splat Grid : Type.
Variable numVertices : Grid -> Z * Z * Z.
Variable vertexBounds : Grid -> Splat -> (Z * Z * Z) * (Z * Z * Z).

(** The two assertions of the constructor on the bounds of a splat
    (lines 113-114), on the three axes:
    [ihi[i] >= 0 && ihi[i] < grid.numVertices(i)] and
    [ilo[i] >= 0 && ilo[i] < grid.numVertices(i)]. *)
Definition inside (grid : Grid) (splat : Splat) : Prop :=
  let '((lx, ly, lz), (hx, hy, hz)) := vertexBounds grid splat in
  let '(nx, ny, nz) := numVertices grid in
  (0 <= hx < nx /\ 0 <= lx < nx)
  /\ (0 <= hy < ny /\ 0 <= ly < ny)
  /\ (0 <= hz < nz /\ 0 <= lz < nz).

(** The bounds of a splat hold a vertex on every axis: [ilo[i] <= ihi[i]]. *)
Definition proper (grid : Grid) (splat : Splat) : Prop :=
  let '((lx, ly, lz), (hx, hy, hz)) := vertexBounds grid splat in
  lx <= hx /\ ly <= hy /\ lz <= hz.

End Bounds.

End SplatBounds.

(** ** FastPly::Reader::read (fast_ply.h) *)

Module Reader.

Section Read.

(** [value_type], the splats a reader delivers. *)
Variable Splat : Type.

(** What [read] uses of a reader: [size()], the number of vertices, and
    the overload of [read] for raw memory (declared at line 153; its body
    is in fast_ply.cpp, which is not part of the sources).  [readRaw first
    last] stands for [read(first, last, buffer)]: it gives the vertices
    the call has written to the front of [buffer], or the exception it
    has raised. *)
Variable vertexCount : Z.
Variable readRaw : Z -> Z -> outcome (list Splat).

Definition bufferSize : Z := 8192.

(** The loop of [read] (lines 361-368).  [std::copy(buffer, buffer + size,
    out)] appends the first [size] elements of the buffer to the output;
    the output iterator is modelled by the sequence written through it. *)
Fixpoint read_loop (fuel : nat) (first last : Z) (out : list Splat)
  : outcome (list Splat) :=
  if first <? last then
    match fuel with
    | O => OutOfFuel
    | S fuel' =>
        let size := Z.min bufferSize (last - first) in
        buffer ← readRaw first (first + size);
        read_loop fuel' (first + size) last
                  (out ++ take (Z.to_nat size) buffer)
    end
  else Ret out.

(** [Reader::read(first, last, out)] for an output iterator that is not a
    pointer (lines 354-370, reached through lines 371-375).  Every turn of
    the loop advances [first] by at least one, so [last - first] turns
    are enough. *)
Definition read (first last : Z) (out : list Splat) : outcome (list Splat) :=
  _ ← MLSGPU_ASSERT ((first <=? last) && (last <=? vertexCount)) OutOfRange;
  read_loop (Z.to_nat (last - first)) first last out.

End Read.

(** The vertices [first, last) of a file. *)
Definition slice {A : Type} (first last : Z) (vertices : list A) : list A :=
  take (Z.to_nat (last - first)) (drop (Z.to_nat first) vertices).

End Reader.

(** ** The options of the main program (mlsgpu_core.cpp) *)

Module Options.

(** [MlsFunctor::wgs] and [MlsFunctor::subsamplingMin] (mls.cpp, lines
    53-54). *)
Definition wgs : Z * Z * Z := (8, 8, 8).
Definition subsamplingMin : Z := 3.

(** The options the functions below read from the [variables_map].
    [levels], [subsampling], [maxSplit], [deviceThreads] and [leafCells]
    are [int] options; the memory options are [Capacity] values, read as
    [std::size_t].  Of the [double] option [fitPrune] the validation uses
    one comparison only; [fitPruneInRange] is its outcome,
    [pruneThreshold >= 0.0 && pruneThreshold <= 1.0]. *)
Record t : Type := mk {
  levels : Z;
  subsampling : Z;
  maxSplit : Z;
  deviceThreads : Z;
  leafCells : Z;
  memBucketSplats : Z;
  memLoadSplats : Z;
  memHostSplats : Z;
  memMesh : Z;
  memGather : Z;
  fitPruneInRange : bool
}.

(** The places where [validateOptions] throws [invalid_option], in the
    order of the code; the message of each names the option. *)
Inductive invalid_option : Type :=
| LevelsOutOfRange
| SubsamplingTooSmall
| BucketSplatsNotPositive
| LoadSplatsTooSmall
| HostSplatsTooSmall
| MaxSplitTooSmall
| SumTooLarge
| SumTooSmall
| DeviceThreadsTooSmall
| FitPruneOutOfRange
| MemMeshTooSmall
| MemGatherTooSmall.

(** The outcome of [validateOptions]: it returns, or it throws. *)
Inductive validation : Type :=
| Valid
| Invalid (why : invalid_option).

Section Constants.

(** The width of [std::size_t] and of [Grid::size_type], the size of a
    [Splat], and the constants of [Marching] and [SplatTreeCL]: they come
    from the platform and from headers that are not part of the sources. *)
Variable size_digits grid_digits : Z.
Variable sizeofSplat : Z.
Variable MAX_DIMENSION_LOG2 MAX_LEVELS : Z.
Variable MAX_CELL_VERTICES MAX_CELL_INDICES : Z.

(** Conversion to [std::size_t], to [Grid::size_type], to [unsigned int]
    and to [int]. *)
Definition to_size (v : Z) : Z := v mod 2 ^ size_digits.
Definition to_grid (v : Z) : Z := v mod 2 ^ grid_digits.
Definition to_uint (v : Z) : Z := v mod 2 ^ 32.
Definition to_int (v : Z) : Z := (v + 2 ^ 31) mod 2 ^ 32 - 2 ^ 31.

(** [getMeshMemoryCells] (lines 359-365). *)
Definition getMeshMemoryCells (vm : t) : Z :=
  let maxCells :=
    to_size (to_grid (to_grid (Z.shiftl 1 (levels vm + subsampling vm - 1)) - 1)) in
  to_size (to_size (maxCells * maxCells) * 2).

(** [getMeshHostMemory] (lines 372-378); [cl_float] and [cl_uint] have
    four bytes, [cl_ulong] has eight. *)
Definition getMeshHostMemory (vm : t) : Z :=
  let scale :=
    to_size (to_size (MAX_CELL_VERTICES * to_size (3 * 4 + 8))
             + to_size (MAX_CELL_INDICES * 4)) in
  to_size (getMeshMemoryCells vm * scale).

(** [getMaxHostSplats], [getMaxLoadSplats] and [getMaxBucketSplats] (lines
    380-396). *)
Definition getMaxHostSplats (vm : t) : Z := memHostSplats vm / sizeofSplat.
Definition getMaxLoadSplats (vm : t) : Z := memLoadSplats vm / sizeofSplat.
Definition getMaxBucketSplats (vm : t) : Z := memBucketSplats vm / sizeofSplat.

(** [validateOptions(vm, isMPI)] (lines 398-457).  [maxSplit] is read as
    an [int] and kept in a [std::size_t]; [maxLevels] is the least of two
    [std::size_t] values, kept in an [int]. *)
Definition validateOptions (vm : t) (isMPI : bool) : validation :=
  let maxBucketSplats := getMaxBucketSplats vm in
  let maxLoadSplats := getMaxLoadSplats vm in
  let maxHostSplats := getMaxHostSplats vm in
  let maxSplit := to_size (maxSplit vm) in
  let maxLevels :=
    to_int (Z.min (to_size (MAX_DIMENSION_LOG2 + 1)) (to_size MAX_LEVELS)) in
  if (levels vm <? 1) || (maxLevels <? levels vm) then
    Invalid LevelsOutOfRange
  else if subsampling vm <? subsamplingMin then Invalid SubsamplingTooSmall
  else if maxBucketSplats <? 1 then Invalid BucketSplatsNotPositive
  else if maxLoadSplats <? maxBucketSplats then Invalid LoadSplatsTooSmall
  else if maxHostSplats <? maxBucketSplats then Invalid HostSplatsTooSmall
  else if maxSplit <? 8 then Invalid MaxSplitTooSmall
  else if MAX_DIMENSION_LOG2 + 1 - levels vm <? subsampling vm then
    Invalid SumTooLarge
  else
    let treeVerts :=
      to_size (Z.shiftl 1 (subsampling vm + levels vm - 1)) in
    let '(wgs0, wgs1, _) := wgs in
    if (treeVerts <? wgs0) || (treeVerts <? wgs1) then Invalid SumTooSmall
    else if deviceThreads vm <? 1 then Invalid DeviceThreadsTooSmall
    else if negb (fitPruneInRange vm) then Invalid FitPruneOutOfRange
    else if memMesh vm <? getMeshHostMemory vm then Invalid MemMeshTooSmall
    else if isMPI && (memGather vm <? getMeshHostMemory vm) then
      Invalid MemGatherTooSmall
    else Valid.

(** The arguments [doBucket] computes for [Bucket::bucket] (lines
    666-674): [maxBucketSplats], [blockCells], [microCells] and
    [maxSplit]. *)
Definition blockCells (vm : t) : Z :=
  let block := to_uint (Z.shiftl 1 (levels vm + subsampling vm - 1)) in
  to_uint (block - 1).

Definition microCells (vm : t) : Z :=
  Z.min (to_uint (leafCells vm)) (blockCells vm).

Definition bucketArguments (vm : t) : Z * Z * Z * Z :=
  (getMaxBucketSplats vm, blockCells vm, microCells vm, to_size (maxSplit vm)).

End Constants.

(** The options with another value of [--max-split]. *)
Definition withMaxSplit (vm : t) (m : Z) : t :=
  mk (levels vm) (subsampling vm) m (deviceThreads vm) (leafCells vm)
     (memBucketSplats vm) (memLoadSplats vm) (memHostSplats vm)
     (memMesh vm) (memGather vm) (fitPruneInRange vm).

(** The defaults of the options (lines 84-139). *)
Definition defaults : t :=
  mk 6 3 (1024 * 1024 * 1024) 1 63
     (64 * 1024 * 1024) (256 * 1024 * 1024) (512 * 1024 * 1024)
     (512 * 1024 * 1024) (512 * 1024 * 1024) true.

End Options.

(** ** TestBucket::validate (test_bucket.cpp) *)

Module Validate.

Import Bucketer.

(** Unsigned 64-bit arithmetic: [Range::index_type], the type of the
    test's counter [numSplats] and of the sum [prev.start + prev.size]. *)
Definition wrap64 (v : Z) : Z := v mod 2 ^ 64.

(** The loop over the ranges of a block (lines 705-736) with its
    assertions on the ranges themselves: [numSplats += range.size], the
    assertion [range.size > 0] and, from the second range on, the
    assertion on the neighbour [prev].  The result is the sum, or [None]
    when an assertion fails.  The inner loop over the splats of a range
    (lines 719-735) computes with the floating-point positions and radii
    of the splats and is not part of this model. *)
Fixpoint rangesLoop (prev : option Range.t) (ranges : list Range.t)
    (numSplats : Z) : option Z :=
  match ranges with
  | [] => Some numSplats
  | range :: rest =>
      let numSplats := wrap64 (numSplats + Range.size range) in
      if (0 <? Range.size range)
         && match prev with
            | None => true
            | Some prev =>
                (Range.scan prev <? Range.scan range)
                || ((Range.scan range =? Range.scan prev)
                    && (wrap64 (Range.start prev + Range.size prev)
                        <? Range.start range))
            end
      then rangesLoop (Some range) rest numSplats
      else None
  end.

(** The assertions on one block: the bounds (lines 673-677), the sub-grid
    test (lines 683-686), the loop over the ranges and the splat count
    (line 737).  Reference point and spacing are shared by all grids of
    the model, so the equalities asserted on them (lines 679 and 682) hold
    by construction. *)
Definition checkBlock (fullGrid : grid) (maxSplats maxCells : Z)
    (block : Bucket) : bool :=
  let '(cx, cy, cz) := numCells (bgrid block) in
  let '(fx, fy, fz) := fullGrid in
  let '(ex, ey, ez) := bgrid block in
  (numSplats block <=? maxSplats)
  && (cx <=? maxCells) && (cy <=? maxCells) && (cz <=? maxCells)
  && (0 <? numSplats block)
  && (fst fx <=? fst ex) && (snd ex <=? snd fx)
  && (fst fy <=? fst ey) && (snd ey <=? snd fy)
  && (fst fz <=? fst ez) && (snd ez <=? snd fz)
  && match rangesLoop None (ranges block) 0 with
     | Some n => n =? numSplats block
     | None => false
     end.

(** "Check that the blocks do not overlap" (lines 741-745). *)
Fixpoint noOverlap (blocks : list Bucket) : bool :=
  match blocks with
  | [] => true
  | b1 :: rest =>
      forallb (fun b2 => negb (gridsIntersect (bgrid b1) (bgrid b2))) rest
      && noOverlap rest
  end.

(** The assertions of [validate] on the blocks, their ranges and their
    grids; the comparison of intersection areas (lines 747-757) is
    floating-point and is left out. *)
Definition validate (fullGrid : grid) (blocks : list Bucket)
    (maxSplats maxCells : Z) : bool :=
  forallb (checkBlock fullGrid maxSplats maxCells) blocks && noOverlap blocks.

End Validate.

(** TestRange: the assertions of the repository's tests that pin down the
    model of [Range::append]. *)
Example testAppendEmpty :
  Range.append Range.empty 3 6 = (true, Range.mk 3 1 6).
Proof. reflexivity. Qed.

Example testAppendOverflow :
  let r := Range.mk 3 0xFFFFFFFF 0x90000000 in
  Range.append r 3 (0x90000000 + 0xFFFFFFFF) = (false, r).
Proof. reflexivity. Qed.

Example testAppendMiddle :
  let r := Range.mk 4 0x10000 0x123456781234 in
  Range.append r 4 0x12345678FFFF = (true, r).
Proof. reflexivity. Qed.

Example testAppendEnd :
  let r := Range.mk 4 0x10000 0x123456781234 in
  Range.append r 4 (0x123456781234 + 0x10000)
  = (true, Range.mk 4 0x10001 0x123456781234).
Proof. reflexivity. Qed.

Example testAppendGap :
  let r := Range.mk 4 0x10000 0x123456781234 in
  Range.append r 4 (0x123456781234 + 0x10000 + 1) = (false, r).
Proof. reflexivity. Qed.

Example testAppendNewScan :
  let r := Range.mk 4 0x10000 0x123456781234 in
  Range.append r 5 (0x123456781234 + 0x10000) = (false, r).
Proof. reflexivity. Qed.

Example testConstructor_overflow :
  Range.make 2 0xFFFFFFFFFFFFFFF0 0x10 = Ret (Range.mk 2 0x10 0xFFFFFFFFFFFFFFF0)
  /\ Range.make 2 0xFFFFFFFFFFFFFFF0 0x11 = Throw OutOfRange.
Proof. split; reflexivity. Qed.

(** TestNode and TestForEachNode: the model of [Node] and [forEachNode]
    reproduces what the repository's tests assert. *)
Example testChild :
  Node.child (Node.mk 1 2 3 4) 0 = Ret (Node.mk 2 4 6 3)
  /\ Node.child (Node.mk 1 2 3 4) 1 = Ret (Node.mk 3 4 6 3)
  /\ Node.child (Node.mk 1 2 3 4) 2 = Ret (Node.mk 2 5 6 3)
  /\ Node.child (Node.mk 1 2 3 4) 7 = Ret (Node.mk 3 5 7 3)
  /\ Node.child (Node.mk 1 2 3 0) 0 = Throw InvalidArgument
  /\ Node.child (Node.mk 1 2 3 1) 8 = Throw InvalidArgument.
Proof. repeat split; reflexivity. Qed.

Example testToMicro :
  Node.toMicro (Node.mk 1 2 3 2) = ((4, 8, 12), (8, 12, 16))
  /\ Node.size (Node.mk 1 2 3 4) = 16.
Proof. split; reflexivity. Qed.

Example testForEachNode_simple :
  ForEachNode.forEachNode (2 ^ 31) (4, 4, 6) 4 ForEachNode.nodeFunc []
  = Ret [ Node.mk 0 0 0 3; Node.mk 0 0 0 2; Node.mk 0 0 1 2;
          Node.mk 0 0 2 1; Node.mk 1 0 2 1;
          Node.mk 2 0 4 0; Node.mk 3 0 4 0; Node.mk 2 1 4 0; Node.mk 3 1 4 0;
          Node.mk 2 0 5 0; Node.mk 3 0 5 0; Node.mk 2 1 5 0; Node.mk 3 1 5 0;
          Node.mk 0 1 2 1; Node.mk 1 1 2 1 ].
Proof. vm_compute. reflexivity. Qed.

Example testForEachNode_asserts :
  ForEachNode.forEachNode (2 ^ 31) (4, 4, 6) 100 ForEachNode.dummyNodeFunc tt
  = Throw InvalidArgument
  /\ ForEachNode.forEachNode (2 ^ 31) (4, 4, 6) 0 ForEachNode.dummyNodeFunc tt
     = Throw InvalidArgument
  /\ ForEachNode.forEachNode (2 ^ 31) (4, 4, 6) 3 ForEachNode.dummyNodeFunc tt
     = Throw InvalidArgument.
Proof. repeat split; reflexivity. Qed.

(** * Properties *)

(** ** Range and RangeCollector *)

(** C5 as the specification words it fails: the call of
    TestRange::testAppendMiddle returns true although the index is not
    [start + size]. *)
Lemma Range_append_middle_accepted :
  let r := Range.mk 4 0x10000 0x123456781234 in
  fst (Range.append r 4 0x12345678FFFF) = true
  /\ ~ (4 = Range.scan r
        /\ 0x12345678FFFF = Range.start r + Range.size r
        /\ Range.size r < Range.size_max).
Proof.
  cbn. split; [reflexivity|]. intros (_ & H & _). discriminate H.
Qed.

(** C5, amended: [append(s, i)] on a range [(scan, start, size)] returns
    true exactly when the range is empty, or [s = scan], [i = start + size]
    and [size < 2^32 - 1] (the range grows by one), or [s = scan] and
    [start <= i < start + size] (the element is already covered and the
    range stays as it is); when it returns false the range is unchanged;
    and appending to an empty range succeeds and makes it [(s, i, 1)]. *)
Theorem Range_append_true_iff (r : Range.t) (s i : Z) :
  (fst (Range.append r s i) = true <->
     Range.size r = 0
     \/ (s = Range.scan r /\ i = Range.start r + Range.size r
         /\ Range.size r < Range.size_max)
     \/ (s = Range.scan r /\ Range.start r <= i < Range.start r + Range.size r))
  /\ (fst (Range.append r s i) = false -> snd (Range.append r s i) = r)
  /\ (Range.size r = 0 -> Range.append r s i = (true, Range.mk s 1 i))
  /\ (s = Range.scan r -> i = Range.start r + Range.size r ->
      0 < Range.size r < Range.size_max ->
      Range.append r s i
      = (true, Range.mk (Range.scan r) (Range.size r + 1) (Range.start r)))
  /\ (s = Range.scan r ->
      Range.start r <= i < Range.start r + Range.size r ->
      Range.append r s i = (true, r)).
Proof.
  unfold Range.append.
  destruct (Z.eqb_spec (Range.size r) 0) as [E0|N0]; cbn [fst snd].
  { repeat split; auto. all: intros; lia. }
  destruct (Z.eqb_spec s (Range.scan r)) as [Es|Ns];
    destruct (Z.eqb_spec i (Range.start r + Range.size r)) as [Ei|Ni];
    destruct (Z.ltb_spec (Range.size r) Range.size_max) as [Lt|Ge];
    destruct (Z.leb_spec (Range.start r) i) as [Lo|Lo];
    destruct (Z.ltb_spec i (Range.start r + Range.size r)) as [Hi|Hi];
    cbn [andb fst snd];
    (split; [split; [intros _|intros _; reflexivity] | ])
    || (split; [split; [intros ?; discriminate | intros [?|[?|?]]; lia] | ]).
  all: try lia.
  all: try (right; left; lia).
  all: try (right; right; lia).
  all: repeat split; intros; try reflexivity; try discriminate; try lia.
Qed.

(** C8: the sequence of TestRangeCollector::testSimple, appended to a fresh
    collector which is then flushed or destroyed, emits exactly the four
    ranges (3,5,2), (4,0x123456781234,1), (5,2,1), (5,4,2), in that order. *)
Theorem RangeCollector_testSimple :
  let ids := [(3, 5); (3, 6); (3, 6); (4, 0x123456781234);
              (5, 2); (5, 4); (5, 5)] in
  let c := RangeCollector.appendAll (RangeCollector.init []) ids in
  let expected := [ Range.mk 3 2 5; Range.mk 4 1 0x123456781234;
                    Range.mk 5 1 2; Range.mk 5 2 4 ] in
  RangeCollector.out (RangeCollector.flush c) = expected
  /\ RangeCollector.destroy c = expected.
Proof. split; vm_compute; reflexivity. Qed.

(** ** forEachNode *)

Section ForEachNodeFacts.

Context {S : Type}.
Variable dims : Z * Z * Z.
Variable visit : Node.t -> S -> bool * S.

Lemma child_level (n c : Node.t) (k : Z) :
  Node.child n k = Ret c -> Node.level c = (Node.level n - 1)%nat.
Proof.
  unfold Node.child, MLSGPU_ASSERT.
  destruct (_ && _); cbn; intros H; inversion H; reflexivity.
Qed.

Lemma child_defined (n : Node.t) (k : Z) :
  (0 < Node.level n)%nat -> k < 8 -> exists c, Node.child n k = Ret c.
Proof.
  intros Hl Hk. unfold Node.child, MLSGPU_ASSERT.
  destruct (Z.ltb_spec 0 (Z.of_nat (Node.level n))); [|lia].
  destruct (Z.ltb_spec k 8); [|lia]. cbn. eauto.
Qed.

Lemma foldM_returns {A : Type} (f : S -> A -> outcome S) (P : A -> Prop)
    (l : list A) :
  (forall a s, P a -> exists s', f s a = Ret s') ->
  Forall P l ->
  forall s, exists s', ForEachNode.foldM f l s = Ret s'.
Proof.
  intros Hf Hl. induction Hl as [|a l Pa _ IH]; intros s; cbn [ForEachNode.foldM].
  - eauto.
  - destruct (Hf a s Pa) as [s1 E]. rewrite E. apply IH.
Qed.

(** The traversal below a node whose level is the depth bound never throws
    and never exhausts the bound. *)
Lemma walk_returns (depth : nat) :
  forall (n : Node.t) (s : S),
    Node.level n = depth ->
    exists s', ForEachNode.walk dims visit depth n s = Ret s'.
Proof.
  induction depth as [|d IH]; intros n s Hl; cbn [ForEachNode.walk];
    destruct (visit n s) as [descend s1]; rewrite Hl.
  - rewrite andb_false_r. eauto.
  - destruct descend; cbn [andb]; [|eauto].
    change (0 <? Z.of_nat (Datatypes.S d)) with true. cbv iota.
    apply foldM_returns with (P := fun k => k < 8).
    + intros k s0 Hk.
      destruct (child_defined n k) as [c Hc]; [lia|exact Hk|].
      rewrite Hc. cbn [mbind outcome_bind bind].
      destruct (ForEachNode.inside dims c); [|eauto].
      apply IH. rewrite (child_level _ _ _ Hc). lia.
    + repeat constructor.
Qed.

Lemma child_childNode (n : Node.t) (k : Z) :
  (0 < Node.level n)%nat -> k < 8 ->
  Node.child n k = Ret (ForEachNode.childNode n k).
Proof.
  intros Hl Hk. unfold Node.child, MLSGPU_ASSERT.
  destruct (Z.ltb_spec 0 (Z.of_nat (Node.level n))); [|lia].
  destruct (Z.ltb_spec k 8); [|lia]. reflexivity.
Qed.

Lemma foldM_app_bind {A : Type} (f : S -> A -> outcome S)
    (g : S -> A -> S) (l : list A) :
  (forall a s, a ∈ l -> f s a = Ret (g s a)) ->
  forall s, ForEachNode.foldM f l s = Ret (fold_left g l s).
Proof.
  induction l as [|a l IH]; intros Hf s; cbn [ForEachNode.foldM fold_left];
    [reflexivity|].
  rewrite Hf by left. cbn [mbind outcome_bind bind].
  apply IH. intros a' s' Ha'. apply Hf. right. exact Ha'.
Qed.

Lemma fold_left_bind {A B : Type} (upd : S -> B -> S) (h : A -> list B)
    (l : list A) : forall s,
  fold_left (fun s a => fold_left upd (h a) s) l s
  = fold_left upd (l ≫= h) s.
Proof.
  induction l as [|a l IH]; intros s; [reflexivity|].
  rewrite bind_cons, fold_left_app. cbn [fold_left]. apply IH.
Qed.

(** A traversal whose visit decides to descend by the node alone folds its
    state update over the nodes of [subtree]. *)
Lemma walk_subtree (descend : Node.t -> bool) (upd : S -> Node.t -> S) :
  (forall n s, visit n s = (descend n, upd s n)) ->
  forall depth n s,
    Node.level n = depth ->
    ForEachNode.walk dims visit depth n s
    = Ret (fold_left upd (ForEachNode.subtree dims descend depth n) s).
Proof.
  intros Hv. induction depth as [|d IH]; intros n s Hl;
    cbn [ForEachNode.walk ForEachNode.subtree]; rewrite Hv, Hl.
  - rewrite andb_false_r. reflexivity.
  - destruct (descend n); cbn [andb]; [|reflexivity].
    change (0 <? Z.of_nat (Datatypes.S d)) with true. cbv iota.
    cbn [fold_left].
    rewrite <- (fold_left_bind upd
                  (fun k => if ForEachNode.inside dims (ForEachNode.childNode n k)
                            then ForEachNode.subtree dims descend d
                                   (ForEachNode.childNode n k)
                            else [])).
    apply foldM_app_bind. intros k s0 Hk.
    assert (k < 8) as Hk8.
    { repeat (apply elem_of_cons in Hk as [->|Hk]; [lia|]). inversion Hk. }
    rewrite child_childNode by lia. cbn [mbind outcome_bind bind].
    destruct (ForEachNode.inside dims (ForEachNode.childNode n k)); [|reflexivity].
    apply IH. cbn. lia.
Qed.

End ForEachNodeFacts.

(** C7 as the specification words it fails: the region of
    TestForEachNode::testAsserts with three levels satisfies the worded
    precondition ([2^3 >= 6]) and is rejected all the same. *)
Lemma forEachNode_rejects_three_levels :
  ForEachNode.precondition_spec (2 ^ 31) (4, 4, 6) 3
  /\ ForEachNode.forEachNode (2 ^ 31) (4, 4, 6) 3 ForEachNode.dummyNodeFunc tt
     = Throw InvalidArgument.
Proof.
  split; [|reflexivity].
  unfold ForEachNode.precondition_spec.
  change (Z.log2 (2 ^ 31)) with 31.
  change (ForEachNode.max3 (4, 4, 6)) with 6. lia.
Qed.

(** C7, amended: with [levels] the number of levels (the root sits at
    level [levels - 1]), forEachNode reports invalid-argument exactly when
    [0 < levels <= floor(log2(MAX_DIM))] and [2^(levels-1) >= max(micro)]
    do not both hold; when they hold the traversal returns, without
    raising anything. *)
Theorem forEachNode_invalid_argument_iff {S : Type} (MAX_DIM : Z)
    (dims : Z * Z * Z) (levels : Z) (visit : Node.t -> S -> bool * S) (s : S) :
  (ForEachNode.forEachNode MAX_DIM dims levels visit s = Throw InvalidArgument
   <-> ~ ForEachNode.precondition MAX_DIM dims levels)
  /\ (ForEachNode.precondition MAX_DIM dims levels ->
      exists s', ForEachNode.forEachNode MAX_DIM dims levels visit s = Ret s').
Proof.
  unfold ForEachNode.forEachNode, ForEachNode.precondition, MLSGPU_ASSERT.
  destruct (Z.leb_spec 1 levels) as [H1|H1]; cbn [andb].
  2: { cbn [mbind outcome_bind bind].
       split; [split; [intros _ [? _]; lia|reflexivity]|intros [? _]; lia]. }
  destruct (Z.leb_spec levels (Z.log2 MAX_DIM)) as [H2|H2];
    cbn [mbind outcome_bind bind].
  2: { split; [split; [intros _ [? _]; lia|reflexivity]|intros [? _]; lia]. }
  rewrite Z.shiftl_1_l.
  destruct (Z.leb_spec (ForEachNode.max3 dims) (2 ^ (levels - 1))) as [H3|H3];
    cbn [mbind outcome_bind bind].
  2: { split; [split; [intros _ [_ ?]; lia|reflexivity]|intros [_ ?]; lia]. }
  destruct (walk_returns dims visit (Z.to_nat (levels - 1))
              (Node.mk 0 0 0 (Z.to_nat (levels - 1))) s eq_refl) as [s' E].
  rewrite E. split; [split; [discriminate|]|eauto].
  intros H. exfalso. apply H. split; lia.
Qed.

Lemma forEachNode_invalid_argument_iff_witness :
  ForEachNode.precondition (2 ^ 31) (4, 4, 6) 4
  /\ exists s', ForEachNode.forEachNode (2 ^ 31) (4, 4, 6) 4
                  ForEachNode.nodeFunc [] = Ret s'.
Proof.
  assert (H : ForEachNode.precondition (2 ^ 31) (4, 4, 6) 4).
  { unfold ForEachNode.precondition.
    change (Z.log2 (2 ^ 31)) with 31.
    change (ForEachNode.max3 (4, 4, 6)) with 6. lia. }
  split; [exact H|].
  exact (proj2 (forEachNode_invalid_argument_iff (2 ^ 31) (4, 4, 6) 4
                  ForEachNode.nodeFunc []) H).
Defined.

(** ** makeCode *)

Section MakeCodeFacts.

Import SplatTree.

Lemma bitlen_nonneg v : 0 <= bitlen v.
Proof.
  unfold bitlen. destruct (Z.leb_spec v 0); [lia|].
  pose proof (Z.log2_nonneg v). lia.
Qed.

Lemma bitlen_zero v : 0 <= v -> (bitlen v = 0 <-> v = 0).
Proof.
  intros Hv. unfold bitlen. destruct (Z.leb_spec v 0).
  - split; intros; lia.
  - pose proof (Z.log2_nonneg v). split; intros; lia.
Qed.

Lemma bitlen_half v : 0 < v -> bitlen (v / 2) = bitlen v - 1.
Proof.
  intros Hv. unfold bitlen.
  destruct (Z.leb_spec v 0); [lia|].
  destruct (Z.leb_spec (v / 2) 0) as [H0|H0].
  - assert (v = 1) by (Z.div_mod_to_equations; lia). subst v. reflexivity.
  - change 2 with (2 ^ 1) at 1. rewrite <- Z.shiftr_div_pow2 by lia.
    rewrite Z.log2_shiftr by lia.
    assert (1 <= Z.log2 v).
    { apply Z.log2_le_pow2; [lia|]. cbn. Z.div_mod_to_equations; lia. }
    lia.
Qed.

Lemma bitlen_bound v n : 0 <= v -> 0 <= n -> (bitlen v <= n <-> v < 2 ^ n).
Proof.
  intros Hv Hn. unfold bitlen. destruct (Z.leb_spec v 0).
  - assert (v = 0) by lia. subst. pose proof (Z.pow_pos_nonneg 2 n). lia.
  - rewrite Z.log2_lt_pow2 by lia. lia.
Qed.

Lemma max3_zero x y z :
  0 <= x -> 0 <= y -> 0 <= z ->
  ((x =? 0) && (y =? 0) && (z =? 0) = true <-> max3 x y z = 0).
Proof.
  intros. unfold max3. rewrite !andb_true_iff, !Z.eqb_eq. lia.
Qed.

Lemma max3_half x y z :
  max3 (x / 2) (y / 2) (z / 2) = max3 x y z / 2.
Proof.
  unfold max3. Z.div_mod_to_equations. lia.
Qed.

Lemma max3_nonneg x y z : 0 <= x -> 0 <= max3 x y z.
Proof. unfold max3. lia. Qed.

Lemma digit_value x y z :
  wrap uint_digits
       (Z.land x 1 + Z.shiftl (Z.land y 1) 1 + Z.shiftl (Z.land z 1) 2)
  = x mod 2 + 2 * (y mod 2) + 4 * (z mod 2).
Proof.
  change 1 with (Z.ones 1) at 1 2 4. rewrite !Z.land_ones by lia.
  rewrite !Z.shiftl_mul_pow2 by lia. change (2 ^ 1) with 2. change (2 ^ 2) with 4.
  unfold wrap, uint_digits. rewrite Z.mod_small; [lia|].
  pose proof (Z.mod_pos_bound x 2). pose proof (Z.mod_pos_bound y 2).
  pose proof (Z.mod_pos_bound z 2). lia.
Qed.

Lemma interleave_bits_bound n : forall x y z,
  0 <= interleave_bits n x y z < 2 ^ (3 * Z.of_nat n).
Proof.
  induction n as [|n IH]; intros x y z; cbn [interleave_bits].
  - cbn. lia.
  - specialize (IH (x / 2) (y / 2) (z / 2)).
    replace (3 * Z.of_nat (S n)) with (3 + 3 * Z.of_nat n) by lia.
    rewrite Z.pow_add_r by lia. change (2 ^ 3) with 8.
    pose proof (Z.mod_pos_bound x 2). pose proof (Z.mod_pos_bound y 2).
    pose proof (Z.mod_pos_bound z 2). lia.
Qed.

(** The loop of [makeCode]: it returns when the fuel covers the bit length,
    its final [shift] is three times the bit length further, and as long as
    that stays within [unsigned int] and [size_type], [ans] has gained the
    interleaving, unreduced. *)
Lemma makeCode_loop_spec digits fuel : forall x y z shift ans,
  0 <= x -> 0 <= y -> 0 <= z ->
  bitlen (max3 x y z) <= Z.of_nat fuel -> 0 <= shift ->
  exists a,
    makeCode_loop digits fuel x y z shift ans
    = Ret (shift + 3 * bitlen (max3 x y z), a)
    /\ (shift + 3 * bitlen (max3 x y z) <= uint_digits ->
        shift + 3 * bitlen (max3 x y z) <= digits ->
        0 <= ans < 2 ^ shift ->
        a = ans + 2 ^ shift * interleave x y z).
Proof.
  unfold interleave.
  induction fuel as [|fuel IH]; intros x y z shift ans Hx Hy Hz Hfuel Hs;
    cbn [makeCode_loop];
    destruct ((x =? 0) && (y =? 0) && (z =? 0)) eqn:E.
  1,3: apply max3_zero in E; [|lia..]; rewrite E; change (bitlen 0) with 0;
       exists ans; split; [f_equal; f_equal; lia |
        change (Z.to_nat 0) with 0%nat; cbn [interleave_bits]; intros; lia].
  - exfalso. pose proof (max3_nonneg x y z Hx).
    assert (max3 x y z <> 0) by (rewrite <- max3_zero, E by lia; discriminate).
    assert (bitlen (max3 x y z) = 0) as Hb0
        by (pose proof (bitlen_nonneg (max3 x y z)); lia).
    apply (proj1 (bitlen_zero _ H)) in Hb0. lia.
  - pose proof (max3_nonneg x y z Hx) as HM.
    assert (max3 x y z <> 0) as HM0
        by (rewrite <- max3_zero, E by lia; discriminate).
    rewrite digit_value. rewrite !Z.shiftr_div_pow2 by lia. change (2 ^ 1) with 2.
    set (d := x mod 2 + 2 * (y mod 2) + 4 * (z mod 2)).
    assert (0 <= d < 8) as Hd.
    { subst d. pose proof (Z.mod_pos_bound x 2). pose proof (Z.mod_pos_bound y 2).
      pose proof (Z.mod_pos_bound z 2). lia. }
    pose proof (bitlen_half (max3 x y z) ltac:(lia)) as Hhalf.
    rewrite <- max3_half in Hhalf.
    destruct (IH (x / 2) (y / 2) (z / 2) (shift + 3)
                 (wrap digits (ans + wrap uint_digits (Z.shiftl d shift))))
      as (a & Ea & Hval).
    1-3: apply Z.div_pos; lia.
    1-2: lia.
    exists a. split.
    + rewrite Ea. f_equal. f_equal. lia.
    + intros H32 Hdig Hans.
      assert (bitlen (max3 x y z) >= 1) as Hb1.
      { pose proof (bitlen_nonneg (max3 (x / 2) (y / 2) (z / 2))). lia. }
      assert (2 ^ (shift + 3) = 8 * 2 ^ shift) as Hpow
          by (rewrite Z.pow_add_r by lia; change (2 ^ 3) with 8; lia).
      assert (2 ^ (shift + 3) <= 2 ^ uint_digits) as Hle32
          by (apply Z.pow_le_mono_r; lia).
      assert (2 ^ (shift + 3) <= 2 ^ digits) as Hled
          by (apply Z.pow_le_mono_r; lia).
      assert (Z.shiftl d shift = d * 2 ^ shift) as Hsh
          by (apply Z.shiftl_mul_pow2; lia).
      assert (0 < 2 ^ shift) by (apply Z.pow_pos_nonneg; lia).
      assert (wrap uint_digits (Z.shiftl d shift) = d * 2 ^ shift) as Hw1.
      { unfold wrap. rewrite Hsh. apply Z.mod_small. nia. }
      assert (wrap digits (ans + wrap uint_digits (Z.shiftl d shift))
              = ans + d * 2 ^ shift) as Hw2.
      { rewrite Hw1. unfold wrap. apply Z.mod_small. nia. }
      rewrite Hval; [| lia | lia | rewrite Hw2; nia].
      rewrite Hw2, Hpow.
      replace (Z.to_nat (bitlen (max3 x y z)))
        with (S (Z.to_nat (bitlen (max3 (x / 2) (y / 2) (z / 2))))) by lia.
      cbn [interleave_bits]. fold d. lia.
Qed.

Lemma testbit0_mod2 x : Z.testbit x 0 = (x mod 2 =? 1).
Proof.
  pose proof (Z.bit0_mod x) as H. pose proof (Z.mod_pos_bound x 2).
  destruct (Z.testbit x 0); cbn in H; rewrite <- H; reflexivity.
Qed.

Lemma testbit_digit_low d m i :
  0 <= d < 8 -> 0 <= i < 3 -> Z.testbit (d + 8 * m) i = Z.testbit d i.
Proof.
  intros Hd Hi. rewrite <- (Z.mod_pow2_bits_low (d + 8 * m) 3 i) by lia.
  f_equal. change (2 ^ 3) with 8. Z.div_mod_to_equations. lia.
Qed.

Lemma testbit_digit_high d m j :
  0 <= d < 8 -> 3 <= j -> Z.testbit (d + 8 * m) j = Z.testbit m (j - 3).
Proof.
  intros Hd Hj. replace j with ((j - 3) + 3) at 1 by lia.
  rewrite <- Z.div_pow2_bits by lia. f_equal.
  change (2 ^ 3) with 8. Z.div_mod_to_equations. lia.
Qed.

Lemma testbit_half x k : 0 <= k -> Z.testbit (x / 2) k = Z.testbit x (k + 1).
Proof.
  intros Hk. change 2 with (2 ^ 1). apply Z.div_pow2_bits; lia.
Qed.

Lemma digit_bits x y z :
  let d := x mod 2 + 2 * (y mod 2) + 4 * (z mod 2) in
  Z.testbit d 0 = Z.testbit x 0 /\ Z.testbit d 1 = Z.testbit y 0
  /\ Z.testbit d 2 = Z.testbit z 0.
Proof.
  intros d. subst d. rewrite !(testbit0_mod2 x), !(testbit0_mod2 y), !(testbit0_mod2 z).
  pose proof (Z.mod_pos_bound x 2 ltac:(lia)) as Hx.
  pose proof (Z.mod_pos_bound y 2 ltac:(lia)) as Hy.
  pose proof (Z.mod_pos_bound z 2 ltac:(lia)) as Hz.
  assert (x mod 2 = 0 \/ x mod 2 = 1) as [-> | ->] by lia;
    assert (y mod 2 = 0 \/ y mod 2 = 1) as [-> | ->] by lia;
    assert (z mod 2 = 0 \/ z mod 2 = 1) as [-> | ->] by lia;
    repeat split; reflexivity.
Qed.

(** Bit [3k + i] of the interleaving of the low [n] bits is bit [k] of the
    [i]-th coordinate when [k < n], and clear otherwise. *)
Lemma interleave_bits_testbit n : forall x y z k,
  0 <= k ->
  Z.testbit (interleave_bits n x y z) (3 * k)
  = (k <? Z.of_nat n) && Z.testbit x k
  /\ Z.testbit (interleave_bits n x y z) (3 * k + 1)
     = (k <? Z.of_nat n) && Z.testbit y k
  /\ Z.testbit (interleave_bits n x y z) (3 * k + 2)
     = (k <? Z.of_nat n) && Z.testbit z k.
Proof.
  induction n as [|n IH]; intros x y z k Hk; cbn [interleave_bits].
  - rewrite !Z.testbit_0_l.
    destruct (Z.ltb_spec k (Z.of_nat 0)); [lia|]. auto.
  - set (d := x mod 2 + 2 * (y mod 2) + 4 * (z mod 2)).
    assert (0 <= d < 8) as Hd.
    { subst d. pose proof (Z.mod_pos_bound x 2). pose proof (Z.mod_pos_bound y 2).
      pose proof (Z.mod_pos_bound z 2). lia. }
    destruct (digit_bits x y z) as (Dx & Dy & Dz). fold d in Dx, Dy, Dz.
    destruct (Z.eq_dec k 0) as [->|Hk0].
    + change (3 * 0) with 0. change (0 + 1) with 1. change (0 + 2) with 2.
      rewrite !testbit_digit_low by lia.
      destruct (Z.ltb_spec 0 (Z.of_nat (S n))); [|lia]. cbn [andb]. auto.
    + rewrite !testbit_digit_high by lia.
      destruct (IH (x / 2) (y / 2) (z / 2) (k - 1) ltac:(lia)) as (Ix & Iy & Iz).
      replace (3 * k - 3) with (3 * (k - 1)) by lia.
      replace (3 * k + 1 - 3) with (3 * (k - 1) + 1) by lia.
      replace (3 * k + 2 - 3) with (3 * (k - 1) + 2) by lia.
      rewrite Ix, Iy, Iz, !testbit_half by lia.
      replace (k - 1 + 1) with k by lia.
      replace (k - 1 <? Z.of_nat n) with (k <? Z.of_nat (S n)); [auto|].
      destruct (Z.ltb_spec k (Z.of_nat (S n))), (Z.ltb_spec (k - 1) (Z.of_nat n));
        auto; lia.
Qed.

Lemma testbit_above_bitlen v k :
  0 <= v -> bitlen v <= k -> Z.testbit v k = false.
Proof.
  intros Hv Hle. pose proof (bitlen_nonneg v).
  destruct (Z.eq_dec v 0) as [->|]; [apply Z.testbit_0_l|].
  apply Z.bits_above_log2; [lia|].
  unfold bitlen in Hle. destruct (Z.leb_spec v 0); lia.
Qed.

Lemma bitlen_mono a b : 0 <= a <= b -> bitlen a <= bitlen b.
Proof.
  intros H. unfold bitlen.
  destruct (Z.leb_spec a 0), (Z.leb_spec b 0); try lia.
  - pose proof (Z.log2_nonneg b). lia.
  - pose proof (Z.log2_le_mono a b). lia.
Qed.

(** All bits of the full interleaving. *)
Lemma interleave_testbit x y z k :
  0 <= x -> 0 <= y -> 0 <= z -> 0 <= k ->
  Z.testbit (interleave x y z) (3 * k) = Z.testbit x k
  /\ Z.testbit (interleave x y z) (3 * k + 1) = Z.testbit y k
  /\ Z.testbit (interleave x y z) (3 * k + 2) = Z.testbit z k.
Proof.
  intros Hx Hy Hz Hk. unfold interleave.
  destruct (interleave_bits_testbit
              (Z.to_nat (bitlen (max3 x y z))) x y z k Hk) as (Ix & Iy & Iz).
  rewrite Ix, Iy, Iz. pose proof (bitlen_nonneg (max3 x y z)).
  rewrite Z2Nat.id by lia.
  destruct (Z.ltb_spec k (bitlen (max3 x y z))) as [|Hge]; [auto|].
  cbn [andb].
  rewrite !testbit_above_bitlen; auto;
    (etransitivity; [apply bitlen_mono|exact Hge]); unfold max3; lia.
Qed.

(** What [makeCode] does on [size_type] arguments. *)
Lemma makeCode_spec digits x y z :
  0 <= x < 2 ^ digits -> 0 <= y < 2 ^ digits -> 0 <= z < 2 ^ digits ->
  0 < digits <= uint_digits ->
  makeCode digits x y z
  = if 3 * bitlen (max3 x y z) <? digits then Ret (interleave x y z)
    else Throw RangeError.
Proof.
  intros Hx Hy Hz Hd. unfold makeCode.
  destruct (makeCode_loop_spec digits (Z.to_nat digits) x y z 0 0)
    as (a & Ea & Hval); try lia.
  { rewrite Z2Nat.id by lia. apply bitlen_bound; unfold max3; lia. }
  rewrite Ea. cbn [mbind outcome_bind bind]. unfold MLSGPU_ASSERT.
  rewrite Z.add_0_l.
  destruct (Z.ltb_spec (3 * bitlen (max3 x y z)) digits) as [Hlt|Hge];
    cbn [mbind outcome_bind bind]; [|reflexivity].
  rewrite Hval; [f_equal; cbn; lia | lia | lia | cbn; lia].
Qed.

Lemma makeCode_valid digits x y z :
  0 < digits <= uint_digits -> valid digits x y z ->
  makeCode digits x y z = Ret (interleave x y z).
Proof.
  intros Hd (Hx & Hy & Hz & Hfit).
  pose proof (bitlen_nonneg (max3 x y z)) as Hb.
  assert (max3 x y z < 2 ^ digits) as HM.
  { apply bitlen_bound; [unfold max3; lia | lia | lia]. }
  rewrite makeCode_spec; try (unfold max3 in HM; lia).
  destruct (Z.ltb_spec (3 * bitlen (max3 x y z)) digits); [reflexivity | lia].
Qed.

Lemma interleave_inj x y z x' y' z' :
  0 <= x -> 0 <= y -> 0 <= z -> 0 <= x' -> 0 <= y' -> 0 <= z' ->
  interleave x y z = interleave x' y' z' -> x = x' /\ y = y' /\ z = z'.
Proof.
  intros Hx Hy Hz Hx' Hy' Hz' E.
  repeat split; apply Z.bits_inj'; intros k Hk;
    destruct (interleave_testbit x y z k Hx Hy Hz Hk) as (Bx & By & Bz);
    destruct (interleave_testbit x' y' z' k Hx' Hy' Hz' Hk) as (Bx' & By' & Bz');
    congruence.
Qed.

End MakeCodeFacts.

(** C6 as the specification words it fails: with a 32-bit [size_type] the
    interleaving of [(1024, 0, 0)] is [2 ^ 30] and fits [size_type], yet
    [makeCode] throws [std::range_error]: its loop ends with [shift = 33],
    and the check is on [shift], not on the code. *)
Lemma makeCode_rejects_fitting_code :
  SplatTree.interleave 1024 0 0 = 2 ^ 30
  /\ 0 <= SplatTree.interleave 1024 0 0 < 2 ^ 32
  /\ SplatTree.makeCode 32 1024 0 0 = Throw RangeError
  /\ ~ (exists c, SplatTree.makeCode 32 1024 0 0 = Ret c).
Proof.
  assert (SplatTree.makeCode 32 1024 0 0 = Throw RangeError) as E
    by (vm_compute; reflexivity).
  split; [vm_compute; reflexivity|].
  split; [split; vm_compute; [discriminate|reflexivity]|].
  split; [exact E|].
  intros (c & Ec). rewrite E in Ec. discriminate Ec.
Qed.

(** C6, amended: on coordinates that [makeCode]'s own check accepts, three
    times the bit length of the largest coordinate being below the width
    of [size_type], [makeCode(x, y, z)] returns the integer whose bit [3k]
    is bit [k] of [x], bit [3k+1] bit [k] of [y] and bit [3k+2] bit [k] of
    [z], for every [k]; hence [makeCode] is injective on such triples. *)
Theorem makeCode_interleaves_injective (digits : Z) :
  0 < digits <= SplatTree.uint_digits ->
  (forall x y z,
      SplatTree.valid digits x y z ->
      exists c,
        SplatTree.makeCode digits x y z = Ret c
        /\ forall k, 0 <= k ->
             Z.testbit c (3 * k) = Z.testbit x k
             /\ Z.testbit c (3 * k + 1) = Z.testbit y k
             /\ Z.testbit c (3 * k + 2) = Z.testbit z k)
  /\ (forall x y z x' y' z',
         SplatTree.valid digits x y z -> SplatTree.valid digits x' y' z' ->
         SplatTree.makeCode digits x y z = SplatTree.makeCode digits x' y' z' ->
         x = x' /\ y = y' /\ z = z').
Proof.
  intros Hd. split.
  - intros x y z Hv. exists (SplatTree.interleave x y z).
    split; [apply makeCode_valid; assumption|].
    destruct Hv as (Hx & Hy & Hz & _). intros k Hk.
    apply interleave_testbit; assumption.
  - intros x y z x' y' z' Hv Hv' E.
    rewrite (makeCode_valid _ _ _ _ Hd Hv), (makeCode_valid _ _ _ _ Hd Hv') in E.
    injection E as E.
    destruct Hv as (Hx & Hy & Hz & _), Hv' as (Hx' & Hy' & Hz' & _).
    apply interleave_inj; assumption.
Qed.

Lemma makeCode_interleaves_injective_witness :
  exists c,
    SplatTree.makeCode 32 5 3 6 = Ret c
    /\ forall k, 0 <= k ->
         Z.testbit c (3 * k) = Z.testbit 5 k
         /\ Z.testbit c (3 * k + 1) = Z.testbit 3 k
         /\ Z.testbit c (3 * k + 2) = Z.testbit 6 k.
Proof.
  apply (proj1 (makeCode_interleaves_injective 32
                  ltac:(unfold SplatTree.uint_digits; lia))).
  unfold SplatTree.valid. repeat split; lia.
Defined.

(** C9: on [size_type] arguments [makeCode] either returns or throws
    [std::range_error]; it throws exactly when three times the bit length
    of the largest coordinate reaches the width of [size_type]; and a
    returned code is the whole interleaving, with no bit lost. *)
Theorem makeCode_returns_or_range_error (digits x y z : Z) :
  0 < digits <= SplatTree.uint_digits ->
  0 <= x < 2 ^ digits -> 0 <= y < 2 ^ digits -> 0 <= z < 2 ^ digits ->
  (SplatTree.makeCode digits x y z = Throw RangeError
   \/ SplatTree.makeCode digits x y z = Ret (SplatTree.interleave x y z))
  /\ (SplatTree.makeCode digits x y z = Throw RangeError
      <-> digits <= 3 * SplatTree.bitlen (SplatTree.max3 x y z))
  /\ (forall c, SplatTree.makeCode digits x y z = Ret c ->
        c = SplatTree.interleave x y z
        /\ forall k, 0 <= k ->
             Z.testbit c (3 * k) = Z.testbit x k
             /\ Z.testbit c (3 * k + 1) = Z.testbit y k
             /\ Z.testbit c (3 * k + 2) = Z.testbit z k).
Proof.
  intros Hd Hx Hy Hz. rewrite makeCode_spec by assumption.
  destruct (Z.ltb_spec (3 * SplatTree.bitlen (SplatTree.max3 x y z)) digits)
    as [Hlt|Hge].
  - split; [right; reflexivity|]. split; [split; [discriminate|lia]|].
    intros c E. injection E as <-. split; [reflexivity|].
    intros k Hk. apply interleave_testbit; lia.
  - split; [left; reflexivity|]. split; [split; [lia|reflexivity]|].
    intros c E. discriminate E.
Qed.

Lemma makeCode_returns_or_range_error_witness :
  (SplatTree.makeCode 32 1024 0 0 = Throw RangeError
   <-> 32 <= 3 * SplatTree.bitlen (SplatTree.max3 1024 0 0))
  /\ (SplatTree.makeCode 32 1023 1023 1023 = Throw RangeError
      <-> 32 <= 3 * SplatTree.bitlen (SplatTree.max3 1023 1023 1023)).
Proof.
  split.
  - apply (makeCode_returns_or_range_error 32 1024 0 0);
      unfold SplatTree.uint_digits; lia.
  - apply (makeCode_returns_or_range_error 32 1023 1023 1023);
      unfold SplatTree.uint_digits; lia.
Defined.

(** ** Sorting, counting and the prefix sum *)

Section EntryLists.

Import SplatTree.

Variable digits : Z.
Hypothesis digits_pos : 0 < digits.

Lemma wrap_range v : 0 <= wrap digits v < 2 ^ digits.
Proof using digits_pos.
  unfold wrap. apply Z.mod_pos_bound. apply Z.pow_pos_nonneg; lia.
Qed.

Lemma wrap_small v : 0 <= v < 2 ^ digits -> wrap digits v = v.
Proof. unfold wrap. apply Z.mod_small. Qed.

Lemma wrap_add_l a b : wrap digits (wrap digits a + b) = wrap digits (a + b).
Proof. unfold wrap. apply Zplus_mod_idemp_l. Qed.

Lemma wrap_add_r a b : wrap digits (a + wrap digits b) = wrap digits (a + b).
Proof. unfold wrap. apply Zplus_mod_idemp_r. Qed.

(** *** stable_sort *)

Lemma insert_filter_eq c e l :
  filter (fun e => pos e = c) (insert e l)
  = filter (fun e => pos e = c) (e :: l).
Proof.
  induction l as [|h t IH]; cbn [insert]; [reflexivity|].
  destruct (Z.leb_spec (pos e) (pos h)) as [Hle|Hgt]; [reflexivity|].
  rewrite (filter_cons _ h), IH, !filter_cons.
  destruct (decide (pos h = c)), (decide (pos e = c)); try reflexivity; lia.
Qed.

Lemma stable_sort_filter_eq c l :
  filter (fun e => pos e = c) (stable_sort l)
  = filter (fun e => pos e = c) l.
Proof.
  induction l as [|a l IH]; [reflexivity|].
  cbn [stable_sort fold_right]. fold (stable_sort l).
  rewrite insert_filter_eq, !filter_cons, IH. reflexivity.
Qed.

Lemma insert_perm e l : insert e l ≡ₚ e :: l.
Proof.
  induction l as [|h t IH]; cbn [insert]; [reflexivity|].
  destruct (pos e <=? pos h); [reflexivity|].
  rewrite IH. apply Permutation_swap.
Qed.

Lemma stable_sort_perm l : stable_sort l ≡ₚ l.
Proof.
  induction l as [|a l IH]; [reflexivity|].
  cbn [stable_sort fold_right]. fold (stable_sort l).
  rewrite insert_perm, IH. reflexivity.
Qed.

Lemma insert_sorted e l :
  StronglySorted pos_le l -> StronglySorted pos_le (insert e l).
Proof.
  induction 1 as [|h t Hs IH Hall]; cbn [insert].
  - repeat constructor.
  - destruct (Z.leb_spec (pos e) (pos h)) as [Hle|Hgt].
    + constructor; [constructor; assumption|].
      constructor; [exact Hle|].
      eapply Forall_impl; [exact Hall|]. unfold pos_le. intros; lia.
    + constructor; [exact IH|].
      rewrite insert_perm. constructor; [unfold pos_le; lia | exact Hall].
Qed.

Lemma stable_sort_sorted l : StronglySorted pos_le (stable_sort l).
Proof.
  induction l as [|a l IH]; [constructor|].
  cbn [stable_sort fold_right]. apply insert_sorted, IH.
Qed.

(** *** A sorted list is cut into cells by counting *)

Lemma filter_none {A} (P : A -> Prop) `{!forall x, Decision (P x)} (l : list A) :
  Forall (fun x => ~ P x) l -> filter P l = [].
Proof.
  induction 1 as [|x l Hx _ IH]; [reflexivity|].
  rewrite filter_cons_False by exact Hx. exact IH.
Qed.

Lemma sorted_split3 c es :
  StronglySorted pos_le es ->
  es = filter (fun e => pos e < c) es
       ++ filter (fun e => pos e = c) es
       ++ filter (fun e => c < pos e) es.
Proof.
  induction 1 as [|h t Hs IH Hall]; [reflexivity|].
  rewrite !filter_cons.
  destruct (decide (pos h < c)) as [Hlt|Hge].
  { rewrite decide_False, decide_False by lia. cbn. f_equal. exact IH. }
  assert (filter (fun e => pos e < c) t = []) as Elt.
  { apply filter_none. eapply Forall_impl; [exact Hall|].
    unfold pos_le. intros; lia. }
  rewrite Elt in *. cbn [app] in *.
  destruct (decide (pos h = c)) as [Heq|Hne].
  { rewrite decide_False by lia. cbn. f_equal. exact IH. }
  assert (filter (fun e => pos e = c) t = []) as Eeq.
  { apply filter_none. eapply Forall_impl; [exact Hall|].
    unfold pos_le. intros; lia. }
  rewrite Eeq in *. cbn [app] in *.
  rewrite decide_True by lia. f_equal. exact IH.
Qed.

Lemma cntlt_succ c es : cntlt (c + 1) es = cntlt c es + cnt c es.
Proof.
  unfold cntlt, cnt. induction es as [|e es IH]; [reflexivity|].
  rewrite !filter_cons.
  destruct (decide (pos e < c + 1)), (decide (pos e < c)), (decide (pos e = c));
    cbn [length]; lia.
Qed.

Lemma cntlt_mono c c' es : c <= c' -> cntlt c es <= cntlt c' es.
Proof.
  intros Hc. unfold cntlt. induction es as [|e es IH]; [reflexivity|].
  rewrite !filter_cons.
  destruct (decide (pos e < c)), (decide (pos e < c')); cbn [length]; lia.
Qed.

Lemma cntlt_le_length c es : 0 <= cntlt c es <= Z.of_nat (length es).
Proof.
  unfold cntlt. pose proof (length_filter (fun e => pos e < c) es). lia.
Qed.

Lemma cntlt_all c es :
  Forall (fun e => pos e < c) es -> cntlt c es = Z.of_nat (length es).
Proof.
  intros H. unfold cntlt. induction H as [|e es He _ IH]; [reflexivity|].
  rewrite filter_cons_True by exact He. cbn [length]. lia.
Qed.

(** The slice of a sorted list between the counts for [c] and [c + 1] is
    the list of its entries in cell [c]. *)
Lemma sorted_slice c es :
  StronglySorted pos_le es ->
  take (Z.to_nat (cntlt (c + 1) es - cntlt c es))
       (drop (Z.to_nat (cntlt c es)) es)
  = filter (fun e => pos e = c) es.
Proof.
  intros Hs. rewrite cntlt_succ.
  replace (cntlt c es + cnt c es - cntlt c es) with (cnt c es) by lia.
  rewrite (sorted_split3 c es Hs) at 3.
  unfold cntlt, cnt. rewrite !Nat2Z.id.
  rewrite drop_app_length, take_app_length. reflexivity.
Qed.

(** *** The extraction loop *)

Local Abbreviation bump := (SplatTree.bump digits).

Lemma extract_split es : forall ids st,
  fold_left (fun '(ids, start) e =>
               (ids ++ [splatId e],
                alter (fun c => wrap digits (c + 1)) (Z.to_nat (pos e)) start))
            es (ids, st)
  = (ids ++ (splatId <$> es), fold_left bump es st).
Proof.
  induction es as [|e es IH]; intros ids st; cbn [fold_left].
  - rewrite fmap_nil, app_nil_r. reflexivity.
  - rewrite IH, fmap_cons, <- app_assoc. reflexivity.
Qed.

Lemma bump_all_length es : forall st, length (fold_left bump es st) = length st.
Proof.
  induction es as [|e es IH]; intros st; cbn [fold_left]; [reflexivity|].
  rewrite IH. unfold bump. apply length_alter.
Qed.

Lemma bump_all_lookup es : forall st (c : nat) v,
  Forall (fun e => 0 <= pos e) es ->
  st !! c = Some v -> 0 <= v < 2 ^ digits ->
  fold_left bump es st !! c = Some (wrap digits (v + cnt (Z.of_nat c) es)).
Proof using digits_pos.
  induction es as [|e es IH]; intros st c v Hpos Hc Hv; cbn [fold_left].
  - unfold cnt. cbn. rewrite Z.add_0_r, wrap_small by exact Hv. exact Hc.
  - inversion Hpos as [|? ? He Hes]; subst.
    unfold cnt. rewrite filter_cons. fold (cnt (Z.of_nat c) es).
    destruct (decide (pos e = Z.of_nat c)) as [Heq|Hne].
    + rewrite (IH _ c (wrap digits (v + 1))); [| exact Hes | | apply wrap_range].
      * cbn [length]. rewrite wrap_add_l. f_equal. f_equal.
        unfold cnt. lia.
      * unfold bump. rewrite Heq, Nat2Z.id, list_lookup_alter_eq, Hc.
        reflexivity.
    + rewrite (IH _ c v); [reflexivity | exact Hes | | exact Hv].
      unfold bump. rewrite list_lookup_alter_ne by lia. exact Hc.
Qed.

(** *** The prefix sum *)

Lemma prefix_sum_length l : forall s, length (prefix_sum digits s l) = length l.
Proof.
  induction l as [|c l IH]; intros s; cbn [prefix_sum length]; [reflexivity|].
  rewrite IH. reflexivity.
Qed.

Lemma prefix_sum_lookup l : forall s (i : nat),
  0 <= s < 2 ^ digits -> (i < length l)%nat ->
  prefix_sum digits s l !! i = Some (wrap digits (s + sumZ (take i l))).
Proof using digits_pos.
  induction l as [|c l IH]; intros s i Hs Hi; cbn [length] in Hi; [lia|].
  cbn [prefix_sum]. destruct i as [|i].
  - cbn. rewrite Z.add_0_r, wrap_small by exact Hs. reflexivity.
  - cbn [lookup list_lookup take sumZ foldr].
    rewrite IH; [| apply wrap_range | lia].
    rewrite wrap_add_l. fold (sumZ (take i l)). f_equal. f_equal. lia.
Qed.

Lemma sumZ_snoc l x : sumZ (l ++ [x]) = sumZ l + x.
Proof.
  unfold sumZ. induction l as [|a l IH]; cbn [app foldr]; lia.
Qed.

(** The sum of the first [i] counters is the number of entries in the
    cells before [i], modulo the width of [size_type]. *)
Lemma counters_sum es (st : list Z) :
  Forall (fun e => 0 <= pos e) es ->
  (forall c : nat, (c < length st)%nat ->
     st !! c = Some (wrap digits (cnt (Z.of_nat c) es))) ->
  forall i : nat, (i <= length st)%nat ->
    wrap digits (sumZ (take i st)) = wrap digits (cntlt (Z.of_nat i) es).
Proof.
  intros Hpos Hst. induction i as [|i IH]; intros Hi.
  - cbn [take sumZ foldr]. f_equal. unfold cntlt.
    rewrite filter_none; [reflexivity|].
    eapply Forall_impl; [exact Hpos|]. cbn. intros; lia.
  - rewrite (take_S_r st i _ (Hst i ltac:(lia))), sumZ_snoc.
    rewrite wrap_add_r, <- wrap_add_l, IH, wrap_add_l by lia.
    f_equal. rewrite Nat2Z.inj_succ, <- Z.add_1_r, cntlt_succ. reflexivity.
Qed.

(** The arrays the two final loops of the constructor leave behind, for a
    sorted list of entries and [n] zeroed counters: [ids] lists the splat
    ids in the order of the list, and [start[i]] is the number of entries
    in the cells before [i], modulo the width of [size_type]. *)
Lemma flatten_spec (es : list Entry) (n : nat) :
  Forall (fun e => 0 <= pos e) es ->
  fst (extract digits (replicate n 0) es) = splatId <$> es
  /\ length (prefix_sum digits 0 (snd (extract digits (replicate n 0) es))) = n
  /\ forall i : nat, (i < n)%nat ->
       prefix_sum digits 0 (snd (extract digits (replicate n 0) es)) !! i
       = Some (wrap digits (cntlt (Z.of_nat i) es)).
Proof using digits_pos.
  intros Hpos. unfold extract. rewrite extract_split. cbn [fst snd app].
  assert (0 < 2 ^ digits) as Hpow by (apply Z.pow_pos_nonneg; lia).
  split; [reflexivity|].
  rewrite prefix_sum_length, bump_all_length, length_replicate.
  split; [reflexivity|]. intros i Hi.
  rewrite prefix_sum_lookup;
    [| lia | rewrite bump_all_length, length_replicate; exact Hi].
  rewrite Z.add_0_l. f_equal. apply counters_sum.
  - exact Hpos.
  - intros c Hc. rewrite bump_all_length, length_replicate in Hc.
    rewrite (bump_all_lookup es _ c 0 Hpos);
      [rewrite Z.add_0_l; reflexivity | apply lookup_replicate_2; exact Hc | lia].
  - rewrite bump_all_length, length_replicate. lia.
Qed.

Lemma sorted_of_lookup (l : list Z) : forall (f : nat -> Z),
  (forall i : nat, (i < length l)%nat -> l !! i = Some (f i)) ->
  (forall i j : nat, (i <= j)%nat -> f i <= f j) ->
  StronglySorted Z.le l.
Proof.
  induction l as [|a l IH]; intros f Hl Hf; [constructor|].
  constructor.
  - apply (IH (fun i => f (S i))).
    + intros i Hi. change (l !! i) with ((a :: l) !! S i).
      apply (Hl (S i)). cbn [length]. lia.
    + intros i j Hij. apply Hf. lia.
  - apply Forall_lookup. intros i x Hx.
    pose proof (lookup_lt_Some _ _ _ Hx) as Hi.
    pose proof (Hl 0%nat ltac:(cbn [length]; lia)) as H0.
    pose proof (Hl (S i) ltac:(cbn [length]; lia)) as HS.
    change ((a :: l) !! 0%nat) with (Some a) in H0.
    change ((a :: l) !! S i) with (l !! i) in HS. rewrite Hx in HS.
    injection H0 as ->. injection HS as ->. apply Hf. lia.
Qed.

End EntryLists.

(** ** The loops of the constructor *)

Section LoopFacts.

Import SplatTree.

Lemma maxLevel_loop_spec fuel : forall size m0 m,
  0 <= m0 -> maxLevel_loop fuel size m0 = Ret m -> m0 <= m /\ size <= 2 ^ m.
Proof.
  induction fuel as [|fuel IH]; intros size m0 m Hm0; cbn [maxLevel_loop];
    destruct (Z.ltb_spec (wrap uint_digits (Z.shiftl 1 m0)) size) as [Hlt|Hge];
    intros E; try discriminate.
  1,3: injection E as <-; split; [lia|];
       rewrite Z.shiftl_1_l in Hge; unfold wrap in Hge;
       pose proof (Z.mod_le (2 ^ m0) (2 ^ uint_digits)
                     ltac:(apply Z.pow_nonneg; lia)
                     ltac:(apply Z.pow_pos_nonneg; unfold uint_digits; lia));
       lia.
  apply IH in E; lia.
Qed.

Lemma shift_loop_spec fuel : forall lo hi s0 s,
  shift_loop fuel lo hi s0 = Ret s -> s0 <= s.
Proof.
  induction fuel as [|fuel IH]; intros lo hi s0 s; cbn [shift_loop];
    destruct (1 <? Z.shiftr hi s0 - Z.shiftr lo s0);
    intros E; try discriminate.
  1,3: injection E as <-; lia.
  apply IH in E; lia.
Qed.

Lemma geo_closed n : 7 * geo n = 8 ^ Z.of_nat n - 1.
Proof.
  induction n as [|n IH]; [reflexivity|].
  cbn [geo]. rewrite Nat2Z.inj_succ, Z.pow_succ_r by lia. lia.
Qed.

Lemma geo_mono i j : (i <= j)%nat -> geo i <= geo j.
Proof.
  induction 1 as [|j _ IH]; [lia|].
  cbn [geo]. pose proof (Z.pow_nonneg 8 (Z.of_nat j)). lia.
Qed.

Lemma pow8 k : 0 <= k -> 8 ^ k = 2 ^ (3 * k).
Proof. intros. rewrite Z.pow_mul_r by lia. reflexivity. Qed.

(** When the codes of level [maxLevel] fit, [levelStart] does not
    overflow. *)
Lemma levelStart_from_geo digits n : forall k : nat,
  0 < digits <= uint_digits ->
  3 * (Z.of_nat k + Z.of_nat n - 1) < digits ->
  levelStart_from digits n (Z.of_nat k) (geo k) = geo <$> seq k (S n).
Proof.
  induction n as [|n IH]; intros k Hd Hfit; cbn [levelStart_from seq fmap list_fmap];
    [reflexivity|].
  f_equal.
  assert (8 ^ Z.of_nat k = 2 ^ (3 * Z.of_nat k)) as E8 by (apply pow8; lia).
  assert (2 ^ (3 * Z.of_nat k) <= 2 ^ (digits - 1)) as Hle
      by (apply Z.pow_le_mono_r; lia).
  assert (2 ^ digits = 2 * 2 ^ (digits - 1)) as Hdig.
  { rewrite <- Z.pow_succ_r by lia. f_equal. lia. }
  assert (0 < 2 ^ (3 * Z.of_nat k)) by (apply Z.pow_pos_nonneg; lia).
  assert (2 ^ digits <= 2 ^ uint_digits) by (apply Z.pow_le_mono_r; lia).
  pose proof (geo_closed k) as Hg.
  rewrite Z.shiftl_1_l.
  replace (wrap uint_digits (2 ^ (3 * Z.of_nat k))) with (8 ^ Z.of_nat k).
  2: { unfold wrap. rewrite Z.mod_small; lia. }
  replace (wrap digits (geo k + 8 ^ Z.of_nat k)) with (geo (S k)).
  2: { cbn [geo]. unfold wrap. rewrite Z.mod_small; lia. }
  replace (Z.of_nat k + 1) with (Z.of_nat (S k)) by lia.
  apply IH; lia.
Qed.

Lemma make_levelStart_geo digits maxLevel :
  0 < digits <= uint_digits -> 0 <= maxLevel -> 3 * maxLevel < digits ->
  make_levelStart digits maxLevel
  = geo <$> seq 0 (S (Z.to_nat (maxLevel + 1))).
Proof.
  intros Hd Hm Hfit. unfold make_levelStart.
  apply (levelStart_from_geo digits (Z.to_nat (maxLevel + 1)) 0%nat Hd). lia.
Qed.

Lemma mapM_Forall2 {A B} (f : A -> outcome B) (l : list A) : forall bs,
  mapM f l = Ret bs -> Forall2 (fun a b => f a = Ret b) l bs.
Proof.
  induction l as [|a l IH]; intros bs; cbn [mapM].
  - intros E. injection E as <-. constructor.
  - destruct (f a) as [b| | |] eqn:Ea; cbn [mbind outcome_bind bind];
      try discriminate.
    destruct (mapM f l) as [bs'| | |]; cbn [mbind outcome_bind bind];
      try discriminate.
    intros E. injection E as <-. constructor; [exact Ea|]. apply IH. reflexivity.
Qed.

Lemma elem_of_cells x y z lx ly lz hx hy hz :
  (x, y, z) ∈ cells (lx, ly, lz) (hx, hy, hz)
  <-> lx <= x <= hx /\ ly <= y <= hy /\ lz <= z <= hz.
Proof.
  unfold cells. rewrite list_elem_of_bind. split.
  - intros (z' & Hz' & Hz). apply elem_of_seqZ in Hz.
    apply list_elem_of_bind in Hz' as (y' & Hy' & Hy). apply elem_of_seqZ in Hy.
    apply list_elem_of_bind in Hy' as (x' & Hx' & Hx). apply elem_of_seqZ in Hx.
    apply list_elem_of_singleton in Hx'. injection Hx' as -> -> ->. lia.
  - intros (Hx & Hy & Hz). exists z. split; [|apply elem_of_seqZ; lia].
    apply list_elem_of_bind. exists y. split; [|apply elem_of_seqZ; lia].
    apply list_elem_of_bind. exists x. split; [|apply elem_of_seqZ; lia].
    apply list_elem_of_singleton. reflexivity.
Qed.

Lemma NoDup_cells ilo ihi : NoDup (cells ilo ihi).
Proof.
  destruct ilo as [[lx ly] lz], ihi as [[hx hy] hz]. unfold cells.
  apply NoDup_bind; [| |apply NoDup_seqZ].
  - intros z1 z2 c _ _ H1 H2.
    apply list_elem_of_bind in H1 as (y1 & H1 & _).
    apply list_elem_of_bind in H1 as (x1 & H1 & _).
    apply list_elem_of_bind in H2 as (y2 & H2 & _).
    apply list_elem_of_bind in H2 as (x2 & H2 & _).
    apply list_elem_of_singleton in H1, H2. congruence.
  - intros z _. apply NoDup_bind; [| |apply NoDup_seqZ].
    + intros y1 y2 c _ _ H1 H2.
      apply list_elem_of_bind in H1 as (x1 & H1 & _).
      apply list_elem_of_bind in H2 as (x2 & H2 & _).
      apply list_elem_of_singleton in H1, H2. congruence.
    + intros y _. apply NoDup_bind; [| |apply NoDup_seqZ].
      * intros x1 x2 c _ _ H1 H2.
        apply list_elem_of_singleton in H1, H2. congruence.
      * intros x _. apply NoDup_singleton.
Qed.

End LoopFacts.

(** ** The entries of the constructor *)

Section ConstructionFacts.

Import SplatTree.

Variable Splat Grid : Type.
Variable numVertices : Grid -> Z * Z * Z.
Variable vertexBounds : Grid -> Splat -> (Z * Z * Z) * (Z * Z * Z).
Variable digits : Z.
Hypothesis digits_range : 0 < digits <= uint_digits.

Local Abbreviation splat_entries := (splat_entries Splat Grid numVertices vertexBounds digits).
Local Abbreviation all_entries := (all_entries Splat Grid numVertices vertexBounds digits).
Local Abbreviation compute_maxLevel := (compute_maxLevel Grid numVertices).
Local Abbreviation levels_fit := (levels_fit Grid numVertices digits).

Lemma axis_step_spec nv lo hi s0 s :
  axis_step nv lo hi s0 = Ret s -> 0 <= hi < nv /\ 0 <= lo < nv /\ s0 <= s.
Proof.
  unfold axis_step, assert.
  destruct (Z.leb_spec 0 hi), (Z.ltb_spec hi nv); cbn; try discriminate.
  destruct (Z.leb_spec 0 lo), (Z.ltb_spec lo nv); cbn; try discriminate.
  intros E. apply shift_loop_spec in E. lia.
Qed.

Lemma geo_top_bound maxLevel :
  0 <= maxLevel -> 3 * maxLevel < digits ->
  geo (Z.to_nat (maxLevel + 1)) < 2 ^ digits.
Proof using digits_range.
  intros Hm Hfit. pose proof (geo_closed (Z.to_nat (maxLevel + 1))) as Hg.
  rewrite Z2Nat.id in Hg by lia.
  rewrite Z.pow_add_r, pow8 in Hg by lia. change (8 ^ 1) with 8 in Hg.
  assert (2 ^ (3 * maxLevel) <= 2 ^ (digits - 1)) by (apply Z.pow_le_mono_r; lia).
  assert (2 ^ digits = 2 * 2 ^ (digits - 1)).
  { rewrite <- Z.pow_succ_r by lia. f_equal. lia. }
  lia.
Qed.

Lemma levelStart_nth maxLevel (level : nat) :
  0 <= maxLevel -> 3 * maxLevel < digits ->
  (level <= Z.to_nat (maxLevel + 1))%nat ->
  nth level (make_levelStart digits maxLevel) 0 = geo level.
Proof using digits_range.
  intros Hm Hfit Hl. rewrite make_levelStart_geo by assumption.
  apply nth_lookup_Some. rewrite list_lookup_fmap, lookup_seq_lt by lia.
  reflexivity.
Qed.

Lemma levelStart_last maxLevel :
  0 <= maxLevel -> 3 * maxLevel < digits ->
  List.last (make_levelStart digits maxLevel) 0 = geo (Z.to_nat (maxLevel + 1)).
Proof using digits_range.
  intros Hm Hfit. rewrite make_levelStart_geo by assumption.
  rewrite seq_S, fmap_app. cbn [fmap list_fmap]. apply last_last.
Qed.

Lemma compute_maxLevel_spec grid maxLevel nx ny nz :
  numVertices grid = (nx, ny, nz) ->
  max3 nx ny nz < 2 ^ uint_digits ->
  compute_maxLevel grid = Ret maxLevel ->
  0 <= maxLevel /\ (0 <= max3 nx ny nz -> max3 nx ny nz <= 2 ^ maxLevel).
Proof.
  intros Env Hnv. unfold SplatTree.compute_maxLevel. rewrite Env. intros E.
  apply maxLevel_loop_spec in E; [|lia]. destruct E as [Hm Hsize].
  split; [exact Hm|]. intros H0. unfold max3 in *.
  unfold wrap in Hsize. rewrite Z.mod_small in Hsize by lia. exact Hsize.
Qed.

Lemma Forall2_elem_of_r {A B} (R : A -> B -> Prop) l bs b :
  Forall2 R l bs -> b ∈ bs -> exists a, a ∈ l /\ R a b.
Proof.
  induction 1 as [|a b' l bs HR _ IH]; intros Hb.
  - inversion Hb.
  - apply elem_of_cons in Hb as [->|Hb].
    + exists a. split; [left|exact HR].
    + destruct (IH Hb) as (a' & Ha' & HR'). exists a'. split; [right|]; assumption.
Qed.

Lemma Forall2_NoDup_image {A B K} (R : A -> B -> Prop) (g : B -> K) l bs :
  Forall2 R l bs -> NoDup l ->
  (forall a a' b b', a ∈ l -> a' ∈ l -> R a b -> R a' b' -> g b = g b' -> a = a') ->
  NoDup (g <$> bs).
Proof.
  induction 1 as [|a b l bs HR HF IH]; intros Hnd Hinj; [constructor|].
  apply NoDup_cons in Hnd as [Hnotin Hnd]. rewrite fmap_cons.
  apply NoDup_cons. split.
  - intros Hin. apply list_elem_of_fmap in Hin as (b' & Eg & Hb').
    destruct (Forall2_elem_of_r _ _ _ _ HF Hb') as (a' & Ha' & HR').
    apply Hnotin. rewrite (Hinj a a' b b'); auto; [left | right; exact Ha'].
  - apply IH; [exact Hnd|]. intros a1 a2 b1 b2 H1 H2. apply Hinj; right; assumption.
Qed.

(** One iteration of the innermost loop, for a cell of level [level]. *)
Lemma cell_entry_spec maxLevel level id x y z :
  0 <= level <= maxLevel -> 3 * maxLevel < digits ->
  0 <= x < 2 ^ level -> 0 <= y < 2 ^ level -> 0 <= z < 2 ^ level ->
  (makeCode digits x y z ≫= fun code =>
     Ret (mkEntry
            (wrap digits
               (nth (Z.to_nat level) (make_levelStart digits maxLevel) 0 + code))
            id))
  = Ret (mkEntry (geo (Z.to_nat level) + interleave x y z) id)
  /\ 0 <= interleave x y z < 8 ^ level
  /\ 0 <= geo (Z.to_nat level)
  /\ geo (Z.to_nat level) + 8 ^ level <= geo (Z.to_nat (maxLevel + 1)).
Proof using digits_range.
  intros Hl Hfit Hx Hy Hz.
  assert (bitlen (max3 x y z) <= level) as Hb.
  { apply bitlen_bound; unfold max3; lia. }
  pose proof (bitlen_nonneg (max3 x y z)) as Hb0.
  assert (valid digits x y z) as Hv by (unfold valid; lia).
  rewrite (makeCode_valid _ _ _ _ digits_range Hv). cbn [mbind outcome_bind bind].
  assert (0 <= interleave x y z < 8 ^ level) as Hcode.
  { unfold interleave.
    pose proof (interleave_bits_bound (Z.to_nat (bitlen (max3 x y z))) x y z) as Hi.
    rewrite Z2Nat.id in Hi by lia.
    assert (2 ^ (3 * bitlen (max3 x y z)) <= 2 ^ (3 * level))
      by (apply Z.pow_le_mono_r; lia).
    rewrite pow8 by lia. lia. }
  assert (geo (Z.to_nat level) + 8 ^ level <= geo (Z.to_nat (maxLevel + 1))) as Htop.
  { replace (geo (Z.to_nat level) + 8 ^ level) with (geo (S (Z.to_nat level)))
      by (cbn [geo]; rewrite Z2Nat.id by lia; reflexivity).
    apply geo_mono. lia. }
  assert (0 <= geo (Z.to_nat level)) as Hg0 by (apply (geo_mono 0); lia).
  pose proof (geo_top_bound maxLevel ltac:(lia) Hfit) as Hbound.
  rewrite levelStart_nth by lia.
  rewrite wrap_small by lia. auto.
Qed.

Lemma shiftr_bound v shift level :
  0 <= shift -> 0 <= level -> 0 <= v < 2 ^ (level + shift) ->
  0 <= Z.shiftr v shift < 2 ^ level.
Proof.
  intros Hs Hl Hv. rewrite Z.shiftr_div_pow2 by lia.
  assert (0 < 2 ^ shift) by (apply Z.pow_pos_nonneg; lia).
  split; [apply Z.div_pos; lia|].
  apply Z.div_lt_upper_bound; [lia|].
  rewrite <- Z.pow_add_r by lia. rewrite Z.add_comm. lia.
Qed.

(** The entries of one splat: they carry its id, lie within the cells the
    tree has, and no two of them name the same cell. *)
Lemma splat_entries_spec grid maxLevel id splat es :
  levels_fit grid maxLevel ->
  splat_entries grid maxLevel (make_levelStart digits maxLevel) id splat = Ret es ->
  Forall (fun e => splatId e = id
                   /\ 0 <= pos e < geo (Z.to_nat (maxLevel + 1))) es
  /\ NoDup (pos <$> es).
Proof using digits_range.
  intros (Hnv & Hml & Hfit). unfold SplatTree.splat_entries.
  destruct (vertexBounds grid splat) as [[[lx ly] lz] [[hx hy] hz]].
  destruct (numVertices grid) as [[nx ny] nz] eqn:Env.
  destruct (axis_step nx lx hx 0) as [s1| | |] eqn:E1;
    cbn [mbind outcome_bind bind]; try discriminate.
  destruct (axis_step ny ly hy s1) as [s2| | |] eqn:E2;
    cbn [mbind outcome_bind bind]; try discriminate.
  destruct (axis_step nz lz hz s2) as [s3| | |] eqn:E3;
    cbn [mbind outcome_bind bind]; try discriminate.
  unfold assert at 1.
  destruct (Z.leb_spec s3 maxLevel) as [Hs3|]; cbn [mbind outcome_bind bind];
    try discriminate.
  apply axis_step_spec in E1 as (Hhx & Hlx & Hs1).
  apply axis_step_spec in E2 as (Hhy & Hly & Hs2).
  apply axis_step_spec in E3 as (Hhz & Hlz & Hs3').
  destruct (compute_maxLevel_spec grid maxLevel nx ny nz Env Hnv Hml)
    as [Hm0 Hsize].
  assert (max3 nx ny nz <= 2 ^ maxLevel) as Hmax
      by (apply Hsize; unfold max3; lia).
  unfold max3 in Hmax.
  set (level := maxLevel - s3).
  assert (2 ^ (level + s3) = 2 ^ maxLevel) as Epow by (f_equal; subst level; lia).
  intros EM. apply mapM_Forall2 in EM.
  assert (Hcell : forall x y z,
            (x, y, z) ∈ cells (Z.shiftr lx s3, Z.shiftr ly s3, Z.shiftr lz s3)
                              (Z.shiftr hx s3, Z.shiftr hy s3, Z.shiftr hz s3) ->
            0 <= x < 2 ^ level /\ 0 <= y < 2 ^ level /\ 0 <= z < 2 ^ level).
  { intros x y z Hin. apply elem_of_cells in Hin as (Hx & Hy & Hz).
    pose proof (shiftr_bound lx s3 level ltac:(lia) ltac:(subst level; lia) ltac:(lia)).
    pose proof (shiftr_bound ly s3 level ltac:(lia) ltac:(subst level; lia) ltac:(lia)).
    pose proof (shiftr_bound lz s3 level ltac:(lia) ltac:(subst level; lia) ltac:(lia)).
    pose proof (shiftr_bound hx s3 level ltac:(lia) ltac:(subst level; lia) ltac:(lia)).
    pose proof (shiftr_bound hy s3 level ltac:(lia) ltac:(subst level; lia) ltac:(lia)).
    pose proof (shiftr_bound hz s3 level ltac:(lia) ltac:(subst level; lia) ltac:(lia)).
    lia. }
  assert (Hent : forall c e,
            c ∈ cells (Z.shiftr lx s3, Z.shiftr ly s3, Z.shiftr lz s3)
                      (Z.shiftr hx s3, Z.shiftr hy s3, Z.shiftr hz s3) ->
            (let '(x, y, z) := c in
             makeCode digits x y z ≫= fun code =>
               Ret (mkEntry
                      (wrap digits
                         (nth (Z.to_nat level) (make_levelStart digits maxLevel) 0
                          + code)) id)) = Ret e ->
            let '(x, y, z) := c in
            e = mkEntry (geo (Z.to_nat level) + interleave x y z) id
            /\ 0 <= x /\ 0 <= y /\ 0 <= z
            /\ 0 <= pos e < geo (Z.to_nat (maxLevel + 1))).
  { intros [[x y] z] e Hin Ee.
    destruct (Hcell x y z Hin) as (Hx & Hy & Hz).
    destruct (cell_entry_spec maxLevel level id x y z) as (E & Hc & Hg & Ht);
      try (subst level; lia); try lia.
    rewrite E in Ee. injection Ee as <-. cbn [pos]. repeat split; lia. }
  split.
  - apply Forall_forall. intros e He.
    destruct (Forall2_elem_of_r _ _ _ _ EM He) as ([[x y] z] & Hin & Ee).
    destruct (Hent _ _ Hin Ee) as (-> & _ & _ & _ & Hp). cbn [splatId pos] in *.
    split; [reflexivity | exact Hp].
  - eapply Forall2_NoDup_image; [exact EM | apply NoDup_cells |].
    intros [[x y] z] [[x' y'] z'] b b' Hin Hin' Eb Eb' Epos.
    destruct (Hent _ _ Hin Eb) as (-> & Hx & Hy & Hz & _).
    destruct (Hent _ _ Hin' Eb') as (-> & Hx' & Hy' & Hz' & _).
    cbn [pos] in Epos.
    destruct (interleave_inj x y z x' y' z') as (-> & -> & ->);
      [lia..|reflexivity].
Qed.

Lemma filter_cell_of_one_splat c id (l : list Entry) :
  NoDup (pos <$> l) -> Forall (fun e => splatId e = id) l ->
  splatId <$> filter (fun e => pos e = c) l = []
  \/ splatId <$> filter (fun e => pos e = c) l = [id].
Proof.
  induction l as [|e l IH]; intros Hnd Hid; [left; reflexivity|].
  rewrite fmap_cons in Hnd. apply NoDup_cons in Hnd as [Hnotin Hnd].
  inversion Hid as [|? ? He Hl]; subst.
  rewrite filter_cons. destruct (decide (pos e = c)) as [Heq|Hne].
  - right. rewrite fmap_cons. f_equal.
    rewrite filter_none; [reflexivity|].
    apply Forall_forall. intros e' He' Hc. apply Hnotin.
    apply list_elem_of_fmap. exists e'. split; [congruence|exact He'].
  - apply IH; assumption.
Qed.

(** The entries of all splats, in the order they are pushed. *)
Lemma all_entries_spec grid maxLevel :
  levels_fit grid maxLevel ->
  forall splats id0 es,
    all_entries grid maxLevel (make_levelStart digits maxLevel) id0 splats = Ret es ->
    Forall (fun e => id0 <= splatId e
                     /\ 0 <= pos e < geo (Z.to_nat (maxLevel + 1))) es
    /\ (forall e, e ∈ es <->
          exists (i : nat) splat esi,
            splats !! i = Some splat
            /\ splat_entries grid maxLevel (make_levelStart digits maxLevel)
                 (id0 + Z.of_nat i) splat = Ret esi
            /\ e ∈ esi)
    /\ (forall c,
          StronglySorted Z.lt (splatId <$> filter (fun e => pos e = c) es)).
Proof using digits_range.
  intros Hfit. induction splats as [|splat rest IH]; intros id0 es;
    cbn [SplatTree.all_entries].
  - intros E. injection E as <-. split; [constructor|]. split.
    + intros e. split; [intros H; inversion H|].
      intros (i & sp & esi & Hi & _). rewrite lookup_nil in Hi. discriminate.
    + intros c. constructor.
  - destruct (splat_entries grid maxLevel (make_levelStart digits maxLevel)
                id0 splat) as [es1| | |] eqn:E1;
      cbn [mbind outcome_bind bind]; try discriminate.
    destruct (all_entries grid maxLevel (make_levelStart digits maxLevel)
                (id0 + 1) rest) as [es'| | |] eqn:E';
      cbn [mbind outcome_bind bind]; try discriminate.
    intros E. injection E as <-.
    destruct (splat_entries_spec _ _ _ _ _ Hfit E1) as (H1 & Hnd1).
    destruct (IH _ _ E') as (HF' & Hin' & Hs').
    split; [|split].
    + apply Forall_app. split.
      * eapply Forall_impl; [exact H1|]. cbn. intros e (-> & ?). lia.
      * eapply Forall_impl; [exact HF'|]. cbn. intros e (? & ?). lia.
    + intros e. rewrite elem_of_app. split.
      * intros [He|He].
        -- exists 0%nat, splat, es1. rewrite Z.add_0_r. auto.
        -- apply Hin' in He as (i & sp & esi & Hi & Ei & He).
           exists (S i), sp, esi. split; [exact Hi|]. split; [|exact He].
           rewrite <- Ei. f_equal. lia.
      * intros ([|i] & sp & esi & Hi & Ei & He).
        -- left. cbn in Hi. injection Hi as <-. rewrite Z.add_0_r in Ei.
           rewrite E1 in Ei. injection Ei as <-. exact He.
        -- right. apply Hin'. exists i, sp, esi. split; [exact Hi|].
           split; [|exact He]. rewrite <- Ei. f_equal. lia.
    + intros c. rewrite filter_app, fmap_app. apply StronglySorted_app.
      split; [|split; [|apply Hs']].
      * intros x1 x2 Hx1 Hx2.
        apply list_elem_of_fmap in Hx1 as (e1 & -> & He1).
        apply list_elem_of_fmap in Hx2 as (e2 & -> & He2).
        apply list_elem_of_filter in He1 as (_ & He1).
        apply list_elem_of_filter in He2 as (_ & He2).
        rewrite Forall_forall in H1, HF'.
        destruct (H1 _ He1) as (-> & _). destruct (HF' _ He2) as (? & _). lia.
      * destruct (filter_cell_of_one_splat c id0 es1 Hnd1) as [-> | ->].
        -- eapply Forall_impl; [exact H1|]. cbn. tauto.
        -- constructor.
        -- repeat constructor.
Qed.

Lemma start_size_bound maxLevel :
  0 <= maxLevel -> 3 * maxLevel < digits ->
  0 <= geo (Z.to_nat (maxLevel + 1)) /\
  geo (Z.to_nat (maxLevel + 1)) + 1 < 2 ^ uint_digits.
Proof using digits_range.
  intros Hm Hfit. pose proof (geo_closed (Z.to_nat (maxLevel + 1))) as Hg.
  rewrite Z2Nat.id in Hg by lia.
  rewrite Z.pow_add_r, pow8 in Hg by lia. change (8 ^ 1) with 8 in Hg.
  assert (2 ^ (3 * maxLevel) <= 2 ^ (digits - 1)) by (apply Z.pow_le_mono_r; lia).
  assert (2 ^ digits = 2 * 2 ^ (digits - 1)).
  { rewrite <- Z.pow_succ_r by lia. f_equal. lia. }
  assert (2 ^ digits <= 2 ^ uint_digits) by (apply Z.pow_le_mono_r; lia).
  assert (0 < 2 ^ (3 * maxLevel)) by (apply Z.pow_pos_nonneg; lia).
  assert (2 ^ uint_digits = 4294967296) by reflexivity.
  lia.
Qed.

(** What the constructor builds, in [size_type] arithmetic: [ids] is the
    list of splat ids of the sorted entries, [start] has one counter per
    cell and one more, and [start[i]] is the number of entries before cell
    [i], reduced modulo [2 ^ digits]. *)
Lemma construct_spec splats grid maxLevel tree :
  levels_fit grid maxLevel ->
  construct Splat Grid numVertices vertexBounds digits splats grid = Ret tree ->
  exists es,
    all_entries grid maxLevel (make_levelStart digits maxLevel) 0 splats = Ret es
    /\ ids tree = splatId <$> stable_sort es
    /\ length (start tree) = S (Z.to_nat (geo (Z.to_nat (maxLevel + 1))))
    /\ forall i : nat, (i < length (start tree))%nat ->
         start tree !! i
         = Some (wrap digits (cntlt (Z.of_nat i) (stable_sort es))).
Proof using digits_range.
  intros Hfit. pose proof Hfit as (Hnv & Hml & Hlev).
  unfold construct, MLSGPU_ASSERT.
  destruct (Z.of_nat (length splats) <=? size_max digits);
    cbn [mbind outcome_bind bind]; try discriminate.
  fold compute_maxLevel. rewrite Hml. cbn [mbind outcome_bind bind].
  fold all_entries.
  destruct (all_entries grid maxLevel (make_levelStart digits maxLevel) 0 splats)
    as [es| | |] eqn:Ees; cbn [mbind outcome_bind bind]; try discriminate.
  destruct (numVertices grid) as [[nx ny] nz] eqn:Env.
  destruct (compute_maxLevel_spec grid maxLevel nx ny nz Env Hnv Hml) as [Hm0 _].
  rewrite levelStart_last by lia.
  destruct (start_size_bound maxLevel Hm0 Hlev) as [Hg0 Hg1].
  rewrite (wrap_small uint_digits) by lia.
  destruct (all_entries_spec grid maxLevel Hfit _ _ _ Ees) as (HF & _ & _).
  assert (Forall (fun e => 0 <= pos e) (stable_sort es)) as Hpos.
  { rewrite stable_sort_perm. eapply Forall_impl; [exact HF|]. cbn. tauto. }
  destruct (flatten_spec digits ltac:(lia) (stable_sort es)
              (Z.to_nat (geo (Z.to_nat (maxLevel + 1)) + 1)) Hpos)
    as (Hids & Hlen & Hlook).
  destruct (extract digits _ (stable_sort es)) as [ids0 start1].
  cbn [fst snd] in *. intros E. injection E as <-. cbn [ids start].
  exists es. split; [reflexivity|]. split; [exact Hids|].
  rewrite Hlen. split; [lia|]. exact Hlook.
Qed.

(** The constructor returns as soon as the size check passes and the loop
    over the splats completes. *)
Lemma construct_returns splats grid maxLevel es :
  Z.of_nat (length splats) <= size_max digits ->
  compute_maxLevel grid = Ret maxLevel ->
  all_entries grid maxLevel (make_levelStart digits maxLevel) 0 splats = Ret es ->
  exists tree,
    construct Splat Grid numVertices vertexBounds digits splats grid = Ret tree.
Proof.
  intros Hn Hml Ees. unfold construct, MLSGPU_ASSERT.
  destruct (Z.leb_spec (Z.of_nat (length splats)) (size_max digits)); [|lia].
  cbn [mbind outcome_bind bind]. fold compute_maxLevel. rewrite Hml.
  cbn [mbind outcome_bind bind]. fold all_entries. rewrite Ees.
  cbn [mbind outcome_bind bind].
  destruct (extract digits _ (stable_sort es)) as [ids0 start1]. eauto.
Qed.

(** The flattened arrays when the number of entries fits [size_type]. *)
Lemma construct_arrays splats grid maxLevel tree :
  levels_fit grid maxLevel ->
  construct Splat Grid numVertices vertexBounds digits splats grid = Ret tree ->
  Z.of_nat (length (ids tree)) <= size_max digits ->
  StronglySorted Z.le (start tree)
  /\ last (start tree) = Some (Z.of_nat (length (ids tree)))
  /\ forall c : nat, (S c < length (start tree))%nat ->
       exists a b,
         start tree !! c = Some a /\ start tree !! S c = Some b /\ 0 <= a <= b
         /\ let slice := take (Z.to_nat (b - a)) (drop (Z.to_nat a) (ids tree)) in
            (forall id, id ∈ slice <->
                        resolves Splat Grid numVertices vertexBounds digits
                                 grid splats id (Z.of_nat c))
            /\ StronglySorted Z.lt slice.
Proof using digits_range.
  intros Hfit Ector Hsize.
  destruct (construct_spec _ _ _ _ Hfit Ector) as (es & Ees & Hids & Hlen & Hlook).
  destruct (all_entries_spec _ _ Hfit _ _ _ Ees) as (HF & Hin & Hsorted).
  pose proof Hfit as (Hnv & Hml & Hlev).
  set (S' := stable_sort es) in *.
  assert (length (ids tree) = length S') as Elen by (rewrite Hids; apply length_fmap).
  assert (forall i : nat, (i < length (start tree))%nat ->
            start tree !! i = Some (cntlt (Z.of_nat i) S')) as Hlook'.
  { intros i Hi. rewrite (Hlook i Hi). f_equal. apply wrap_small.
    pose proof (cntlt_le_length (Z.of_nat i) S'). unfold size_max in Hsize. lia. }
  split; [|split].
  - apply (sorted_of_lookup _ (fun i => cntlt (Z.of_nat i) S') Hlook').
    intros i j Hij. apply cntlt_mono. lia.
  - rewrite last_lookup, Hlen. cbn [pred]. rewrite Hlook' by lia. f_equal.
    rewrite Elen. apply cntlt_all.
    subst S'. rewrite stable_sort_perm.
    eapply Forall_impl; [exact HF|]. cbn. intros e (_ & H0 & Hlt).
    destruct (numVertices grid) as [[nx ny] nz] eqn:Env.
    destruct (compute_maxLevel_spec grid maxLevel nx ny nz Env Hnv Hml) as [Hm0 _].
    destruct (start_size_bound maxLevel Hm0 Hlev) as [Hg0 _].
    rewrite Z2Nat.id by lia. exact Hlt.
  - intros c Hc.
    exists (cntlt (Z.of_nat c) S'), (cntlt (Z.of_nat (S c)) S').
    split; [apply Hlook'; lia|]. split; [apply Hlook'; lia|].
    split; [split; [apply cntlt_le_length | apply cntlt_mono; lia]|].
    assert (take (Z.to_nat (cntlt (Z.of_nat (S c)) S' - cntlt (Z.of_nat c) S'))
                 (drop (Z.to_nat (cntlt (Z.of_nat c) S')) (ids tree))
            = splatId <$> filter (fun e => pos e = Z.of_nat c) es) as Eslice.
    { rewrite Hids, <- fmap_drop, <- fmap_take.
      rewrite Nat2Z.inj_succ, <- Z.add_1_r.
      rewrite sorted_slice by apply stable_sort_sorted.
      subst S'. rewrite stable_sort_filter_eq. reflexivity. }
    cbv zeta. rewrite Eslice. split; [|apply Hsorted].
    intros id. rewrite list_elem_of_fmap. split.
    + intros (e & -> & He). apply list_elem_of_filter in He as (Hpos & He).
      apply Hin in He as (i & splat & esi & Hi & Ei & He).
      destruct (splat_entries_spec _ _ _ _ _ Hfit Ei) as (H1 & _).
      rewrite Forall_forall in H1. destruct (H1 _ He) as (Eid & _).
      exists maxLevel, splat, esi. rewrite Eid, Z.add_0_l, Nat2Z.id.
      split; [exact Hml|]. split; [lia|]. split; [exact Hi|].
      split; [rewrite Z.add_0_l in Ei; exact Ei|].
      apply list_elem_of_fmap. exists e. auto.
    + intros (maxLevel' & splat & esi & Hml' & Hid & Hi & Ei & Hc').
      fold compute_maxLevel in Hml'. rewrite Hml in Hml'. injection Hml' as <-.
      apply list_elem_of_fmap in Hc' as (e & Epos & He).
      destruct (splat_entries_spec _ _ _ _ _ Hfit Ei) as (H1 & _).
      rewrite Forall_forall in H1. destruct (H1 _ He) as (Eid & _).
      exists e. split; [congruence|]. apply list_elem_of_filter.
      split; [congruence|]. apply Hin.
      exists (Z.to_nat id), splat, esi. split; [exact Hi|].
      split; [|exact He]. rewrite Z.add_0_l, Z2Nat.id by lia. exact Ei.
Qed.

End ConstructionFacts.

(** ** The SplatTree constructor *)

(** C10: the constructor throws [std::length_error] whenever the splat
    vector has more elements than [size_type] can count.  The outcome does
    not depend on the grid nor on the splats' bounds, not even on whether
    the rest of the constructor would fail for them: the check comes before
    anything is built, and no tree is returned. *)
Theorem SplatTree_length_error (Splat Grid : Type)
    (numVertices : Grid -> Z * Z * Z)
    (vertexBounds : Grid -> Splat -> (Z * Z * Z) * (Z * Z * Z))
    (digits : Z) (splats : list Splat) (grid : Grid) :
  SplatTree.size_max digits < Z.of_nat (length splats) ->
  SplatTree.construct Splat Grid numVertices vertexBounds digits splats grid
  = Throw LengthError.
Proof.
  intros H. unfold SplatTree.construct, MLSGPU_ASSERT.
  destruct (Z.leb_spec (Z.of_nat (length splats)) (SplatTree.size_max digits));
    [lia | reflexivity].
Qed.

Lemma SplatTree_length_error_witness :
  SplatTree.construct unit unit (fun _ => (2, 2, 2))
    (fun _ _ => ((0, 0, 0), (1, 1, 1))) 2 [tt; tt; tt; tt] tt
  = Throw LengthError.
Proof.
  apply SplatTree_length_error. unfold SplatTree.size_max. cbn. lia.
Defined.

(** C4, amended: when the constructor returns a tree, the octree's cells
    can be numbered in [size_type] ([levels_fit]) and [ids.size()] fits
    [size_type], then [start] is non-decreasing, [start.back()] is
    [ids.size()], and for every cell [c] the slice
    [ids[start[c] .. start[c+1])] holds exactly the splats that resolve to
    [c], in strictly increasing order of splat index. *)
Theorem SplatTree_start_ids (Splat Grid : Type)
    (numVertices : Grid -> Z * Z * Z)
    (vertexBounds : Grid -> Splat -> (Z * Z * Z) * (Z * Z * Z))
    (digits : Z) (splats : list Splat) (grid : Grid) (maxLevel : Z)
    (tree : SplatTree.t) :
  0 < digits <= SplatTree.uint_digits ->
  SplatTree.construct Splat Grid numVertices vertexBounds digits splats grid
  = Ret tree ->
  SplatTree.levels_fit Grid numVertices digits grid maxLevel ->
  Z.of_nat (length (SplatTree.ids tree)) <= SplatTree.size_max digits ->
  StronglySorted Z.le (SplatTree.start tree)
  /\ last (SplatTree.start tree) = Some (Z.of_nat (length (SplatTree.ids tree)))
  /\ forall c : nat, (S c < length (SplatTree.start tree))%nat ->
       exists a b,
         SplatTree.start tree !! c = Some a
         /\ SplatTree.start tree !! S c = Some b
         /\ 0 <= a <= b
         /\ let slice := take (Z.to_nat (b - a))
                              (drop (Z.to_nat a) (SplatTree.ids tree)) in
            (forall id, id ∈ slice <->
                        SplatTree.resolves Splat Grid numVertices vertexBounds
                                           digits grid splats id (Z.of_nat c))
            /\ StronglySorted Z.lt slice.
Proof.
  intros Hd Ector Hfit Hsize.
  exact (construct_arrays Splat Grid numVertices vertexBounds digits Hd
           splats grid maxLevel tree Hfit Ector Hsize).
Qed.

Lemma SplatTree_start_ids_witness :
  let tree := SplatTree.mk [0; 1; 9] [0; 0; 1; 2; 3; 4; 5; 6; 7; 9]
                           [0; 0; 0; 0; 0; 0; 0; 0; 1] in
  StronglySorted Z.le (SplatTree.start tree)
  /\ last (SplatTree.start tree) = Some (Z.of_nat (length (SplatTree.ids tree))).
Proof.
  intros tree.
  pose proof (SplatTree_start_ids ((Z * Z * Z) * (Z * Z * Z)) (Z * Z * Z)
                (fun g => g) (fun _ s => s) 32
                [((0, 0, 0), (1, 1, 1)); ((1, 1, 1), (1, 1, 1))] (2, 2, 2) 1 tree)
    as H.
  destruct H as (H1 & H2 & _).
  - unfold SplatTree.uint_digits. lia.
  - vm_compute. reflexivity.
  - split; [|split]; [vm_compute; reflexivity | vm_compute; reflexivity | lia].
  - vm_compute. discriminate.
  - split; assumption.
Defined.

(** ** The counters of the constructor overflow *)

Section Overflow.

Import SplatTree.

(** A 2 x 2 x 2 grid of vertices and splats that each touch all eight
    vertices: every splat lies inside the grid's vertex extents and
    contributes eight entries on level 1. *)
Local Abbreviation nv := (fun _ : unit => (2, 2, 2)).
Local Abbreviation vb := (fun _ _ : unit => ((0, 0, 0), (1, 1, 1))).

Lemma overflow_levels_fit : levels_fit unit nv 32 tt 1.
Proof.
  split; [|split]; [vm_compute; reflexivity | vm_compute; reflexivity | lia].
Qed.

Lemma overflow_all_entries (n : nat) : forall id0,
  exists es,
    all_entries unit unit nv vb 32 tt 1 (make_levelStart 32 1) id0
                (replicate n tt) = Ret es
    /\ Z.of_nat (length es) = 8 * Z.of_nat n.
Proof.
  induction n as [|n IH]; intros id0.
  - exists []. split; reflexivity.
  - destruct (IH (id0 + 1)) as (es' & Ees' & Hlen').
    assert (exists es1,
               splat_entries unit unit nv vb 32 tt 1 (make_levelStart 32 1) id0 tt
               = Ret es1 /\ length es1 = 8%nat) as (es1 & Ees1 & Hlen1).
    { eexists. split; [vm_compute; reflexivity | reflexivity]. }
    exists (es1 ++ es'). split.
    + change (replicate (S n) tt) with (tt :: replicate n tt).
      cbn [all_entries]. rewrite Ees1. cbn [mbind outcome_bind bind].
      rewrite Ees'. reflexivity.
    + rewrite length_app. lia.
Qed.

(** With [n] splats the constructor returns a tree whose [start.back()] is
    [8 * n] reduced modulo [2 ^ 32], while [ids] has [8 * n] elements. *)
Lemma overflow_tree (n : nat) :
  Z.of_nat n <= size_max 32 ->
  exists tree,
    construct unit unit nv vb 32 (replicate n tt) tt = Ret tree
    /\ last (start tree) = Some (wrap 32 (8 * Z.of_nat n))
    /\ Z.of_nat (length (ids tree)) = 8 * Z.of_nat n.
Proof.
  intros Hn.
  assert (0 < 32 <= uint_digits) as Hd by (unfold uint_digits; lia).
  destruct (overflow_all_entries n 0) as (es & Ees & Hlen).
  destruct (construct_returns unit unit nv vb 32 (replicate n tt) tt 1 es)
    as (tree & Etree).
  { rewrite length_replicate. exact Hn. }
  { vm_compute. reflexivity. }
  { exact Ees. }
  exists tree. split; [exact Etree|].
  destruct (construct_spec unit unit nv vb 32 Hd _ _ _ _
              overflow_levels_fit Etree)
    as (es0 & Ees0 & Hids & Hslen & Hlook).
  rewrite Ees in Ees0. injection Ees0 as <-.
  destruct (all_entries_spec unit unit nv vb 32 Hd tt 1 overflow_levels_fit
              _ _ _ Ees) as (HF & _ & _).
  assert (Z.of_nat (length (stable_sort es)) = 8 * Z.of_nat n) as Hlen'.
  { rewrite (Permutation_length (stable_sort_perm es)). exact Hlen. }
  split.
  - rewrite last_lookup, Hslen. cbn [pred]. rewrite Hlook by (rewrite Hslen; lia).
    f_equal. f_equal. rewrite <- Hlen'. apply cntlt_all.
    rewrite stable_sort_perm. eapply Forall_impl; [exact HF|].
    cbn beta. intros e (_ & _ & Hlt).
    change (Z.of_nat (Z.to_nat (geo (Z.to_nat (1 + 1))))) with 9.
    change (geo (Z.to_nat (1 + 1))) with 9 in Hlt. exact Hlt.
  - rewrite Hids, length_fmap. exact Hlen'.
Qed.

End Overflow.

(** C4 as the specification words it fails.  Take [2 ^ 29] splats in a
    grid of 2 x 2 x 2 vertices, each splat touching all eight vertices,
    with a 32-bit [size_type].  The vector's size is within [size_type],
    every splat lies inside the grid's vertex extents, and the constructor
    returns; but [ids] has [2 ^ 32] elements and [start.back()] is 0. *)
Lemma SplatTree_start_back_overflow :
  let splats := replicate (Z.to_nat (2 ^ 29)) tt in
  Z.of_nat (length splats) <= SplatTree.size_max 32
  /\ exists tree,
       SplatTree.construct unit unit (fun _ => (2, 2, 2))
         (fun _ _ => ((0, 0, 0), (1, 1, 1))) 32 splats tt = Ret tree
       /\ last (SplatTree.start tree) = Some 0
       /\ Z.of_nat (length (SplatTree.ids tree)) = 2 ^ 32.
Proof.
  intros splats. subst splats.
  assert (Z.of_nat (Z.to_nat (2 ^ 29)) = 2 ^ 29) as HN by (apply Z2Nat.id; lia).
  generalize dependent (Z.to_nat (2 ^ 29)). intros n HN.
  assert (Z.of_nat n <= SplatTree.size_max 32) as Hn
      by (rewrite HN; unfold SplatTree.size_max; lia).
  split; [rewrite length_replicate; exact Hn|].
  destruct (overflow_tree n Hn) as (tree & Etree & Hlast & Hlen).
  exists tree. split; [exact Etree|].
  rewrite Hlast, Hlen, HN. split; reflexivity.
Qed.

(** ** Geometry of grids and octree nodes *)

Section GridFacts.

Import Bucketer.

Lemma extentsIntersect_true a b :
  extentsIntersect a b = true <-> fst a < snd b /\ fst b < snd a.
Proof.
  unfold extentsIntersect. rewrite negb_true_iff, orb_false_iff, !Z.leb_gt. lia.
Qed.

Lemma extentsIntersect_false a b :
  extentsIntersect a b = false <-> snd a <= fst b \/ snd b <= fst a.
Proof.
  unfold extentsIntersect. rewrite negb_false_iff, orb_true_iff, !Z.leb_le. lia.
Qed.

Lemma gridsIntersect_true a b :
  gridsIntersect a b = true <->
  let '(ax, ay, az) := a in
  let '(bx, b_y, bz) := b in
  extentsIntersect ax bx = true /\ extentsIntersect ay b_y = true
  /\ extentsIntersect az bz = true.
Proof.
  destruct a as [[ax ay] az], b as [[bx b_y] bz]. unfold gridsIntersect.
  rewrite !andb_true_iff. tauto.
Qed.

Lemma subGrid_refl g : subGrid g g.
Proof. destruct g as [[? ?] ?]. unfold subGrid, extentSub. lia. Qed.

Lemma subGrid_trans a b c : subGrid a b -> subGrid b c -> subGrid a c.
Proof.
  destruct a as [[? ?] ?], b as [[? ?] ?], c as [[? ?] ?].
  unfold subGrid, extentSub. lia.
Qed.

(** A grid that meets a sub-grid meets the grid around it. *)
Lemma gridsIntersect_sub a b c :
  subGrid a b -> gridsIntersect a c = true -> gridsIntersect b c = true.
Proof.
  rewrite !gridsIntersect_true.
  destruct a as [[ax ay] az], b as [[bx b_y] bz], c as [[cx cy] cz].
  unfold subGrid, extentSub. rewrite !extentsIntersect_true. lia.
Qed.

(** Sub-grids of disjoint grids are disjoint. *)
Lemma disjoint_sub a b a' b' :
  subGrid a' a -> subGrid b' b -> disjoint a b -> disjoint a' b'.
Proof.
  unfold disjoint. intros Ha Hb Hd.
  destruct (gridsIntersect a' b') eqn:E; [|reflexivity].
  apply (gridsIntersect_sub a' a b' Ha) in E.
  assert (gridsIntersect a b = true) as E'.
  { apply gridsIntersect_true. apply gridsIntersect_true in E.
    destruct a as [[ax ay] az], b as [[bx b_y] bz], b' as [[cx cy] cz].
    unfold subGrid, extentSub in Hb. rewrite !extentsIntersect_true in *. lia. }
  congruence.
Qed.

Lemma disjoint_sym a b : disjoint a b -> disjoint b a.
Proof.
  unfold disjoint. intros H.
  destruct (gridsIntersect b a) eqn:E; [|reflexivity].
  rewrite <- H. symmetry. apply gridsIntersect_true.
  apply gridsIntersect_true in E.
  destruct a as [[ax ay] az], b as [[bx b_y] bz].
  rewrite !extentsIntersect_true in *. lia.
Qed.

(** Two grids that share a cell intersect. *)
Lemma cellIn_intersect p a b :
  cellIn p a -> cellIn p b -> gridsIntersect a b = true.
Proof.
  destruct p as [[px py] pz], a as [[ax ay] az], b as [[bx b_y] bz].
  unfold cellIn, extentIn. intros Ha Hb.
  apply gridsIntersect_true. rewrite !extentsIntersect_true. lia.
Qed.

(** Two grids with cells that intersect share a cell. *)
Lemma intersect_cellIn a b :
  nonempty a -> nonempty b -> gridsIntersect a b = true ->
  exists p, cellIn p a /\ cellIn p b.
Proof.
  destruct a as [[ax ay] az], b as [[bx b_y] bz].
  unfold nonempty. intros Ha Hb Hi.
  apply gridsIntersect_true in Hi. rewrite !extentsIntersect_true in Hi.
  exists (Z.max (fst ax) (fst bx), Z.max (fst ay) (fst b_y),
          Z.max (fst az) (fst bz)).
  unfold cellIn, extentIn. lia.
Qed.

Lemma cellIn_sub p a b : subGrid a b -> cellIn p a -> cellIn p b.
Proof.
  destruct p as [[px py] pz], a as [[ax ay] az], b as [[bx b_y] bz].
  unfold subGrid, extentSub, cellIn, extentIn. lia.
Qed.

End GridFacts.

Section NodeFacts.

Import Bucketer.

Variable maxCells leafCells : Z.

Local Abbreviation m := (microSize maxCells leafCells).
Local Abbreviation nodeExtent := (nodeExtent maxCells leafCells).
Local Abbreviation nodeGrid := (nodeGrid maxCells leafCells).
Local Abbreviation microExtents := (microExtents maxCells leafCells).

Lemma nodeGrid_axes ex ey ez n :
  nodeGrid (ex, ey, ez) n
  = (nodeExtent ex (Node.x n) (Z.of_nat (Node.level n)),
     nodeExtent ey (Node.y n) (Z.of_nat (Node.level n)),
     nodeExtent ez (Node.z n) (Z.of_nat (Node.level n))).
Proof.
  destruct ex as [x0 x1], ey as [y0 y1], ez as [z0 z1]. reflexivity.
Qed.

Lemma shiftl_succ X l : 0 <= l -> Z.shiftl X (l + 1) = 2 * Z.shiftl X l.
Proof.
  intros Hl. rewrite !Z.shiftl_mul_pow2 by lia.
  rewrite Z.pow_add_r by lia. change (2 ^ 1) with 2. lia.
Qed.

Lemma shiftl_child X b l :
  0 <= l -> Z.shiftl (2 * X + b) l = Z.shiftl X (l + 1) + b * 2 ^ l.
Proof.
  intros Hl. rewrite !Z.shiftl_mul_pow2 by lia.
  rewrite Z.pow_add_r by lia. change (2 ^ 1) with 2. lia.
Qed.

(** A child's extent lies within its parent's. *)
Lemma nodeExtent_child_sub e X b l :
  0 <= m -> 0 <= l -> 0 <= b <= 1 ->
  extentSub (nodeExtent e (2 * X + b) l) (nodeExtent e X (l + 1)).
Proof.
  intros Hm Hl Hb. unfold Bucketer.nodeExtent, extentSub. cbn [fst snd].
  replace (2 * X + b + 1) with (2 * X + (b + 1)) by lia.
  rewrite !shiftl_child by lia.
  replace (Z.shiftl (X + 1) (l + 1)) with (Z.shiftl X (l + 1) + 2 * 2 ^ l).
  2: { rewrite !Z.shiftl_mul_pow2, Z.pow_add_r by lia. change (2 ^ 1) with 2. lia. }
  assert (0 < 2 ^ l) by (apply Z.pow_pos_nonneg; lia).
  split; nia.
Qed.

(** The two halves of an extent do not intersect. *)
Lemma nodeExtent_siblings e X l :
  extentsIntersect (nodeExtent e (2 * X) l) (nodeExtent e (2 * X + 1) l) = false.
Proof.
  apply extentsIntersect_false. left. unfold Bucketer.nodeExtent. cbn [fst snd]. lia.
Qed.

(** A cell of an extent lies in one of its two halves. *)
Lemma nodeExtent_split e X l p :
  0 <= l ->
  extentIn p (nodeExtent e X (l + 1)) ->
  extentIn p (nodeExtent e (2 * X) l)
  \/ extentIn p (nodeExtent e (2 * X + 1) l).
Proof.
  intros Hl. unfold Bucketer.nodeExtent, extentIn. cbn [fst snd].
  replace (2 * X + 1 + 1) with (2 * (X + 1)) by lia.
  replace (Z.shiftl (2 * X) l) with (Z.shiftl X (l + 1)).
  2: { rewrite !Z.shiftl_mul_pow2, Z.pow_add_r by lia. change (2 ^ 1) with 2. lia. }
  replace (Z.shiftl (2 * (X + 1)) l) with (Z.shiftl (X + 1) (l + 1)).
  2: { rewrite !Z.shiftl_mul_pow2, Z.pow_add_r by lia. change (2 ^ 1) with 2. lia. }
  lia.
Qed.

Lemma ceilDiv_gt a h :
  0 < m -> (a < ceilDiv h m <-> a * m < h).
Proof.
  intros Hm. unfold ceilDiv. split; intros H.
  - assert (a + 1 <= (h + m - 1) / m) as H1 by lia.
    pose proof (Z.mul_div_le (h + m - 1) m Hm). nia.
  - assert (a + 1 <= (h + m - 1) / m); [|lia].
    apply Z.div_le_lower_bound; lia.
Qed.

(** An extent that holds a cell belongs to a node inside the region. *)
Lemma nodeExtent_inside e X l p :
  0 < m -> 0 <= l ->
  extentIn p (nodeExtent e X l) ->
  Z.shiftl X l < ceilDiv (numCells1 e) m.
Proof.
  intros Hm Hl. unfold Bucketer.nodeExtent, extentIn. cbn [fst snd]. intros Hp.
  apply ceilDiv_gt; [exact Hm|]. lia.
Qed.

(** The extent of a node inside the region has a cell. *)
Lemma nodeExtent_nonempty e X l :
  0 < m -> 0 <= l ->
  Z.shiftl X l < ceilDiv (numCells1 e) m ->
  fst (nodeExtent e X l) < snd (nodeExtent e X l).
Proof.
  intros Hm Hl Hin. apply ceilDiv_gt in Hin; [|exact Hm].
  unfold Bucketer.nodeExtent. cbn [fst snd].
  assert (Z.shiftl X l * m < Z.shiftl (X + 1) l * m).
  { rewrite !Z.shiftl_mul_pow2 by lia.
    assert (0 < 2 ^ l) by (apply Z.pow_pos_nonneg; lia). nia. }
  lia.
Qed.

(** The root covers the region. *)
Lemma nodeExtent_root e L :
  0 < m -> 0 <= L -> fst e <= snd e ->
  ceilDiv (numCells1 e) m <= 2 ^ L ->
  nodeExtent e 0 L = e.
Proof.
  intros Hm HL He Hc. unfold Bucketer.nodeExtent. destruct e as [lo hi].
  unfold numCells1 in *. cbn [fst snd] in *.
  rewrite Z.shiftl_0_l, Z.shiftl_mul_pow2 by lia.
  assert (hi - lo <= 2 ^ L * m).
  { destruct (Z.le_gt_cases (hi - lo) (2 ^ L * m)) as [|Hgt]; [assumption|].
    apply (proj2 (ceilDiv_gt (2 ^ L) (hi - lo) Hm)) in Hgt. lia. }
  f_equal; lia.
Qed.

(** The extent of a node has at most [2 ^ level * microSize] cells. *)
Lemma nodeExtent_size e X l :
  0 <= m -> 0 <= l ->
  0 <= numCells1 (nodeExtent e X l) <= 2 ^ l * m.
Proof.
  intros Hm Hl. unfold Bucketer.nodeExtent, numCells1. cbn [fst snd].
  rewrite !Z.shiftl_mul_pow2 by lia.
  assert (0 < 2 ^ l) by (apply Z.pow_pos_nonneg; lia).
  assert ((X + 1) * 2 ^ l * m = X * 2 ^ l * m + 2 ^ l * m) as -> by lia.
  assert (0 <= 2 ^ l * m) by nia. lia.
Qed.

Lemma octant_cases k :
  0 <= k < 8 ->
  k = 0 \/ k = 1 \/ k = 2 \/ k = 3 \/ k = 4 \/ k = 5 \/ k = 6 \/ k = 7.
Proof. lia. Qed.

Lemma octant_bits k :
  0 <= k < 8 ->
  0 <= Z.land k 1 <= 1 /\ 0 <= Z.land (Z.shiftr k 1) 1 <= 1
  /\ 0 <= Z.land (Z.shiftr k 2) 1 <= 1.
Proof.
  intros Hk. destruct (octant_cases k Hk) as [->|[->|[->|[->|[->|[->|[->| ->]]]]]]];
    vm_compute; repeat split; intros H; discriminate H.
Qed.

Lemma octant_differ k k' :
  0 <= k < 8 -> 0 <= k' < 8 -> k <> k' ->
  Z.land k 1 <> Z.land k' 1
  \/ Z.land (Z.shiftr k 1) 1 <> Z.land (Z.shiftr k' 1) 1
  \/ Z.land (Z.shiftr k 2) 1 <> Z.land (Z.shiftr k' 2) 1.
Proof.
  intros Hk Hk' Hne.
  destruct (octant_cases k Hk) as [->|[->|[->|[->|[->|[->|[->| ->]]]]]]];
    destruct (octant_cases k' Hk') as [->|[->|[->|[->|[->|[->|[->| ->]]]]]]];
    try congruence;
    first [ left; vm_compute; intros H; discriminate H
          | right; left; vm_compute; intros H; discriminate H
          | right; right; vm_compute; intros H; discriminate H ].
Qed.

Lemma octant_make bx b_y bz :
  0 <= bx <= 1 -> 0 <= b_y <= 1 -> 0 <= bz <= 1 ->
  let k := bx + 2 * b_y + 4 * bz in
  0 <= k < 8 /\ Z.land k 1 = bx /\ Z.land (Z.shiftr k 1) 1 = b_y
  /\ Z.land (Z.shiftr k 2) 1 = bz.
Proof.
  intros Hx Hy Hz.
  assert (bx = 0 \/ bx = 1) as [-> | ->] by lia;
    assert (b_y = 0 \/ b_y = 1) as [-> | ->] by lia;
    assert (bz = 0 \/ bz = 1) as [-> | ->] by lia;
    vm_compute; repeat split; try reflexivity; intros H; discriminate H.
Qed.

Lemma elem_of_octants k : k ∈ [0; 1; 2; 3; 4; 5; 6; 7] <-> 0 <= k < 8.
Proof.
  split.
  - intros Hk. repeat (apply elem_of_cons in Hk as [->|Hk]; [lia|]). inversion Hk.
  - intros Hk.
    destruct (octant_cases k Hk) as [->|[->|[->|[->|[->|[->|[->| ->]]]]]]];
      repeat (first [left | right]).
Qed.

Lemma childNode_level n k :
  (0 < Node.level n)%nat ->
  Z.of_nat (Node.level n)
  = Z.of_nat (Node.level (ForEachNode.childNode n k)) + 1.
Proof. intros H. cbn. lia. Qed.

(** A child's sub-grid lies within its parent's. *)
Lemma childNode_sub region n k :
  0 <= m -> (0 < Node.level n)%nat -> 0 <= k < 8 ->
  subGrid (nodeGrid region (ForEachNode.childNode n k)) (nodeGrid region n).
Proof.
  intros Hm Hl Hk. destruct region as [[ex ey] ez].
  rewrite !nodeGrid_axes, (childNode_level n k Hl).
  destruct (octant_bits k Hk) as (Bx & B_y & Bz).
  cbn [ForEachNode.childNode Node.x Node.y Node.z Node.level subGrid].
  repeat split; apply nodeExtent_child_sub; lia.
Qed.

(** Distinct children have disjoint sub-grids. *)
Lemma childNode_disjoint region n k k' :
  0 <= k < 8 -> 0 <= k' < 8 -> k <> k' ->
  disjoint (nodeGrid region (ForEachNode.childNode n k))
           (nodeGrid region (ForEachNode.childNode n k')).
Proof.
  intros Hk Hk' Hne. destruct region as [[ex ey] ez].
  unfold disjoint. rewrite !nodeGrid_axes.
  cbn [ForEachNode.childNode Node.x Node.y Node.z Node.level gridsIntersect].
  destruct (octant_bits k Hk) as (Bx & B_y & Bz).
  destruct (octant_bits k' Hk') as (Bx' & B_y' & Bz').
  assert (Hax : forall e X b b' l, 0 <= b <= 1 -> 0 <= b' <= 1 -> b <> b' ->
            extentsIntersect (nodeExtent e (2 * X + b) l)
                             (nodeExtent e (2 * X + b') l) = false).
  { intros e X b b' l Hb Hb' Hbb.
    assert ((b = 0 /\ b' = 1) \/ (b = 1 /\ b' = 0)) as [[-> ->]|[-> ->]] by lia.
    - rewrite Z.add_0_r. apply nodeExtent_siblings.
    - rewrite Z.add_0_r. apply extentsIntersect_false.
      pose proof (nodeExtent_siblings e X l) as H.
      apply extentsIntersect_false in H. lia. }
  destruct (octant_differ k k' Hk Hk' Hne) as [H|[H|H]].
  - rewrite (Hax ex) by assumption. reflexivity.
  - rewrite (Hax ey) by assumption. rewrite andb_false_r. reflexivity.
  - rewrite (Hax ez) by assumption. apply andb_false_r.
Qed.

(** A cell of a node's sub-grid lies in the sub-grid of one of its
    children. *)
Lemma childNode_split region n p :
  (0 < Node.level n)%nat ->
  cellIn p (nodeGrid region n) ->
  exists k, 0 <= k < 8 /\ cellIn p (nodeGrid region (ForEachNode.childNode n k)).
Proof.
  intros Hl. destruct region as [[ex ey] ez], p as [[px py] pz].
  rewrite nodeGrid_axes.
  replace (Z.of_nat (Node.level n)) with (Z.of_nat (Node.level n - 1) + 1) by lia.
  cbn [cellIn]. intros (Hx & Hy & Hz).
  apply nodeExtent_split in Hx; [|lia].
  apply nodeExtent_split in Hy; [|lia].
  apply nodeExtent_split in Hz; [|lia].
  assert (exists bx, 0 <= bx <= 1
            /\ extentIn px (nodeExtent ex (2 * Node.x n + bx)
                                 (Z.of_nat (Node.level n - 1)))) as (bx & Hbx & Hx').
  { destruct Hx; [exists 0|exists 1]; (split; [lia|]);
      rewrite ?Z.add_0_r; assumption. }
  assert (exists b_y, 0 <= b_y <= 1
            /\ extentIn py (nodeExtent ey (2 * Node.y n + b_y)
                                 (Z.of_nat (Node.level n - 1)))) as (b_y & Hb_y & Hy').
  { destruct Hy; [exists 0|exists 1]; (split; [lia|]);
      rewrite ?Z.add_0_r; assumption. }
  assert (exists bz, 0 <= bz <= 1
            /\ extentIn pz (nodeExtent ez (2 * Node.z n + bz)
                                 (Z.of_nat (Node.level n - 1)))) as (bz & Hbz & Hz').
  { destruct Hz; [exists 0|exists 1]; (split; [lia|]);
      rewrite ?Z.add_0_r; assumption. }
  destruct (octant_make bx b_y bz Hbx Hb_y Hbz) as (Hk & Ex & Ey & Ez).
  exists (bx + 2 * b_y + 4 * bz). split; [exact Hk|].
  rewrite nodeGrid_axes.
  cbn [ForEachNode.childNode Node.x Node.y Node.z Node.level cellIn].
  rewrite Ex, Ey, Ez. auto.
Qed.

(** A node whose sub-grid holds a cell is inside the region. *)
Lemma node_inside region n p :
  0 < m -> cellIn p (nodeGrid region n) ->
  ForEachNode.inside (microExtents region) n = true.
Proof.
  intros Hm. destruct region as [[ex ey] ez], p as [[px py] pz].
  rewrite nodeGrid_axes. cbn [cellIn]. intros (Hx & Hy & Hz).
  apply nodeExtent_inside in Hx; [|lia..].
  apply nodeExtent_inside in Hy; [|lia..].
  apply nodeExtent_inside in Hz; [|lia..].
  unfold ForEachNode.inside, Bucketer.microExtents, numCells, Node.toMicro.
  cbn [fst snd]. rewrite !andb_true_iff, !Z.ltb_lt. auto.
Qed.

(** The sub-grid of a node inside the region has a cell. *)
Lemma node_nonempty region n :
  0 < m -> ForEachNode.inside (microExtents region) n = true ->
  nonempty (nodeGrid region n).
Proof.
  intros Hm. destruct region as [[ex ey] ez].
  unfold ForEachNode.inside, Bucketer.microExtents, numCells, Node.toMicro.
  cbn [fst snd]. rewrite !andb_true_iff, !Z.ltb_lt. intros ((Hx & Hy) & Hz).
  rewrite nodeGrid_axes. cbn [nonempty].
  repeat split; apply nodeExtent_nonempty; lia.
Qed.

(** The root's sub-grid is the region. *)
Lemma root_grid region L :
  0 < m -> nonempty region ->
  ForEachNode.max3 (microExtents region) <= 2 ^ Z.of_nat L ->
  nodeGrid region (Node.mk 0 0 0 L) = region.
Proof.
  intros Hm. destruct region as [[ex ey] ez]. cbn [nonempty].
  intros (Hx & Hy & Hz) Hmax.
  unfold Bucketer.microExtents, numCells, ForEachNode.max3 in Hmax.
  rewrite nodeGrid_axes. cbn [Node.x Node.y Node.z Node.level].
  rewrite !nodeExtent_root; try lia; reflexivity.
Qed.

(** The sub-grid of a node has at most [2 ^ level * microSize] cells on
    each axis. *)
Lemma node_size region n :
  0 <= m ->
  let '(cx, cy, cz) := numCells (nodeGrid region n) in
  0 <= cx <= 2 ^ Z.of_nat (Node.level n) * m
  /\ 0 <= cy <= 2 ^ Z.of_nat (Node.level n) * m
  /\ 0 <= cz <= 2 ^ Z.of_nat (Node.level n) * m.
Proof.
  intros Hm. destruct region as [[ex ey] ez]. rewrite nodeGrid_axes.
  cbn [numCells]. repeat split; apply nodeExtent_size; lia.
Qed.

(** The extent of a node with a coordinate that is not negative lies in
    the region. *)
Lemma nodeExtent_sub e X l :
  0 <= m -> 0 <= l -> 0 <= X -> fst e <= snd e ->
  extentSub (nodeExtent e X l) e.
Proof.
  intros Hm Hl HX He. unfold Bucketer.nodeExtent, extentSub, numCells1.
  cbn [fst snd]. rewrite !Z.shiftl_mul_pow2 by lia.
  assert (0 <= 2 ^ l) by (apply Z.pow_nonneg; lia).
  assert (0 <= X * 2 ^ l * m) by nia.
  assert (0 <= (X + 1) * 2 ^ l * m) by nia.
  lia.
Qed.

Lemma node_sub region n :
  0 <= m -> nonempty region ->
  0 <= Node.x n -> 0 <= Node.y n -> 0 <= Node.z n ->
  subGrid (nodeGrid region n) region.
Proof.
  intros Hm. destruct region as [[ex ey] ez]. cbn [nonempty].
  intros (Hx & Hy & Hz) Hnx Hny Hnz. rewrite nodeGrid_axes. cbn [subGrid].
  repeat split; apply nodeExtent_sub; lia.
Qed.

(** A micro-cell of a node's extent is the micro-cell of the region at the
    node's offset. *)
Lemma nodeExtent_micro e X l x :
  0 < m -> 0 <= l -> 0 <= x ->
  x < ceilDiv (numCells1 (nodeExtent e X l)) m ->
  nodeExtent (nodeExtent e X l) x 0 = nodeExtent e (Z.shiftl X l + x) 0
  /\ Z.shiftl X l + x < ceilDiv (numCells1 e) m.
Proof.
  intros Hm Hl Hx Hin. apply ceilDiv_gt in Hin; [|exact Hm].
  rewrite ceilDiv_gt by exact Hm.
  unfold Bucketer.nodeExtent, numCells1 in *. cbn [fst snd] in *.
  rewrite !Z.shiftl_0_r.
  rewrite (Z.shiftl_mul_pow2 (X + 1)) in * by lia.
  rewrite (Z.shiftl_mul_pow2 X) in * by lia.
  assert (0 < 2 ^ l) as Hp by (apply Z.pow_pos_nonneg; lia).
  replace ((X + 1) * 2 ^ l * m) with (X * 2 ^ l * m + 2 ^ l * m) in * by lia.
  replace ((X * 2 ^ l + x + 1) * m) with (X * 2 ^ l * m + x * m + m) by lia.
  replace ((X * 2 ^ l + x) * m) with (X * 2 ^ l * m + x * m) by lia.
  replace ((x + 1) * m) with (x * m + m) by lia.
  assert (0 <= x * m) as Hxm by nia.
  assert (x * m + m <= 2 ^ l * m) as Hlt.
  { assert (x * m < 2 ^ l * m) by lia. assert (x < 2 ^ l) by nia. nia. }
  generalize dependent (X * 2 ^ l * m). generalize dependent (2 ^ l * m).
  generalize dependent (x * m). intros xm Hxm q Hlt a Hin.
  split; [f_equal|]; lia.
Qed.

(** A micro-cell of a node's sub-grid is a micro-cell of the region. *)
Lemma isMicroCell_node region n g :
  0 < m -> 0 <= Node.x n -> 0 <= Node.y n -> 0 <= Node.z n ->
  isMicroCell maxCells leafCells (nodeGrid region n) g ->
  isMicroCell maxCells leafCells region g.
Proof.
  intros Hm Hnx Hny Hnz (x & y & z & H).
  destruct region as [[ex ey] ez]. rewrite nodeGrid_axes in H.
  unfold isMicroCell, Bucketer.microExtents, numCells in *.
  destruct H as (Hx & Hy & Hz & ->).
  set (l := Z.of_nat (Node.level n)) in *.
  destruct (nodeExtent_micro ex (Node.x n) l x) as [Ex Ix]; [lia..|].
  destruct (nodeExtent_micro ey (Node.y n) l y) as [Ey Iy]; [lia..|].
  destruct (nodeExtent_micro ez (Node.z n) l z) as [Ez Iz]; [lia..|].
  exists (Z.shiftl (Node.x n) l + x), (Z.shiftl (Node.y n) l + y),
         (Z.shiftl (Node.z n) l + z).
  pose proof (proj2 (Z.shiftl_nonneg (Node.x n) l) Hnx).
  pose proof (proj2 (Z.shiftl_nonneg (Node.y n) l) Hny).
  pose proof (proj2 (Z.shiftl_nonneg (Node.z n) l) Hnz).
  repeat (split; [lia|]).
  rewrite !nodeGrid_axes. cbn [Node.x Node.y Node.z Node.level].
  change (Z.of_nat 0) with 0. rewrite Ex, Ey, Ez. reflexivity.
Qed.

End NodeFacts.

(** ** The nodes a traversal visits *)

Section ListFacts.

Context {A K : Type}.

Lemma elem_of_List_filter (f : A -> bool) (l : list A) (x : A) :
  x ∈ List.filter f l <-> x ∈ l /\ f x = true.
Proof. rewrite !list_elem_of_In. apply filter_In. Qed.

Lemma List_filter_bind (f : A -> bool) (g : K -> list A) (ks : list K) :
  List.filter f (ks ≫= g) = ks ≫= (fun k => List.filter f (g k)).
Proof.
  induction ks as [|k ks IH]; [reflexivity|].
  rewrite !bind_cons, List.filter_app, IH. reflexivity.
Qed.

Lemma List_filter_filter_implied (f g : A -> bool) (l : list A) :
  (forall x, f x = true -> g x = true) ->
  List.filter f (List.filter g l) = List.filter f l.
Proof.
  intros Himp. induction l as [|x l IH]; [reflexivity|].
  cbn [List.filter]. destruct (g x) eqn:Eg.
  - cbn [List.filter]. destruct (f x); [f_equal|]; exact IH.
  - destruct (f x) eqn:Ef; [|exact IH].
    rewrite (Himp x Ef) in Eg. discriminate.
Qed.

Lemma StronglySorted_List_filter (R : A -> A -> Prop) (f : A -> bool) l :
  StronglySorted R l -> StronglySorted R (List.filter f l).
Proof.
  induction 1 as [|x l Hs IH Hall]; [constructor|].
  cbn [List.filter]. destruct (f x); [|exact IH].
  constructor; [exact IH|].
  apply Forall_forall. intros y Hy. apply elem_of_List_filter in Hy as [Hy _].
  rewrite Forall_forall in Hall. auto.
Qed.

Lemma StronglySorted_bind (R : A -> A -> Prop) (g : K -> list A) ks :
  (forall k, k ∈ ks -> StronglySorted R (g k)) ->
  StronglySorted (fun k k' => forall a b, a ∈ g k -> b ∈ g k' -> R a b) ks ->
  StronglySorted R (ks ≫= g).
Proof.
  intros Hg Hks. induction Hks as [|k ks Hs IH Hall]; [constructor|].
  rewrite bind_cons. apply StronglySorted_app. split; [|split].
  - intros a b Ha Hb. apply list_elem_of_bind in Hb as (k' & Hb & Hk').
    rewrite Forall_forall in Hall. exact (Hall k' Hk' a b Ha Hb).
  - apply Hg. left.
  - apply IH. intros k' Hk'. apply Hg. right. exact Hk'.
Qed.

Lemma StronglySorted_distinct (R : K -> K -> Prop) ks :
  NoDup ks ->
  (forall k k', k ∈ ks -> k' ∈ ks -> k <> k' -> R k k') ->
  StronglySorted R ks.
Proof.
  induction 1 as [|k ks Hnotin Hnd IH]; intros HR; [constructor|].
  constructor.
  - apply IH. intros k1 k2 H1 H2. apply HR; right; assumption.
  - apply Forall_forall. intros k' Hk'. apply HR; [left|right; exact Hk'|].
    intros ->. contradiction.
Qed.

End ListFacts.

Section SubtreeFacts.

Import Bucketer.

Variable maxCells leafCells : Z.
Variable region : grid.
Variable descend : Node.t -> bool.

Local Abbreviation m := (microSize maxCells leafCells).
Local Abbreviation box := (nodeGrid maxCells leafCells region).
Local Abbreviation dims := (microExtents maxCells leafCells region).
Local Abbreviation subtree := (ForEachNode.subtree dims descend).
Local Abbreviation terminal := (ForEachNode.terminal descend).

Hypothesis m_pos : 0 < m.

(** Every visited node lies within the node the traversal starts at, on a
    level that is not higher; every visited node but the first is inside
    the region and on a lower level. *)
Lemma subtree_within depth : forall n v,
  Node.level n = depth -> v ∈ subtree depth n ->
  subGrid (box v) (box n)
  /\ (v = n \/ ((Node.level v < Node.level n)%nat
                /\ ForEachNode.inside dims v = true)).
Proof using m_pos.
  induction depth as [|d IH]; intros n v Hl; cbn [ForEachNode.subtree];
    rewrite Hl; intros Hv; apply elem_of_cons in Hv as [->|Hv];
    try (split; [apply subGrid_refl | left; reflexivity]).
  - rewrite andb_false_r in Hv. inversion Hv.
  - destruct (descend n && (0 <? Z.of_nat (S d))); [|inversion Hv].
    apply list_elem_of_bind in Hv as (k & Hv & Hk).
    apply elem_of_octants in Hk.
    destruct (ForEachNode.inside dims (ForEachNode.childNode n k)) eqn:Ein;
      [|inversion Hv].
    destruct (IH (ForEachNode.childNode n k) v) as (Hsub & Hlev);
      [cbn; lia | exact Hv |].
    split.
    + eapply subGrid_trans; [exact Hsub|]. apply childNode_sub; lia.
    + right. destruct Hlev as [->|[Hlt Hin]]; [split; [cbn; lia|exact Ein]|].
      split; [|exact Hin]. cbn in Hlt. lia.
Qed.

(** Every cell of the starting node's sub-grid lies in the sub-grid of a
    visited node below which the traversal does not go. *)
Lemma subtree_covers depth : forall n p,
  Node.level n = depth -> cellIn p (box n) ->
  exists v, v ∈ subtree depth n /\ cellIn p (box v) /\ terminal v = true.
Proof using m_pos.
  induction depth as [|d IH]; intros n p Hl Hp; cbn [ForEachNode.subtree];
    unfold ForEachNode.terminal; rewrite Hl.
  - exists n. split; [left|]. split; [exact Hp|].
    rewrite Hl, andb_false_r. reflexivity.
  - destruct (descend n) eqn:Ed; cbn [andb].
    2: { exists n. split; [left|]. split; [exact Hp|]. rewrite Ed. reflexivity. }
    change (0 <? Z.of_nat (S d)) with true. cbv iota.
    destruct (childNode_split maxCells leafCells region n p) as (k & Hk & Hpk);
      [lia | exact Hp |].
    destruct (IH (ForEachNode.childNode n k) p) as (v & Hv & Hpv & Htv);
      [cbn; lia | exact Hpk |].
    exists v. split; [|split; [exact Hpv | exact Htv]].
    right. apply list_elem_of_bind. exists k.
    split; [|apply elem_of_octants; exact Hk].
    rewrite (node_inside maxCells leafCells region _ p m_pos Hpk). exact Hv.
Qed.

(** The sub-grids of the visited nodes below which the traversal does not
    go are pairwise disjoint. *)
Lemma subtree_disjoint depth : forall n,
  Node.level n = depth ->
  StronglySorted (fun a b => disjoint (box a) (box b))
                 (List.filter terminal (subtree depth n)).
Proof using m_pos.
  induction depth as [|d IH]; intros n Hl; cbn [ForEachNode.subtree List.filter];
    unfold ForEachNode.terminal at 1; rewrite Hl.
  - rewrite !andb_false_r. cbn. repeat constructor.
  - destruct (descend n) eqn:Ed; cbn [andb negb].
    2: { repeat constructor. }
    change (0 <? Z.of_nat (S d)) with true. cbn [negb].
    rewrite List_filter_bind. apply StronglySorted_bind.
    + intros k Hk.
      destruct (ForEachNode.inside dims (ForEachNode.childNode n k));
        [|constructor].
      apply IH. cbn. lia.
    + apply StronglySorted_distinct.
      { repeat (apply NoDup_cons; split;
                [rewrite elem_of_octants || idtac; intros Hin;
                 repeat (apply elem_of_cons in Hin as [Hin|Hin]; [lia|]);
                 inversion Hin|]).
        constructor. }
      intros k k' Hk Hk' Hne a b Ha Hb.
      apply elem_of_octants in Hk, Hk'.
      apply elem_of_List_filter in Ha as [Ha _].
      apply elem_of_List_filter in Hb as [Hb _].
      destruct (ForEachNode.inside dims (ForEachNode.childNode n k));
        [|inversion Ha].
      destruct (ForEachNode.inside dims (ForEachNode.childNode n k'));
        [|inversion Hb].
      assert (Node.level (ForEachNode.childNode n k) = d) as Hlk by (cbn; lia).
      assert (Node.level (ForEachNode.childNode n k') = d) as Hlk' by (cbn; lia).
      destruct (subtree_within d _ _ Hlk Ha) as [Hsa _].
      destruct (subtree_within d _ _ Hlk' Hb) as [Hsb _].
      eapply disjoint_sub; [exact Hsa | exact Hsb |].
      apply childNode_disjoint; assumption.
Qed.

(** The coordinates of the visited nodes are not negative. *)
Lemma subtree_nonneg depth : forall n v,
  0 <= Node.x n -> 0 <= Node.y n -> 0 <= Node.z n ->
  v ∈ subtree depth n ->
  0 <= Node.x v /\ 0 <= Node.y v /\ 0 <= Node.z v.
Proof.
  induction depth as [|d IH]; intros n v Hx Hy Hz; cbn [ForEachNode.subtree];
    intros Hv; apply elem_of_cons in Hv as [->|Hv]; auto.
  - destruct (descend n && (0 <? Z.of_nat (Node.level n))); inversion Hv.
  - destruct (descend n && (0 <? Z.of_nat (Node.level n))); [|inversion Hv].
    apply list_elem_of_bind in Hv as (k & Hv & Hk).
    apply elem_of_octants in Hk.
    destruct (ForEachNode.inside dims (ForEachNode.childNode n k));
      [|inversion Hv].
    apply (IH (ForEachNode.childNode n k) v); [| | |exact Hv]; cbn;
      match goal with
      | |- 0 <= 2 * _ + Z.land ?a 1 =>
          assert (0 <= Z.land a 1) by (apply Z.land_nonneg; right; lia); lia
      end.
Qed.

End SubtreeFacts.

(** ** The ranges of a bucket *)

Section CollectFacts.

Import Bucketer.

Lemma Range_append_cases r s i :
  (Range.size r = 0 /\ Range.append r s i = (true, Range.mk s 1 i))
  \/ (Range.size r <> 0 /\ s = Range.scan r
      /\ i = Range.start r + Range.size r
      /\ Range.append r s i
         = (true, Range.mk (Range.scan r) (Range.size r + 1) (Range.start r)))
  \/ (Range.size r <> 0 /\ s = Range.scan r
      /\ Range.start r <= i < Range.start r + Range.size r
      /\ Range.append r s i = (true, r))
  \/ (Range.size r <> 0 /\ Range.append r s i = (false, r)).
Proof.
  unfold Range.append.
  destruct (Z.eqb_spec (Range.size r) 0) as [E0|N0]; [left; auto|right].
  destruct (Z.eqb_spec s (Range.scan r)) as [Es|Ns];
    destruct (Z.eqb_spec i (Range.start r + Range.size r)) as [Ei|Ni];
    destruct (Z.ltb_spec (Range.size r) Range.size_max) as [Lt|Ge];
    destruct (Z.leb_spec (Range.start r) i) as [Lo|Lo];
    destruct (Z.ltb_spec i (Range.start r + Range.size r)) as [Hi|Hi];
    cbn [andb]; auto 10; try (right; left; repeat split; auto; lia).
Qed.

Lemma append_covered c s' i' :
  0 <= Range.size (RangeCollector.current c) ->
  0 <= Range.size (RangeCollector.current (RangeCollector.append c s' i'))
  /\ forall s i,
       covered (RangeCollector.append c s' i') s i
       <-> covered c s i \/ (s = s' /\ i = i').
Proof.
  intros Hsize. destruct c as [cur out]. cbn [RangeCollector.current] in Hsize.
  unfold RangeCollector.append, covered, covers.
  cbn [RangeCollector.current RangeCollector.out].
  destruct (Range_append_cases cur s' i')
    as [(E0 & ->)|[(N0 & Es & Ei & ->)|[(N0 & Es & Hin & ->)|(N0 & ->)]]];
    cbn [RangeCollector.current RangeCollector.out Range.size Range.scan
         Range.start Range.single].
  - split; [lia|]. intros s i. split.
    + intros [H|H]; [left; left; exact H | right; lia].
    + intros [[H|H]|H]; [left; exact H | lia | right; lia].
  - split; [lia|]. intros s i. split.
    + intros [H|H]; [left; left; exact H|].
      destruct (Z.eq_dec i i') as [->|Hne]; [right; lia | left; right; lia].
    + intros [[H|H]|H]; [left; exact H | right; lia | right; lia].
  - split; [lia|]. intros s i. split.
    + intros H; left; exact H.
    + intros [H|H]; [exact H | right; lia].
  - split; [lia|]. intros s i. split.
    + intros [(r & Hr & Hc)|Hc].
      * apply elem_of_app in Hr as [Hr|Hr].
        -- left. left. eauto.
        -- apply list_elem_of_singleton in Hr as ->. left. right. exact Hc.
      * right. lia.
    + intros [[(r & Hr & Hc)|Hc]|Hc].
      * left. exists r. split; [apply elem_of_app; left; exact Hr | exact Hc].
      * left. exists cur. split; [|exact Hc].
        apply elem_of_app. right. apply list_elem_of_singleton. reflexivity.
      * right. lia.
Qed.

Lemma appendAll_covered ids : forall c,
  0 <= Range.size (RangeCollector.current c) ->
  0 <= Range.size (RangeCollector.current (RangeCollector.appendAll c ids))
  /\ forall s i,
       covered (RangeCollector.appendAll c ids) s i
       <-> covered c s i \/ (s, i) ∈ ids.
Proof.
  unfold RangeCollector.appendAll.
  induction ids as [|[s' i'] ids IH]; intros c Hc; cbn [fold_left fst snd].
  - split; [exact Hc|]. intros s i. rewrite elem_of_nil. tauto.
  - destruct (append_covered c s' i' Hc) as (Hc' & Hcov).
    destruct (IH _ Hc') as (Hc'' & Hcov').
    split; [exact Hc''|]. intros s i.
    rewrite Hcov', Hcov, elem_of_cons. split.
    + intros [[H|[-> ->]]|H]; auto.
    + intros [H|[H|H]]; auto. injection H as -> ->. auto.
Qed.

(** The ranges of a bucket cover exactly the splats collected. *)
Lemma collect_covers splats s i :
  (exists r, r ∈ collect splats /\ covers r s i)
  <-> exists sp, sp ∈ splats /\ scan sp = s /\ index sp = i.
Proof.
  unfold collect, RangeCollector.destroy.
  destruct (appendAll_covered ((fun s => (scan s, index s)) <$> splats)
              (RangeCollector.init []) ltac:(cbn; lia)) as (Hsize & Hcov).
  set (c := RangeCollector.appendAll _ _) in *.
  assert ((exists r, r ∈ RangeCollector.out (RangeCollector.flush c)
                     /\ covers r s i) <-> covered c s i) as ->.
  { unfold RangeCollector.flush, covered.
    destruct (Z.ltb_spec 0 (Range.size (RangeCollector.current c))) as [Hpos|Hz];
      cbn [RangeCollector.out].
    - setoid_rewrite elem_of_app. setoid_rewrite list_elem_of_singleton. split.
      + intros (r & [Hr| ->] & Hc); [left; eauto | right; exact Hc].
      + intros [(r & Hr & Hc)|Hc]; eauto.
    - split; [auto|]. intros [H|H]; [exact H|]. unfold covers in H. lia. }
  rewrite Hcov. unfold covered, RangeCollector.init, covers.
  cbn [RangeCollector.out RangeCollector.current Range.empty Range.size
       Range.scan Range.start].
  rewrite list_elem_of_fmap. split.
  - intros [[(r & Hr & _)|H]|(sp & E & Hsp)].
    + inversion Hr.
    + lia.
    + injection E as -> ->. eauto.
  - intros (sp & Hsp & <- & <-). right. eauto.
Qed.

End CollectFacts.

(** ** The recursion of the bucketing *)

Section FoldFacts.

Context {A B : Type}.

Lemma foldM_concat (F : A -> outcome (list B)) (l : list A) : forall acc r,
  ForEachNode.foldM (fun acc a => bs ← F a; Ret (acc ++ bs)) l acc = Ret r ->
  exists parts,
    Forall2 (fun a bs => F a = Ret bs) l parts /\ r = acc ++ concat parts.
Proof.
  induction l as [|a l IH]; intros acc r; cbn [ForEachNode.foldM].
  - intros E. injection E as <-. exists []. split; [constructor|].
    cbn. rewrite app_nil_r. reflexivity.
  - destruct (F a) as [bs| | |] eqn:Ea; cbn [mbind outcome_bind bind];
      try discriminate.
    intros E. destruct (IH _ _ E) as (parts & HF & ->).
    exists (bs :: parts). split; [constructor; assumption|].
    cbn [concat]. rewrite app_assoc. reflexivity.
Qed.

Lemma foldM_concat_returns (F : A -> outcome (list B)) (l : list A) :
  (forall a, a ∈ l -> exists bs, F a = Ret bs) ->
  forall acc, exists r,
    ForEachNode.foldM (fun acc a => bs ← F a; Ret (acc ++ bs)) l acc = Ret r.
Proof.
  induction l as [|a l IH]; intros HF acc; cbn [ForEachNode.foldM]; [eauto|].
  destruct (HF a ltac:(left)) as (bs & ->). cbn [mbind outcome_bind bind].
  apply IH. intros a' Ha'. apply HF. right. exact Ha'.
Qed.

Lemma elem_of_concat (x : B) (ls : list (list B)) :
  x ∈ concat ls <-> exists l, x ∈ l /\ l ∈ ls.
Proof.
  rewrite list_elem_of_In, in_concat. split.
  - intros (l & Hl & Hx). exists l. rewrite !list_elem_of_In. auto.
  - intros (l & Hx & Hl). exists l. rewrite <- !list_elem_of_In. auto.
Qed.

Lemma StronglySorted_concat (P : A -> list B -> Prop) (RA : A -> A -> Prop)
    (R : B -> B -> Prop) l parts :
  Forall2 P l parts -> StronglySorted RA l ->
  (forall a part, P a part -> StronglySorted R part) ->
  (forall a a' pa pb x y,
      RA a a' -> P a pa -> P a' pb -> x ∈ pa -> y ∈ pb -> R x y) ->
  StronglySorted R (concat parts).
Proof.
  intros HF Hs Hpart Hcross. induction HF as [|a pa l parts HP HF IH];
    [constructor|].
  apply StronglySorted_cons in Hs as [Hall Hs]. cbn [concat].
  apply StronglySorted_app. split; [|split; [eapply Hpart; exact HP | auto]].
  intros x y Hx Hy. apply elem_of_concat in Hy as (pb & Hy & Hpb).
  destruct (Forall2_elem_of_r _ _ _ _ HF Hpb) as (a' & Ha' & HP').
  rewrite Forall_forall in Hall. eapply Hcross; eauto.
Qed.

Lemma fold_left_record (f : A -> bool) (l : list A) : forall acc,
  fold_left (fun acc a => if f a then acc else acc ++ [a]) l acc
  = acc ++ List.filter (fun a => negb (f a)) l.
Proof.
  induction l as [|a l IH]; intros acc; cbn [fold_left List.filter].
  - rewrite app_nil_r. reflexivity.
  - rewrite IH. destruct (f a); cbn [negb]; [reflexivity|].
    rewrite <- app_assoc. reflexivity.
Qed.

End FoldFacts.

Section PassFacts.

Import Bucketer.

Context {S : Type}.

(** A call of [forEachNode] that returns has passed the two checks, and its
    result is the fold of the state update over the visited nodes. *)
Lemma forEachNode_returns_inv MAX_DIM dims levels
    (visit : Node.t -> S -> bool * S) (descend : Node.t -> bool)
    (upd : S -> Node.t -> S) s r :
  (forall n s, visit n s = (descend n, upd s n)) ->
  ForEachNode.forEachNode MAX_DIM dims levels visit s = Ret r ->
  1 <= levels <= Z.log2 MAX_DIM
  /\ ForEachNode.max3 dims <= 2 ^ (levels - 1)
  /\ r = fold_left upd
           (ForEachNode.subtree dims descend (Z.to_nat (levels - 1))
              (Node.mk 0 0 0 (Z.to_nat (levels - 1)))) s.
Proof.
  intros Hv. unfold ForEachNode.forEachNode, MLSGPU_ASSERT.
  destruct (Z.leb_spec 1 levels); cbn [andb mbind outcome_bind bind];
    try discriminate.
  destruct (Z.leb_spec levels (Z.log2 MAX_DIM));
    cbn [andb mbind outcome_bind bind]; try discriminate.
  rewrite Z.shiftl_1_l.
  destruct (Z.leb_spec (ForEachNode.max3 dims) (2 ^ (levels - 1)));
    cbn [mbind outcome_bind bind]; try discriminate.
  rewrite (walk_subtree dims visit descend upd Hv) by reflexivity.
  intros E. injection E as <-. auto.
Qed.

Lemma forEachNode_returns MAX_DIM dims levels
    (visit : Node.t -> S -> bool * S) (descend : Node.t -> bool)
    (upd : S -> Node.t -> S) s :
  (forall n s, visit n s = (descend n, upd s n)) ->
  1 <= levels <= Z.log2 MAX_DIM ->
  ForEachNode.max3 dims <= 2 ^ (levels - 1) ->
  ForEachNode.forEachNode MAX_DIM dims levels visit s
  = Ret (fold_left upd
           (ForEachNode.subtree dims descend (Z.to_nat (levels - 1))
              (Node.mk 0 0 0 (Z.to_nat (levels - 1)))) s).
Proof.
  intros Hv Hl Hmax. unfold ForEachNode.forEachNode, MLSGPU_ASSERT.
  destruct (Z.leb_spec 1 levels); [|lia].
  destruct (Z.leb_spec levels (Z.log2 MAX_DIM)); [|lia].
  cbn [andb mbind outcome_bind bind]. rewrite Z.shiftl_1_l.
  destruct (Z.leb_spec (ForEachNode.max3 dims) (2 ^ (levels - 1))); [|lia].
  cbn [mbind outcome_bind bind].
  apply (walk_subtree dims visit descend upd Hv). reflexivity.
Qed.

End PassFacts.

Section RecurseFacts.

Import Bucketer.

Variable MAX_DIM : Z.
Variable maxSplats maxCells maxSplit leafCells : Z.
Hypothesis maxCells_pos : 0 < maxCells.
Hypothesis leafCells_pos : 0 < leafCells.

Local Abbreviation m := (microSize maxCells leafCells).
Local Abbreviation nodeGrid := (nodeGrid maxCells leafCells).
Local Abbreviation microExtents := (microExtents maxCells leafCells).
Local Abbreviation bucketRecurse :=
  (bucketRecurse MAX_DIM maxSplats maxCells maxSplit leafCells).
Local Abbreviation bucket_ok := (bucket_ok maxSplats maxCells).
Local Abbreviation histUpdate := (histUpdate maxCells leafCells).
Local Abbreviation pickDescend := (pickDescend maxSplats maxCells leafCells).

Lemma m_pos : 0 < m.
Proof using maxCells_pos leafCells_pos. unfold microSize. lia. Qed.

Lemma m_le_maxCells : m <= maxCells.
Proof. unfold microSize. lia. Qed.

Lemma histVisit_form region splats n w :
  histVisit maxCells leafCells region splats n w
  = (true, histUpdate region splats w n).
Proof. reflexivity. Qed.

Lemma pickVisit_form region splats rootLevel target n picked :
  pickVisit maxSplats maxCells leafCells region splats rootLevel target n picked
  = (pickDescend region splats rootLevel target n,
     if pickDescend region splats rootLevel target n
     then picked else picked ++ [n]).
Proof.
  unfold Bucketer.pickVisit, Bucketer.pickDescend.
  destruct (Node.level n =? rootLevel)%nat; cbn [orb]; [reflexivity|].
  destruct (violates _ _ _ _ && _); reflexivity.
Qed.

(** The histogram pass keeps the largest count among the micro-cells it
    visits. *)
Lemma hist_fold region splats V : forall w0,
  let w := fold_left (histUpdate region splats) V w0 in
  w0 <= w
  /\ (forall v, v ∈ V -> Node.level v = 0%nat ->
        countSplats (nodeGrid region v) splats <= w)
  /\ (w = w0 \/ exists v, v ∈ V /\ Node.level v = 0%nat
                          /\ countSplats (nodeGrid region v) splats = w).
Proof.
  induction V as [|n V IH]; intros w0; cbn [fold_left].
  - split; [lia|]. split; [|left; reflexivity]. intros v Hv. inversion Hv.
  - destruct (IH (histUpdate region splats w0 n)) as (Hge & Hbound & Hatt).
    set (w := fold_left _ V _) in *.
    unfold Bucketer.histUpdate in Hge, Hatt.
    destruct (Nat.eqb_spec (Node.level n) 0) as [E0|N0].
    + split; [lia|]. split.
      * intros v Hv Hl. apply elem_of_cons in Hv as [->|Hv]; [lia|].
        apply Hbound; assumption.
      * destruct Hatt as [Hw|(v & Hv & Hl & Hc)].
        -- destruct (Z.max_spec w0 (countSplats (nodeGrid region n) splats))
             as [[_ Em]|[_ Em]].
           ++ right. exists n. split; [left|]. split; [exact E0|]. lia.
           ++ left. lia.
        -- right. exists v. split; [right; exact Hv|]. auto.
    + split; [lia|]. split.
      * intros v Hv Hl. apply elem_of_cons in Hv as [->|Hv]; [lia|].
        apply Hbound; assumption.
      * destruct Hatt as [Hw|(v & Hv & Hl & Hc)]; [left; exact Hw|].
        right. exists v. split; [right; exact Hv|]. auto.
Qed.

(** Two nodes of one level whose sub-grids share a cell are the same. *)
Lemma same_level_same_node region a b p :
  Node.level a = Node.level b ->
  cellIn p (nodeGrid region a) -> cellIn p (nodeGrid region b) -> a = b.
Proof using maxCells_pos leafCells_pos.
  pose proof m_pos as Hm.
  destruct region as [[ex ey] ez], p as [[px py] pz].
  destruct a as [xa ya za la], b as [xb yb zb lb]. cbn [Node.level].
  intros <-. rewrite !nodeGrid_axes. cbn [Node.x Node.y Node.z Node.level cellIn].
  assert (Hax : forall e X X' q,
            extentIn q (nodeExtent maxCells leafCells e X (Z.of_nat la)) ->
            extentIn q (nodeExtent maxCells leafCells e X' (Z.of_nat la)) ->
            X = X').
  { intros e X X' q. unfold Bucketer.nodeExtent, extentIn. cbn [fst snd].
    rewrite !Z.shiftl_mul_pow2 by lia.
    assert (0 < 2 ^ Z.of_nat la) by (apply Z.pow_pos_nonneg; lia).
    set (s := 2 ^ Z.of_nat la) in *. intros H1 H2.
    assert (0 < s * m) by nia.
    destruct (Z.lt_trichotomy X X') as [Hlt|[Heq|Hgt]]; [|exact Heq|].
    - assert ((X + 1) * s * m <= X' * s * m) by nia. lia.
    - assert ((X' + 1) * s * m <= X * s * m) by nia. lia. }
  intros (Hx & Hy & Hz) (Hx' & Hy' & Hz').
  rewrite (Hax _ _ _ _ Hx Hx'), (Hax _ _ _ _ Hy Hy'), (Hax _ _ _ _ Hz Hz').
  reflexivity.
Qed.

Lemma countSplats_all g splats :
  Forall (fun s => gridsIntersect g (cube s) = true) splats ->
  List.filter (fun s => gridsIntersect g (cube s)) splats = splats.
Proof.
  induction 1 as [|s l Hs _ IH]; [reflexivity|].
  cbn [List.filter]. rewrite Hs, IH. reflexivity.
Qed.

(** Step 3: a region that meets the constraints is emitted as it is. *)
Lemma emit_spec region splats :
  splats <> [] ->
  Forall (fun s => gridsIntersect region (cube s) = true) splats ->
  ForEachNode.max3 (numCells region) <= maxCells ->
  Z.of_nat (length splats) <= maxSplats ->
  let bs := [mkBucket region (collect splats) (Z.of_nat (length splats))] in
  Forall (bucket_ok region splats) bs
  /\ StronglySorted (fun a b => disjoint (bgrid a) (bgrid b)) bs
  /\ forall s, s ∈ splats -> nonempty (cube s) ->
       exists b, b ∈ bs /\ gridsIntersect (bgrid b) (cube s) = true.
Proof.
  intros Hne Hall Hcells Hcount bs. subst bs. split; [|split].
  - constructor; [|constructor]. unfold Bucketer.bucket_ok.
    cbn [bgrid ranges numSplats]. rewrite countSplats_all by exact Hall.
    split; [apply subGrid_refl|]. split; [exact Hcells|].
    split; [|split; reflexivity].
    destruct splats; [congruence|]. cbn [length] in *. lia.
  - repeat constructor.
  - intros s Hs _. eexists. split; [left|]. cbn [bgrid].
    rewrite Forall_forall in Hall. auto.
Qed.

Lemma Forall2_with_elem_of {A B} (P : A -> B -> Prop) l k :
  Forall2 P l k -> Forall2 (fun a b => a ∈ l /\ P a b) l k.
Proof.
  induction 1 as [|a b l k HP _ IH]; [constructor|].
  constructor; [split; [left|exact HP]|].
  eapply Forall2_impl; [exact IH|]. cbn. intros a' b' [Ha' HP'].
  split; [right; exact Ha'|exact HP'].
Qed.

(** A bucket that is right for a sub-region and the splats that intersect
    it is right for the region and its splats. *)
Lemma bucket_ok_sub region g splats b :
  subGrid g region ->
  bucket_ok g (List.filter (fun s => gridsIntersect g (cube s)) splats) b ->
  bucket_ok region splats b.
Proof.
  intros Hsub (Hb & Hcells & Hcount & Hranges & Hnum).
  assert (List.filter (fun s => gridsIntersect (bgrid b) (cube s))
            (List.filter (fun s => gridsIntersect g (cube s)) splats)
          = List.filter (fun s => gridsIntersect (bgrid b) (cube s)) splats) as E.
  { apply List_filter_filter_implied. intros s.
    apply gridsIntersect_sub. exact Hb. }
  rewrite E in Hranges, Hnum. unfold Bucketer.bucket_ok.
  split; [eapply subGrid_trans; eassumption|]. auto.
Qed.

(** The nodes the picking pass records: they are proper sub-nodes of the
    root, inside the region, with pairwise disjoint sub-grids. *)
Lemma picked_nodes region splats rootLevel target :
  nonempty region ->
  ForEachNode.max3 (microExtents region) <= 2 ^ Z.of_nat rootLevel ->
  let V := ForEachNode.subtree (microExtents region)
             (pickDescend region splats rootLevel target) rootLevel
             (Node.mk 0 0 0 rootLevel) in
  let picked := List.filter
                  (fun n => negb (pickDescend region splats rootLevel target n)) V in
  (forall v, v ∈ picked ->
     subGrid (nodeGrid region v) region /\ nonempty (nodeGrid region v)
     /\ (Node.level v < rootLevel)%nat)
  /\ StronglySorted (fun a b => disjoint (nodeGrid region a) (nodeGrid region b))
       picked.
Proof using maxCells_pos leafCells_pos.
  intros Hne Hmax V picked. pose proof m_pos as Hm. split.
  - intros v Hv. apply elem_of_List_filter in Hv as [Hv Hd].
    destruct (subtree_within maxCells leafCells region _ Hm rootLevel
                (Node.mk 0 0 0 rootLevel) v eq_refl Hv) as (Hsub & Hcase).
    rewrite (root_grid maxCells leafCells region rootLevel Hm Hne Hmax) in Hsub.
    destruct Hcase as [->|[Hlt Hin]].
    + unfold Bucketer.pickDescend in Hd. cbn [Node.level] in Hd.
      rewrite Nat.eqb_refl in Hd. discriminate.
    + split; [exact Hsub|]. split; [|exact Hlt].
      apply node_nonempty; assumption.
  - subst picked.
    rewrite <- (List_filter_filter_implied _
                  (ForEachNode.terminal
                     (pickDescend region splats rootLevel target))).
    + apply StronglySorted_List_filter.
      apply (subtree_disjoint maxCells leafCells region _ Hm). reflexivity.
    + intros n Hn. unfold ForEachNode.terminal.
      apply negb_true_iff in Hn. rewrite Hn. reflexivity.
Qed.

Lemma max3_le d c :
  ForEachNode.max3 d <= c <->
  let '(a, b, e) := d in a <= c /\ b <= c /\ e <= c.
Proof. destruct d as [[a b] e]. unfold ForEachNode.max3. lia. Qed.

(** A micro-cell never violates the cell constraint. *)
Lemma micro_cell_size region v :
  Node.level v = 0%nat ->
  ForEachNode.max3 (numCells (nodeGrid region v)) <= maxCells.
Proof using maxCells_pos leafCells_pos.
  intros Hl. pose proof m_pos. pose proof m_le_maxCells.
  pose proof (node_size maxCells leafCells region v ltac:(lia)) as Hs.
  rewrite Hl in Hs. change (2 ^ Z.of_nat 0) with 1 in Hs.
  apply max3_le. destruct (numCells (nodeGrid region v)) as [[a b] c]. lia.
Qed.

(** When the density check has passed and the region itself violates the
    constraints, every cell of the region lies in the sub-grid of a
    recorded node. *)
Lemma picked_covers region splats rootLevel target :
  nonempty region ->
  ForEachNode.max3 (microExtents region) <= 2 ^ Z.of_nat rootLevel ->
  Forall (fun s => gridsIntersect region (cube s) = true) splats ->
  fold_left (histUpdate region splats)
    (ForEachNode.subtree (microExtents region) (fun _ => true) rootLevel
       (Node.mk 0 0 0 rootLevel)) 0 <= maxSplats ->
  (ForEachNode.max3 (numCells region) <=? maxCells)
  && (Z.of_nat (length splats) <=? maxSplats) = false ->
  forall p, cellIn p region ->
    exists v,
      v ∈ List.filter
            (fun n => negb (pickDescend region splats rootLevel target n))
            (ForEachNode.subtree (microExtents region)
               (pickDescend region splats rootLevel target) rootLevel
               (Node.mk 0 0 0 rootLevel))
      /\ cellIn p (nodeGrid region v).
Proof using maxCells_pos leafCells_pos.
  intros Hne Hmax Hall Hworst Hcheck p Hp. pose proof m_pos as Hm.
  pose proof (root_grid maxCells leafCells region rootLevel Hm Hne Hmax) as Hroot.
  rewrite <- Hroot in Hp.
  destruct (subtree_covers maxCells leafCells region
              (pickDescend region splats rootLevel target) Hm rootLevel
              (Node.mk 0 0 0 rootLevel) p eq_refl Hp) as (v & Hv & Hpv & Hterm).
  exists v. split; [|exact Hpv]. apply elem_of_List_filter. split; [exact Hv|].
  destruct (pickDescend region splats rootLevel target v) eqn:Ed; [|reflexivity].
  exfalso. unfold ForEachNode.terminal in Hterm. rewrite Ed in Hterm.
  cbn [andb] in Hterm. apply negb_true_iff, Z.ltb_ge in Hterm.
  assert (Node.level v = 0%nat) as Hl0 by lia.
  (* the histogram pass has seen this micro-cell *)
  destruct (subtree_covers maxCells leafCells region (fun _ => true) Hm
              rootLevel (Node.mk 0 0 0 rootLevel) p eq_refl Hp)
    as (v' & Hv' & Hpv' & Hterm').
  unfold ForEachNode.terminal in Hterm'. cbn [andb] in Hterm'.
  apply negb_true_iff, Z.ltb_ge in Hterm'.
  assert (v = v') as <-.
  { apply (same_level_same_node region v v' p); [lia|assumption..]. }
  destruct (hist_fold region splats
              (ForEachNode.subtree (microExtents region) (fun _ => true)
                 rootLevel (Node.mk 0 0 0 rootLevel)) 0) as (_ & Hbound & _).
  pose proof (Hbound v Hv' Hl0) as Hcount.
  pose proof (micro_cell_size region v Hl0) as Hsize.
  unfold Bucketer.pickDescend, violates in Ed.
  destruct (Z.ltb_spec maxSplats (countSplats (nodeGrid region v) splats)); [lia|].
  destruct (Z.ltb_spec maxCells (ForEachNode.max3 (numCells (nodeGrid region v))));
    [lia|].
  cbn [orb andb] in Ed. rewrite orb_false_r in Ed. apply Nat.eqb_eq in Ed.
  (* so the node is the root, and the region is a single micro-cell *)
  destruct (subtree_within maxCells leafCells region _ Hm rootLevel
              (Node.mk 0 0 0 rootLevel) v eq_refl Hv) as (_ & [->|[Hlt _]]);
    [|cbn [Node.level] in Hlt; lia].
  rewrite Hroot in Hcount, Hsize.
  unfold countSplats in Hcount. rewrite countSplats_all in Hcount by exact Hall.
  apply andb_false_iff in Hcheck as [Hc|Hc]; [apply Z.leb_gt in Hc|apply Z.leb_gt in Hc];
    lia.
Qed.

(** The buckets emitted for a region: each is right for the region, they
    are pairwise disjoint, and every splat of the region with a cube that
    has a cell is in one of them. *)
Lemma bucketRecurse_spec fuel : forall region splats bs,
  nonempty region ->
  Forall (fun s => gridsIntersect region (cube s) = true) splats ->
  bucketRecurse fuel region splats = Ret bs ->
  Forall (bucket_ok region splats) bs
  /\ StronglySorted (fun a b => disjoint (bgrid a) (bgrid b)) bs
  /\ forall s, s ∈ splats -> nonempty (cube s) ->
       exists b, b ∈ bs /\ gridsIntersect (bgrid b) (cube s) = true.
Proof using maxCells_pos leafCells_pos.
  induction fuel as [|f IH]; intros region splats bs Hne Hall;
    cbn [Bucketer.bucketRecurse];
    (destruct splats as [|s0 rest];
     [intros E; injection E as <-;
      split; [constructor|split; [constructor|intros s Hs; inversion Hs]]|]);
    set (splats := s0 :: rest) in *;
    (destruct (ForEachNode.forEachNode MAX_DIM (microExtents region)
                 (levelsFor (microExtents region))
                 (histVisit maxCells leafCells region splats) 0)
       as [worst| | |] eqn:Ehist; cbn [mbind outcome_bind bind];
     try discriminate);
    (destruct (Z.ltb_spec maxSplats worst) as [|Hworst]; try discriminate);
    (destruct ((ForEachNode.max3 (numCells region) <=? maxCells)
               && (Z.of_nat (length splats) <=? maxSplats)) eqn:Echeck;
     [intros E; injection E as <-;
      apply andb_true_iff in Echeck as [Hc1 Hc2];
      apply Z.leb_le in Hc1, Hc2;
      apply emit_spec; [subst splats; discriminate|assumption..]|]);
    [discriminate|].
  (* the region is subdivided *)
  destruct (forEachNode_returns_inv _ _ _ _ (fun _ => true)
              (histUpdate region splats) _ _
              (histVisit_form region splats) Ehist) as (Hlev & Hmax & Eworst).
  set (levels := levelsFor (microExtents region)) in *.
  set (rootLevel := Z.to_nat (levels - 1)) in *.
  assert (Z.of_nat rootLevel = levels - 1) as Eroot by (subst rootLevel; lia).
  rewrite <- Eroot in Hmax.
  set (target := Z.max 1 (Z.of_nat (length splats) / maxSplit)).
  destruct (ForEachNode.forEachNode MAX_DIM (microExtents region) levels
              (pickVisit maxSplats maxCells leafCells region splats rootLevel
                 target) []) as [picked| | |] eqn:Epick;
    cbn [mbind outcome_bind bind]; try discriminate.
  destruct (forEachNode_returns_inv _ _ _ _
              (pickDescend region splats rootLevel target)
              (fun picked n =>
                 if pickDescend region splats rootLevel target n
                 then picked else picked ++ [n]) _ _
              (pickVisit_form region splats rootLevel target) Epick)
    as (_ & _ & Epicked).
  rewrite fold_left_record in Epicked. cbn [app] in Epicked.
  fold rootLevel in Epicked.
  destruct (picked_nodes region splats rootLevel target Hne Hmax)
    as (Hpicked & Hdisj).
  rewrite <- Epicked in Hpicked, Hdisj.
  intros Efold. apply foldM_concat in Efold as (parts & HF & ->).
  cbn [app]. apply Forall2_with_elem_of in HF.
  (* every part is right for its sub-region *)
  assert (Hpart : forall v part,
            v ∈ picked ->
            bucketRecurse f (nodeGrid region v)
              (List.filter (fun s => gridsIntersect (nodeGrid region v) (cube s))
                           splats) = Ret part ->
            Forall (bucket_ok (nodeGrid region v)
                      (List.filter
                         (fun s => gridsIntersect (nodeGrid region v) (cube s))
                         splats)) part
            /\ StronglySorted (fun a b => disjoint (bgrid a) (bgrid b)) part
            /\ forall s, s ∈ splats ->
                 gridsIntersect (nodeGrid region v) (cube s) = true ->
                 nonempty (cube s) ->
                 exists b, b ∈ part /\ gridsIntersect (bgrid b) (cube s) = true).
  { intros v part Hv Epart. destruct (Hpicked v Hv) as (_ & Hvne & _).
    assert (Forall (fun s => gridsIntersect (nodeGrid region v) (cube s) = true)
              (List.filter
                 (fun s => gridsIntersect (nodeGrid region v) (cube s)) splats))
      as Hsub
      by (apply Forall_forall; intros s Hs;
          apply elem_of_List_filter in Hs; tauto).
    destruct (IH _ _ _ Hvne Hsub Epart) as (H1 & H2 & H3).
    split; [exact H1|]. split; [exact H2|].
    intros s Hs Hi Hsne. apply H3; [|exact Hsne].
    apply elem_of_List_filter. auto. }
  split; [|split].
  - apply Forall_forall. intros b Hb.
    apply elem_of_concat in Hb as (part & Hb & Hin).
    destruct (Forall2_elem_of_r _ _ _ _ HF Hin) as (v & _ & Hv & Epart).
    destruct (Hpart v part Hv Epart) as (H1 & _ & _).
    rewrite Forall_forall in H1.
    apply (bucket_ok_sub region (nodeGrid region v)); [|auto].
    apply (Hpicked v Hv).
  - eapply StronglySorted_concat; [exact HF | exact Hdisj | |].
    + intros v part [Hv Epart]. apply (Hpart v part Hv Epart).
    + intros v v' pa pb x y Hvv' [Hv Ea] [Hv' Eb] Hx Hy.
      destruct (Hpart v pa Hv Ea) as (Ha & _ & _).
      destruct (Hpart v' pb Hv' Eb) as (Hb & _ & _).
      rewrite Forall_forall in Ha, Hb.
      eapply disjoint_sub; [apply (Ha x Hx) | apply (Hb y Hy) | exact Hvv'].
  - intros s Hs Hsne.
    assert (gridsIntersect region (cube s) = true) as Hi
        by (rewrite Forall_forall in Hall; auto).
    destruct (intersect_cellIn _ _ Hne Hsne Hi) as (p & Hpr & Hps).
    rewrite Eworst in Hworst. fold rootLevel in Hworst.
    destruct (picked_covers region splats rootLevel target Hne Hmax Hall
                Hworst Echeck p Hpr) as (v & Hv & Hpv).
    rewrite <- Epicked in Hv.
    destruct (proj1 (list_elem_of_lookup picked v) Hv) as (i & Hi_v).
    destruct (Forall2_lookup_l _ _ _ _ _ HF Hi_v)
      as (part & Hpartin & _ & Epart).
    destruct (Hpart v part Hv Epart) as (_ & _ & H3).
    destruct (H3 s Hs (cellIn_intersect p _ _ Hpv Hps) Hsne) as (b & Hb & Hbi).
    exists b. split; [|exact Hbi].
    apply elem_of_concat. exists part. split; [exact Hb|].
    apply list_elem_of_lookup. eauto.
Qed.

(** *** The density check and the end of the recursion *)

Local Abbreviation isMicroCell := (isMicroCell maxCells leafCells).

Lemma levelsFor_spec micro :
  1 <= levelsFor micro
  /\ ForEachNode.max3 micro <= 2 ^ (levelsFor micro - 1).
Proof.
  unfold levelsFor. pose proof (Z.log2_up_nonneg (ForEachNode.max3 micro)).
  split; [lia|]. replace (Z.log2_up _ + 1 - 1) with
    (Z.log2_up (ForEachNode.max3 micro)) by lia.
  destruct (Z.le_gt_cases (ForEachNode.max3 micro) 1) as [Hle|Hgt].
  - rewrite Z.log2_up_eqn0 by exact Hle. cbn. exact Hle.
  - apply Z.log2_up_spec. exact Hgt.
Qed.

Lemma levelsFor_le micro L :
  0 <= L -> ForEachNode.max3 micro <= 2 ^ L -> levelsFor micro <= L + 1.
Proof.
  intros HL Hmax. unfold levelsFor.
  destruct (Z.le_gt_cases (ForEachNode.max3 micro) 0) as [Hle|Hgt].
  - rewrite Z.log2_up_eqn0 by lia. lia.
  - apply (Z.log2_up_le_pow2 _ L Hgt) in Hmax. lia.
Qed.

(** The sub-grid of a node needs no more levels than the node has. *)
Lemma node_levels region v :
  levelsFor (microExtents (nodeGrid region v)) <= Z.of_nat (Node.level v) + 1.
Proof using maxCells_pos leafCells_pos.
  pose proof m_pos as Hm. apply levelsFor_le; [lia|].
  pose proof (node_size maxCells leafCells region v ltac:(lia)) as Hs.
  unfold Bucketer.microExtents.
  destruct (numCells (nodeGrid region v)) as [[a b] c].
  apply max3_le.
  assert (forall h, h <= 2 ^ Z.of_nat (Node.level v) * m ->
                    ceilDiv h m <= 2 ^ Z.of_nat (Node.level v)) as Hc.
  { intros h Hh.
    destruct (Z.le_gt_cases (ceilDiv h m) (2 ^ Z.of_nat (Node.level v)))
      as [|Hgt]; [assumption|].
    apply (proj1 (ceilDiv_gt maxCells leafCells _ h Hm)) in Hgt. lia. }
  repeat split; apply Hc; lia.
Qed.

Lemma nonempty_cell g : nonempty g -> exists p, cellIn p g.
Proof.
  destruct g as [[ex ey] ez]. cbn [nonempty]. intros (Hx & Hy & Hz).
  exists (fst ex, fst ey, fst ez). unfold cellIn, extentIn. lia.
Qed.

Lemma inside_level0 region v :
  Node.level v = 0%nat ->
  ForEachNode.inside (microExtents region) v = true
  <-> let '(mx, my, mz) := microExtents region in
      Node.x v < mx /\ Node.y v < my /\ Node.z v < mz.
Proof.
  intros Hl. unfold ForEachNode.inside, Node.toMicro. rewrite Hl.
  cbn [fst]. change (Z.of_nat 0) with 0. rewrite !Z.shiftl_0_r.
  destruct (microExtents region) as [[mx my] mz].
  rewrite !andb_true_iff, !Z.ltb_lt. tauto.
Qed.

Lemma root_inside region L :
  nonempty region ->
  ForEachNode.inside (microExtents region) (Node.mk 0 0 0 L) = true.
Proof using maxCells_pos leafCells_pos.
  pose proof m_pos as Hm. destruct region as [[ex ey] ez]. cbn [nonempty].
  intros (Hx & Hy & Hz).
  unfold ForEachNode.inside, Node.toMicro, Bucketer.microExtents, numCells.
  cbn [fst Node.x Node.y Node.z]. rewrite !Z.shiftl_0_l.
  rewrite !andb_true_iff, !Z.ltb_lt.
  repeat split; apply ceilDiv_gt; unfold numCells1; lia.
Qed.

(** The level-0 nodes of a full traversal are the micro-cells of the
    region. *)
Lemma full_tree_micro region L g :
  nonempty region ->
  ForEachNode.max3 (microExtents region) <= 2 ^ Z.of_nat L ->
  isMicroCell region g
  <-> exists v,
        v ∈ ForEachNode.subtree (microExtents region) (fun _ => true) L
              (Node.mk 0 0 0 L)
        /\ Node.level v = 0%nat /\ g = nodeGrid region v.
Proof using maxCells_pos leafCells_pos.
  intros Hne Hmax. pose proof m_pos as Hm.
  pose proof (root_grid maxCells leafCells region L Hm Hne Hmax) as Hroot.
  split.
  - intros (x & y & z & H). set (v := Node.mk x y z 0).
    assert (ForEachNode.inside (microExtents region) v = true
            /\ g = nodeGrid region v) as [Hin ->].
    { rewrite (inside_level0 region v eq_refl).
      destruct (microExtents region) as [[mx my] mz]. cbn. intuition lia. }
    assert (0 <= x /\ 0 <= y /\ 0 <= z) as (Hx & Hy & Hz)
        by (destruct (microExtents region) as [[mx my] mz]; lia).
    destruct (nonempty_cell _ (node_nonempty maxCells leafCells region v Hm Hin))
      as (p & Hp).
    assert (cellIn p region) as Hpr.
    { apply (cellIn_sub p (nodeGrid region v)); [|exact Hp].
      apply node_sub; [lia|exact Hne|assumption..]. }
    rewrite <- Hroot in Hpr.
    destruct (subtree_covers maxCells leafCells region (fun _ => true) Hm L
                (Node.mk 0 0 0 L) p eq_refl Hpr) as (v' & Hv' & Hpv' & Hterm).
    unfold ForEachNode.terminal in Hterm. cbn [andb] in Hterm.
    apply negb_true_iff, Z.ltb_ge in Hterm.
    assert (v' = v) as ->.
    { apply (same_level_same_node region v' v p); [cbn; lia|assumption..]. }
    exists v. auto.
  - intros (v & Hv & Hl & ->).
    destruct (subtree_nonneg maxCells leafCells region (fun _ => true) L
                (Node.mk 0 0 0 L) v) as (Hx & Hy & Hz);
      [cbn; lia..|exact Hv|].
    assert (ForEachNode.inside (microExtents region) v = true) as Hin.
    { destruct (subtree_within maxCells leafCells region _ Hm L
                  (Node.mk 0 0 0 L) v eq_refl Hv) as (_ & [->|[_ Hin]]);
        [apply root_inside; exact Hne | exact Hin]. }
    apply (inside_level0 region v Hl) in Hin.
    exists (Node.x v), (Node.y v), (Node.z v).
    destruct (microExtents region) as [[mx my] mz].
    repeat (split; [lia|]). destruct v as [x y z l]. cbn in *. subst l.
    reflexivity.
Qed.

(** The histogram pass returns the largest count among the micro-cells
    of the region. *)
Lemma hist_pass region splats :
  nonempty region ->
  levelsFor (microExtents region) <= Z.log2 MAX_DIM ->
  exists w,
    ForEachNode.forEachNode MAX_DIM (microExtents region)
      (levelsFor (microExtents region))
      (histVisit maxCells leafCells region splats) 0 = Ret w
    /\ (forall g, isMicroCell region g -> countSplats g splats <= w)
    /\ (w = 0 \/ exists g, isMicroCell region g /\ countSplats g splats = w).
Proof using maxCells_pos leafCells_pos.
  intros Hne Hdim.
  destruct (levelsFor_spec (microExtents region)) as [Hl1 Hmax].
  set (levels := levelsFor (microExtents region)) in *.
  set (L := Z.to_nat (levels - 1)).
  replace (levels - 1) with (Z.of_nat L) in Hmax by (subst L; lia).
  eexists. split; [|].
  - apply (forEachNode_returns MAX_DIM (microExtents region) levels _
             (fun _ => true) (histUpdate region splats) 0
             (histVisit_form region splats)); [lia|].
    replace (levels - 1) with (Z.of_nat L) by (subst L; lia). exact Hmax.
  - fold L.
    destruct (hist_fold region splats
                (ForEachNode.subtree (microExtents region) (fun _ => true) L
                   (Node.mk 0 0 0 L)) 0) as (_ & Hbound & Hatt).
    split.
    + intros g Hg.
      apply (full_tree_micro region L g Hne Hmax) in Hg as (v & Hv & Hl & ->).
      apply Hbound; assumption.
    + destruct Hatt as [Hw|(v & Hv & Hl & Hc)]; [left; exact Hw|right].
      exists (nodeGrid region v). split; [|exact Hc].
      apply (full_tree_micro region L _ Hne Hmax). eauto.
Qed.

Lemma countSplats_filter g (f : Splat -> bool) splats :
  countSplats g (List.filter f splats) <= countSplats g splats.
Proof.
  unfold countSplats. apply inj_le.
  induction splats as [|s l IH]; cbn [List.filter]; [lia|].
  destruct (f s); cbn [List.filter]; destruct (gridsIntersect g (cube s));
    cbn [length]; lia.
Qed.

(** A region of one micro-cell that has passed the density check meets
    the constraints. *)
Lemma single_cell_emits region splats :
  nonempty region ->
  Forall (fun s => gridsIntersect region (cube s) = true) splats ->
  levelsFor (microExtents region) <= 1 ->
  (forall g, isMicroCell region g -> countSplats g splats <= maxSplats) ->
  (ForEachNode.max3 (numCells region) <=? maxCells)
  && (Z.of_nat (length splats) <=? maxSplats) = true.
Proof using maxCells_pos leafCells_pos.
  intros Hne Hall Hlev HJ. pose proof m_pos as Hm. pose proof m_le_maxCells.
  destruct (levelsFor_spec (microExtents region)) as [Hl1 Hmax].
  assert (levelsFor (microExtents region) = 1) as E1 by lia.
  rewrite E1 in Hmax. change (2 ^ (1 - 1)) with (2 ^ Z.of_nat 0) in Hmax.
  pose proof (root_grid maxCells leafCells region 0 Hm Hne Hmax) as Hroot.
  apply andb_true_iff. split; apply Z.leb_le.
  - rewrite <- Hroot. apply micro_cell_size. reflexivity.
  - assert (isMicroCell region region) as Hcell.
    { apply (full_tree_micro region 0 region Hne Hmax).
      exists (Node.mk 0 0 0 0). split; [|auto].
      cbn [ForEachNode.subtree]. left. }
    apply HJ in Hcell. unfold countSplats in Hcell.
    rewrite countSplats_all in Hcell by exact Hall. exact Hcell.
Qed.

(** With no micro-cell covered by more than [maxSplats] splats, the
    recursion ends and returns its buckets. *)
Lemma bucketRecurse_returns fuel : forall region splats,
  0 <= maxSplats ->
  nonempty region ->
  Forall (fun s => gridsIntersect region (cube s) = true) splats ->
  levelsFor (microExtents region) <= Z.of_nat fuel + 1 ->
  levelsFor (microExtents region) <= Z.log2 MAX_DIM ->
  (forall g, isMicroCell region g -> countSplats g splats <= maxSplats) ->
  exists bs, bucketRecurse fuel region splats = Ret bs.
Proof using maxCells_pos leafCells_pos.
  pose proof m_pos as Hm.
  induction fuel as [|f IH]; intros region splats Hms Hne Hall Hfuel Hdim HJ;
    cbn [Bucketer.bucketRecurse];
    (destruct splats as [|s0 rest]; [eauto|]);
    set (splats := s0 :: rest) in *;
    destruct (hist_pass region splats Hne Hdim) as (w & -> & Hbound & Hatt);
    cbn [mbind outcome_bind bind];
    (assert (w <= maxSplats) as Hw
       by (destruct Hatt as [->|(g & Hg & <-)]; [exact Hms|apply HJ, Hg]));
    (destruct (Z.ltb_spec maxSplats w); [lia|]);
    (destruct ((ForEachNode.max3 (numCells region) <=? maxCells)
               && (Z.of_nat (length splats) <=? maxSplats)) eqn:Echeck;
     [eauto|]).
  - rewrite (single_cell_emits region splats Hne Hall ltac:(lia) HJ) in Echeck.
    discriminate.
  - destruct (levelsFor_spec (microExtents region)) as [Hl1 Hmax].
    set (levels := levelsFor (microExtents region)) in *.
    set (L := Z.to_nat (levels - 1)) in *.
    assert (Z.of_nat L = levels - 1) as EL by (subst L; lia).
    rewrite <- EL in Hmax.
    set (target := Z.max 1 (Z.of_nat (length splats) / maxSplit)).
    rewrite (forEachNode_returns MAX_DIM (microExtents region) levels _
               (pickDescend region splats L target)
               (fun picked n =>
                  if pickDescend region splats L target n
                  then picked else picked ++ [n]) []
               (pickVisit_form region splats L target)
               ltac:(lia) ltac:(rewrite <- EL; exact Hmax)).
    cbn [mbind outcome_bind bind]. rewrite fold_left_record. cbn [app].
    fold L.
    destruct (picked_nodes region splats L target Hne Hmax) as (Hpicked & _).
    apply foldM_concat_returns. intros v Hv.
    destruct (Hpicked v Hv) as (Hsub & Hvne & Hlt).
    pose proof (node_levels region v) as Hvl.
    apply elem_of_List_filter in Hv as [Hv _].
    destruct (subtree_nonneg maxCells leafCells region
                (pickDescend region splats L target) L
                (Node.mk 0 0 0 L) v) as (Hx & Hy & Hz);
      [cbn; lia..|exact Hv|].
    apply IH; [exact Hms|exact Hvne| |lia|lia|].
    + apply Forall_forall. intros s Hs. apply elem_of_List_filter in Hs. tauto.
    + intros g Hg. etransitivity; [apply countSplats_filter|].
      apply HJ. apply (isMicroCell_node maxCells leafCells region v g Hm Hx Hy Hz Hg).
Qed.

End RecurseFacts.

(** ** The bucketing as a whole *)

Section BucketFacts.

Import Bucketer.

(** The splats of the source are the cubes of the scans, each with its
    scan and its index. *)
Lemma elem_of_enumerate files sp :
  sp ∈ enumerate files <->
  exists s i file,
    files !! s = Some file /\ file !! i = Some (cube sp)
    /\ scan sp = Z.of_nat s /\ index sp = Z.of_nat i.
Proof.
  unfold enumerate. rewrite elem_of_concat. split.
  - intros (l & Hsp & Hl).
    apply elem_of_lookup_imap in Hl as (s & file & -> & Hfile).
    apply elem_of_lookup_imap in Hsp as (i & c & -> & Hc).
    exists s, i, file. cbn. auto.
  - intros (s & i & file & Hfile & Hc & Hs & Hi).
    exists (imap (fun i c => mkSplat (Z.of_nat s) (Z.of_nat i) c) file). split.
    + apply elem_of_lookup_imap. exists i, (cube sp). split; [|exact Hc].
      destruct sp as [s' i' c]. cbn in *. subst. reflexivity.
    + apply (elem_of_lookup_imap_2
               (fun s file => imap (fun i c => mkSplat (Z.of_nat s) (Z.of_nat i) c)
                                   file) files file s Hfile).
Qed.

Lemma StronglySorted_lookup {A : Type} (R : A -> A -> Prop) (l : list A) :
  (forall a b, R a b -> R b a) ->
  StronglySorted R l ->
  forall i j a b, i <> j -> l !! i = Some a -> l !! j = Some b -> R a b.
Proof.
  intros Hsym. induction 1 as [|x l Hl IH Hx]; intros i j a b Hij Hi Hj.
  - inversion Hi.
  - rewrite Forall_forall in Hx.
    destruct i as [|i], j as [|j]; cbn in Hi, Hj.
    + congruence.
    + injection Hi as <-. apply Hx. apply list_elem_of_lookup. eauto.
    + injection Hj as <-. apply Hsym, Hx. apply list_elem_of_lookup. eauto.
    + apply (IH i j); [congruence|assumption..].
Qed.

Lemma separated_disjoint a b : disjoint a b <-> separated a b.
Proof.
  unfold disjoint, separated, extentsApart.
  destruct a as [[ax ay] az], b as [[bx b_y] bz].
  rewrite <- not_true_iff_false, gridsIntersect_true, !extentsIntersect_true.
  lia.
Qed.

(** What a successful call of [bucket] has given to the sink. *)
Lemma bucket_spec MAX_DIM maxSplats maxCells maxSplit leafCells files bbox bs :
  0 < maxCells -> 0 < leafCells -> nonempty bbox ->
  bucket MAX_DIM maxSplats maxCells maxSplit leafCells files bbox = Ret bs ->
  Forall (bucket_ok maxSplats maxCells bbox (enumerate files)) bs
  /\ StronglySorted (fun a b => disjoint (bgrid a) (bgrid b)) bs
  /\ forall sp, sp ∈ enumerate files -> nonempty (cube sp) ->
       gridsIntersect bbox (cube sp) = true ->
       exists b, b ∈ bs /\ gridsIntersect (bgrid b) (cube sp) = true.
Proof.
  intros Hc Hl Hne E. unfold bucket in E.
  apply (bucketRecurse_spec MAX_DIM maxSplats maxCells maxSplit leafCells Hc Hl)
    in E as (Hok & Hdisj & Hcov); [|exact Hne|].
  - split; [|split; [exact Hdisj|]].
    + apply Forall_forall. intros b Hb. rewrite Forall_forall in Hok.
      apply (bucket_ok_sub maxSplats maxCells bbox bbox);
        [apply subGrid_refl | auto].
    + intros sp Hsp Hspne Hi. apply Hcov; [|exact Hspne].
      apply elem_of_List_filter. auto.
  - apply Forall_forall. intros sp Hsp.
    apply elem_of_List_filter in Hsp. tauto.
Qed.

Lemma isMicroCell_sub maxCells leafCells bbox g :
  0 < maxCells -> 0 < leafCells -> nonempty bbox ->
  isMicroCell maxCells leafCells bbox g -> subGrid g bbox.
Proof.
  intros Hc Hl Hne (x & y & z & H).
  destruct (microExtents maxCells leafCells bbox) as [[mx my] mz].
  destruct H as (Hx & Hy & Hz & ->).
  apply node_sub; [unfold microSize; lia|exact Hne|cbn; lia..].
Qed.

Lemma countSplats_within (g bbox : grid) splats :
  subGrid g bbox ->
  countSplats g (List.filter (fun s => gridsIntersect bbox (cube s)) splats)
  = countSplats g splats.
Proof.
  intros Hsub. unfold countSplats. rewrite List_filter_filter_implied;
    [reflexivity|].
  intros s Hs. apply (gridsIntersect_sub g bbox); assumption.
Qed.

(** The outcome of [bucket]: with [w] the largest number of splats on a
    micro-cell of [bbox], the call raises [DensityError w] when [w] exceeds
    [maxSplats] and returns otherwise. *)
Lemma bucket_outcome MAX_DIM maxSplats maxCells maxSplit leafCells files bbox :
  0 < maxCells -> 0 < leafCells -> 0 <= maxSplats -> nonempty bbox ->
  levelsFor (microExtents maxCells leafCells bbox) <= Z.log2 MAX_DIM ->
  exists w,
    (forall g, isMicroCell maxCells leafCells bbox g ->
               countSplats g (enumerate files) <= w)
    /\ (w = 0 \/ exists g, isMicroCell maxCells leafCells bbox g
                           /\ countSplats g (enumerate files) = w)
    /\ ((maxSplats < w
         /\ bucket MAX_DIM maxSplats maxCells maxSplit leafCells files bbox
            = Throw (DensityError w))
        \/ (w <= maxSplats
            /\ exists bs,
                 bucket MAX_DIM maxSplats maxCells maxSplit leafCells files bbox
                 = Ret bs)).
Proof.
  intros Hc Hl Hms Hne Hdim. unfold bucket.
  set (splats := List.filter (fun s => gridsIntersect bbox (cube s))
                             (enumerate files)).
  assert (Forall (fun s => gridsIntersect bbox (cube s) = true) splats) as Hall.
  { apply Forall_forall. intros s Hs. apply elem_of_List_filter in Hs. tauto. }
  assert (forall g, isMicroCell maxCells leafCells bbox g ->
                    countSplats g splats = countSplats g (enumerate files))
    as Hcount.
  { intros g Hg. apply countSplats_within.
    apply (isMicroCell_sub maxCells leafCells bbox g Hc Hl Hne Hg). }
  destruct (hist_pass MAX_DIM maxCells leafCells Hc Hl bbox splats Hne Hdim)
    as (w & Ehist & Hbound & Hatt).
  exists w. split; [|split].
  - intros g Hg. rewrite <- Hcount by exact Hg. apply Hbound, Hg.
  - destruct Hatt as [Hw|(g & Hg & Hw)]; [left; exact Hw|right].
    exists g. rewrite <- Hcount by exact Hg. auto.
  - destruct (Z.lt_ge_cases maxSplats w) as [Hgt|Hle]; [left|right].
    + split; [exact Hgt|].
      destruct splats as [|s0 rest] eqn:Es.
      * exfalso. destruct Hatt as [Hw|(g & _ & Hw)]; [lia|].
        unfold countSplats in Hw. cbn in Hw. lia.
      * generalize (Z.to_nat (levelsFor (microExtents maxCells leafCells bbox))).
        intros fuel. destruct fuel; cbn [bucketRecurse]; rewrite Ehist;
          cbn [mbind outcome_bind bind];
          (destruct (Z.ltb_spec maxSplats w); [reflexivity|lia]).
    + split; [exact Hle|].
      destruct (levelsFor_spec (microExtents maxCells leafCells bbox)) as [Hl1 _].
      apply (bucketRecurse_returns MAX_DIM maxSplats maxCells maxSplit leafCells
               Hc Hl); [exact Hms|exact Hne|exact Hall|lia|exact Hdim|].
      intros g Hg. specialize (Hbound g Hg). lia.
Qed.

End BucketFacts.

(** TestBucket::testSimple, testMultiLevel and testFlat: the numbers of
    blocks the tests find; testDensityError; testEmpty. *)
Example testBucket_simple :
  Bucketer.testSimple = Ret Bucketer.testSimple_blocks
  /\ length Bucketer.testSimple_blocks = 11%nat.
Proof. split; vm_compute; reflexivity. Qed.

Example testBucket_multiLevel :
  exists bs, Bucketer.testMultiLevel = Ret bs /\ length bs = 11%nat.
Proof. eexists. split; vm_compute; reflexivity. Qed.

Example testBucket_flat :
  exists bs, Bucketer.testFlat = Ret bs /\ length bs = 1%nat.
Proof. eexists. split; vm_compute; reflexivity. Qed.

Example testBucket_densityError :
  Bucketer.testDensityError = Throw (DensityError 4).
Proof. vm_compute. reflexivity. Qed.

Example testBucket_empty : Bucketer.testEmpty = Ret [].
Proof. vm_compute. reflexivity. Qed.

(** ** The emitted buckets *)

(** C2: when [bucket] succeeds, every emitted bucket has at most
    [maxCells] cells on each of the three axes, a splat count that is at
    most [maxSplats] and is positive (and is the number of splats whose
    cube intersects the bucket's grid); and no two emitted buckets' grids
    intersect: on one axis at least their extents share no cell. *)
Theorem bucket_bounds_and_disjointness
    MAX_DIM maxSplats maxCells maxSplit leafCells files bbox bs :
  0 < maxCells -> 0 < leafCells -> Bucketer.nonempty bbox ->
  Bucketer.bucket MAX_DIM maxSplats maxCells maxSplit leafCells files bbox
  = Ret bs ->
  (forall b, b ∈ bs ->
     (let '(cx, cy, cz) := Bucketer.numCells (Bucketer.bgrid b) in
      cx <= maxCells /\ cy <= maxCells /\ cz <= maxCells)
     /\ Bucketer.numSplats b <= maxSplats
     /\ 0 < Bucketer.numSplats b
     /\ Bucketer.numSplats b
        = Bucketer.countSplats (Bucketer.bgrid b) (Bucketer.enumerate files))
  /\ (forall i j a b,
        i <> j -> bs !! i = Some a -> bs !! j = Some b ->
        Bucketer.gridsIntersect (Bucketer.bgrid a) (Bucketer.bgrid b) = false
        /\ Bucketer.separated (Bucketer.bgrid a) (Bucketer.bgrid b)).
Proof.
  intros Hc Hl Hne E.
  destruct (bucket_spec _ _ _ _ _ _ _ _ Hc Hl Hne E) as (Hok & Hdisj & _).
  split.
  - intros b Hb. rewrite Forall_forall in Hok.
    destruct (Hok b Hb) as (_ & Hcells & Hcount & _ & Hnum).
    split; [apply max3_le in Hcells; exact Hcells|].
    split; [lia|]. split; [lia|]. exact Hnum.
  - intros i j a b Hij Ha Hb.
    assert (Bucketer.disjoint (Bucketer.bgrid a) (Bucketer.bgrid b)) as Hd.
    { apply (StronglySorted_lookup
               (fun a b => Bucketer.disjoint (Bucketer.bgrid a) (Bucketer.bgrid b))
               bs (fun a b => disjoint_sym _ _) Hdisj i j a b Hij Ha Hb). }
    split; [exact Hd|]. apply separated_disjoint, Hd.
Qed.

Lemma bucket_bounds_and_disjointness_witness :
  (forall b, b ∈ Bucketer.testSimple_blocks ->
     (let '(cx, cy, cz) := Bucketer.numCells (Bucketer.bgrid b) in
      cx <= 8 /\ cy <= 8 /\ cz <= 8)
     /\ Bucketer.numSplats b <= 5
     /\ 0 < Bucketer.numSplats b
     /\ Bucketer.numSplats b
        = Bucketer.countSplats (Bucketer.bgrid b)
            (Bucketer.enumerate Bucketer.setupSimple))
  /\ (forall i j a b,
        i <> j -> Bucketer.testSimple_blocks !! i = Some a ->
        Bucketer.testSimple_blocks !! j = Some b ->
        Bucketer.gridsIntersect (Bucketer.bgrid a) (Bucketer.bgrid b) = false
        /\ Bucketer.separated (Bucketer.bgrid a) (Bucketer.bgrid b)).
Proof.
  apply (bucket_bounds_and_disjointness (2 ^ 31) 5 8 1000000 1
           Bucketer.setupSimple Bucketer.testGrid Bucketer.testSimple_blocks).
  - lia.
  - lia.
  - vm_compute. repeat split.
  - vm_compute. reflexivity.
Defined.

(** C1: when [bucket] succeeds, the ranges of each emitted bucket cover
    exactly the splats of the source whose cube intersects the bucket's
    grid (so a splat that straddles several buckets is in each of them),
    and every splat whose cube intersects the enclosing grid is covered by
    the ranges of at least one emitted bucket. *)
Theorem bucket_ranges_cover_intersecting_splats
    MAX_DIM maxSplats maxCells maxSplit leafCells files bbox bs :
  0 < maxCells -> 0 < leafCells -> Bucketer.nonempty bbox ->
  Bucketer.bucket MAX_DIM maxSplats maxCells maxSplit leafCells files bbox
  = Ret bs ->
  (forall b s i, b ∈ bs ->
     (exists r, r ∈ Bucketer.ranges b /\ Bucketer.covers r s i)
     <-> exists (sn i_n : nat) file c,
           s = Z.of_nat sn /\ i = Z.of_nat i_n
           /\ files !! sn = Some file /\ file !! i_n = Some c
           /\ Bucketer.gridsIntersect (Bucketer.bgrid b) c = true)
  /\ (forall (sn i_n : nat) file c,
        files !! sn = Some file -> file !! i_n = Some c ->
        Bucketer.nonempty c -> Bucketer.gridsIntersect bbox c = true ->
        exists b r, b ∈ bs /\ r ∈ Bucketer.ranges b
                    /\ Bucketer.covers r (Z.of_nat sn) (Z.of_nat i_n)).
Proof.
  intros Hc Hl Hne E.
  destruct (bucket_spec _ _ _ _ _ _ _ _ Hc Hl Hne E) as (Hok & _ & Hcov).
  rewrite Forall_forall in Hok.
  assert (Hranges : forall b s i, b ∈ bs ->
            (exists r, r ∈ Bucketer.ranges b /\ Bucketer.covers r s i)
            <-> exists (sn i_n : nat) file c,
                  s = Z.of_nat sn /\ i = Z.of_nat i_n
                  /\ files !! sn = Some file /\ file !! i_n = Some c
                  /\ Bucketer.gridsIntersect (Bucketer.bgrid b) c = true).
  { intros b s i Hb. destruct (Hok b Hb) as (_ & _ & _ & -> & _).
    rewrite collect_covers. split.
    - intros (sp & Hsp & <- & <-).
      apply elem_of_List_filter in Hsp as [Hsp Hi].
      apply elem_of_enumerate in Hsp as (sn & i_n & file & Hf & Hcube & Hs & Hidx).
      exists sn, i_n, file, (Bucketer.cube sp). auto.
    - intros (sn & i_n & file & c & -> & -> & Hf & Hcube & Hi).
      exists (Bucketer.mkSplat (Z.of_nat sn) (Z.of_nat i_n) c).
      split; [|split; reflexivity].
      apply elem_of_List_filter. split; [|exact Hi].
      apply elem_of_enumerate. exists sn, i_n, file. cbn. auto. }
  split; [exact Hranges|].
  intros sn i_n file c Hf Hcube Hcne Hi.
  destruct (Hcov (Bucketer.mkSplat (Z.of_nat sn) (Z.of_nat i_n) c))
    as (b & Hb & Hbi); [|exact Hcne|exact Hi|].
  { apply elem_of_enumerate. exists sn, i_n, file. cbn. auto. }
  destruct (proj2 (Hranges b (Z.of_nat sn) (Z.of_nat i_n) Hb)) as (r & Hr & Hrc).
  { exists sn, i_n, file, c. auto. }
  exists b, r. auto.
Qed.

Lemma bucket_ranges_cover_intersecting_splats_witness :
  (forall b s i, b ∈ Bucketer.testSimple_blocks ->
     (exists r, r ∈ Bucketer.ranges b /\ Bucketer.covers r s i)
     <-> exists (sn i_n : nat) file c,
           s = Z.of_nat sn /\ i = Z.of_nat i_n
           /\ Bucketer.setupSimple !! sn = Some file /\ file !! i_n = Some c
           /\ Bucketer.gridsIntersect (Bucketer.bgrid b) c = true)
  /\ (forall (sn i_n : nat) file c,
        Bucketer.setupSimple !! sn = Some file -> file !! i_n = Some c ->
        Bucketer.nonempty c ->
        Bucketer.gridsIntersect Bucketer.testGrid c = true ->
        exists b r, b ∈ Bucketer.testSimple_blocks /\ r ∈ Bucketer.ranges b
                    /\ Bucketer.covers r (Z.of_nat sn) (Z.of_nat i_n)).
Proof.
  apply (bucket_ranges_cover_intersecting_splats (2 ^ 31) 5 8 1000000 1
           Bucketer.setupSimple Bucketer.testGrid Bucketer.testSimple_blocks).
  - lia.
  - lia.
  - vm_compute. repeat split.
  - vm_compute. reflexivity.
Defined.

(** C3: [bucket] raises [DensityError c] if and only if [c] exceeds
    [maxSplats] and is the number of splats on the most covered micro-cell
    of the bucketing grid: some micro-cell is covered by [c] splats and
    none by more.  On all other inputs, those with no micro-cell covered by
    more than [maxSplats] splats, the call returns; with zero splats it
    returns having emitted no bucket. *)
Theorem bucket_density_law
    MAX_DIM maxSplats maxCells maxSplit leafCells files bbox :
  0 < maxCells -> 0 < leafCells -> 0 <= maxSplats ->
  Bucketer.nonempty bbox ->
  Bucketer.levelsFor (Bucketer.microExtents maxCells leafCells bbox)
  <= Z.log2 MAX_DIM ->
  let run :=
    Bucketer.bucket MAX_DIM maxSplats maxCells maxSplit leafCells files bbox in
  let cell := Bucketer.isMicroCell maxCells leafCells bbox in
  let count g := Bucketer.countSplats g (Bucketer.enumerate files) in
  (forall c,
     run = Throw (DensityError c)
     <-> maxSplats < c
         /\ (exists g, cell g /\ count g = c)
         /\ (forall g, cell g -> count g <= c))
  /\ ((forall g, cell g -> count g <= maxSplats) -> exists bs, run = Ret bs)
  /\ (Bucketer.enumerate files = [] -> run = Ret []).
Proof.
  intros Hc Hl Hms Hne Hdim run cell count. subst count. cbn beta.
  destruct (bucket_outcome MAX_DIM maxSplats maxCells maxSplit leafCells files
              bbox Hc Hl Hms Hne Hdim) as (w & Hbound & Hatt & Hrun).
  fold run in Hrun. fold cell in Hbound, Hatt.
  split; [|split].
  - intros c. split.
    + intros E. destruct Hrun as [[Hgt Ew]|[_ (bs & Ebs)]]; [|congruence].
      rewrite Ew in E. injection E as <-.
      split; [exact Hgt|]. split; [|exact Hbound].
      destruct Hatt as [Hw|Hg]; [lia|exact Hg].
    + intros (Hgt & (g & Hg & Hcg) & Hmaxc).
      pose proof (Hbound g Hg) as Hgw.
      destruct Hrun as [[_ Ew]|[Hle _]]; [|lia].
      destruct Hatt as [Hw|(g' & Hg' & Hw)]; [lia|].
      pose proof (Hmaxc g' Hg'). assert (c = w) as -> by lia. exact Ew.
  - intros Hall. destruct Hrun as [[Hgt _]|[_ Hbs]]; [|exact Hbs].
    destruct Hatt as [Hw|(g & Hg & Hw)]; [lia|].
    specialize (Hall g Hg). lia.
  - intros E. subst run. unfold Bucketer.bucket. rewrite E. cbn [List.filter].
    destruct (Z.to_nat _); reflexivity.
Qed.

Lemma bucket_density_law_witness :
  let run := Bucketer.testDensityError in
  let cell := Bucketer.isMicroCell 8 1 Bucketer.testGrid in
  let count g :=
    Bucketer.countSplats g (Bucketer.enumerate Bucketer.setupSimple) in
  (forall c,
     run = Throw (DensityError c)
     <-> 1 < c
         /\ (exists g, cell g /\ count g = c)
         /\ (forall g, cell g -> count g <= c))
  /\ ((forall g, cell g -> count g <= 1) -> exists bs, run = Ret bs)
  /\ (Bucketer.enumerate Bucketer.setupSimple = [] -> run = Ret []).
Proof.
  apply (bucket_density_law (2 ^ 31) 1 8 1000000 1 Bucketer.setupSimple
           Bucketer.testGrid).
  - lia.
  - lia.
  - lia.
  - vm_compute. repeat split.
  - vm_compute. discriminate.
Defined.

(** ** RangeCollector under arbitrary sequences of calls *)

Section CollectorFacts.

Import RangeOps.

Local Abbreviation content c := (expandAll (RangeCollector.destroy c)).

Lemma destroy_nonempty cur out :
  0 < Range.size cur ->
  RangeCollector.destroy (RangeCollector.mk cur out) = out ++ [cur].
Proof.
  intros H. unfold RangeCollector.destroy, RangeCollector.flush.
  cbn [RangeCollector.current RangeCollector.out].
  destruct (Z.ltb_spec 0 (Range.size cur)); [reflexivity|lia].
Qed.

Lemma destroy_empty cur out :
  Range.size cur <= 0 ->
  RangeCollector.destroy (RangeCollector.mk cur out) = out.
Proof.
  intros H. unfold RangeCollector.destroy, RangeCollector.flush.
  cbn [RangeCollector.current RangeCollector.out].
  destruct (Z.ltb_spec 0 (Range.size cur)); [lia|reflexivity].
Qed.

(** Flushing does not change what the collector will have written in the
    end, and leaves nothing buffered. *)
Lemma destroy_flush c :
  RangeCollector.destroy (RangeCollector.flush c) = RangeCollector.destroy c
  /\ Range.size (RangeCollector.current (RangeCollector.flush c)) <= 0.
Proof.
  destruct c as [cur out]. unfold RangeCollector.flush.
  cbn [RangeCollector.current RangeCollector.out].
  destruct (Z.ltb_spec 0 (Range.size cur)) as [Hpos|Hz].
  - rewrite destroy_empty by (cbn; lia).
    rewrite destroy_nonempty by exact Hpos. cbn. split; [reflexivity|lia].
  - split; [reflexivity|exact Hz].
Qed.

Lemma expandAll_app l1 l2 : expandAll (l1 ++ l2) = expandAll l1 ++ expandAll l2.
Proof. unfold expandAll. apply bind_app. Qed.

Lemma expandAll_single r : expandAll [r] = expand r.
Proof. unfold expandAll. cbn. apply app_nil_r. Qed.

Lemma expand_one s i : expand (Range.mk s 1 i) = [(s, i + 0)].
Proof. reflexivity. Qed.

Lemma expand_extend r :
  0 <= Range.size r ->
  expand (Range.mk (Range.scan r) (Range.size r + 1) (Range.start r))
  = expand r ++ [(Range.scan r, Range.start r + Range.size r)].
Proof.
  intros H. unfold expand. cbn [Range.scan Range.size Range.start].
  rewrite seqZ_app by lia. rewrite fmap_app. reflexivity.
Qed.

Lemma elem_of_expand r s i :
  (s, i) ∈ expand r <-> Bucketer.covers r s i.
Proof.
  unfold expand, Bucketer.covers. rewrite list_elem_of_fmap. split.
  - intros (k & E & Hk). apply elem_of_seqZ in Hk. injection E as -> ->. lia.
  - intros (<- & Hi). exists (i - Range.start r). split; [f_equal; lia|].
    apply elem_of_seqZ. lia.
Qed.

Lemma length_expand r : 0 <= Range.size r ->
  Z.of_nat (length (expand r)) = Range.size r.
Proof.
  intros H. unfold expand. rewrite length_fmap, length_seqZ. lia.
Qed.

(** What one [append] does to the ranges the collector will have written:
    the id is added at the end, as a new range of one splat or as one more
    splat of the last range, or it lies in the last range already and
    nothing changes. *)
Lemma append_effect c s i :
  0 <= Range.size (RangeCollector.current c) ->
  let c' := RangeCollector.append c s i in
  let rs := RangeCollector.destroy c in
  let rs' := RangeCollector.destroy c' in
  0 < Range.size (RangeCollector.current c')
  /\ ((rs' = rs ++ [Range.mk s 1 i]
       /\ (Range.size (RangeCollector.current c) = 0
           \/ (Range.append (RangeCollector.current c) s i
               = (false, RangeCollector.current c))))
      \/ (exists r rs0,
            rs = rs0 ++ [r] /\ RangeCollector.current c = r
            /\ s = Range.scan r /\ i = Range.start r + Range.size r
            /\ 0 < Range.size r < Range.size_max
            /\ rs' = rs0 ++ [Range.mk (Range.scan r) (Range.size r + 1)
                                      (Range.start r)])
      \/ (exists r rs0,
            rs = rs0 ++ [r] /\ Bucketer.covers r s i /\ rs' = rs)).
Proof.
  intros Hsize. destruct c as [cur out]. cbn [RangeCollector.current] in *.
  cbn zeta. unfold RangeCollector.append. cbn [RangeCollector.current RangeCollector.out].
  destruct (Range_append_cases cur s i)
    as [(E0 & E)|[(N0 & Es & Ei & E)|[(N0 & Es & Hin & E)|(N0 & E)]]];
    rewrite E; cbn [RangeCollector.current Range.size Range.single].
  - split; [lia|]. left. rewrite destroy_nonempty by (cbn; lia).
    rewrite destroy_empty by lia. auto.
  - split; [lia|]. right. left. exists cur, out.
    rewrite !destroy_nonempty by (cbn; lia).
    assert (Range.size cur < Range.size_max).
    { unfold Range.append in E.
      destruct (Z.eqb_spec (Range.size cur) 0); [lia|].
      destruct (Z.ltb_spec (Range.size cur) Range.size_max); [assumption|].
      rewrite andb_false_r in E.
      destruct ((s =? Range.scan cur) && (Range.start cur <=? i)
                && (i <? Range.start cur + Range.size cur)) eqn:Em.
      - apply andb_true_iff in Em as [_ Em]. apply Z.ltb_lt in Em. lia.
      - discriminate. }
    repeat split; auto; lia.
  - split; [lia|]. right. right. exists cur, out.
    rewrite !destroy_nonempty by lia.
    unfold Bucketer.covers. repeat split; auto; lia.
  - split; [lia|]. left. rewrite destroy_nonempty by (cbn; lia).
    rewrite destroy_nonempty by lia.
    split; [reflexivity|right; reflexivity].
Qed.

Lemma appended_cons o ops : appended (o :: ops) = appended [o] ++ appended ops.
Proof. unfold appended. cbn. rewrite app_nil_r. reflexivity. Qed.

Lemma step_good c o :
  0 <= Range.size (RangeCollector.current c) ->
  Forall good (RangeCollector.destroy c) ->
  Forall idOK (appended [o]) ->
  0 <= Range.size (RangeCollector.current (step c o))
  /\ Forall good (RangeCollector.destroy (step c o)).
Proof.
  intros Hsize Hgood Hid. destruct o as [s i|]; cbn [step].
  - destruct (append_effect c s i Hsize) as (Hpos & Hcase).
    split; [lia|].
    assert (idOK (s, i)) as [Hs Hi].
    { apply Forall_forall with (x := (s, i)) in Hid; [exact Hid|]. cbn. left. }
    cbn [fst snd] in Hs, Hi.
    destruct Hcase as [[-> _]|[(r & rs0 & Ers & _ & Es & Ei & Hr & ->)
                               |(r & rs0 & _ & _ & ->)]].
    + apply Forall_app. split; [exact Hgood|]. constructor; [|constructor].
      unfold good, Range.wf, Range.size_max. cbn. lia.
    + rewrite Ers in Hgood. apply Forall_app in Hgood as [H0 Hr'].
      apply Forall_app. split; [exact H0|]. constructor; [|constructor].
      inversion Hr' as [|? ? Hg _]; subst. clear Hr'.
      unfold good, Range.wf in *. cbn [Range.size Range.scan Range.start]. lia.
    + exact Hgood.
  - destruct (destroy_flush c) as [-> Hz]. split; [|exact Hgood].
    destruct c as [cur out]. unfold RangeCollector.flush.
    cbn [RangeCollector.current] in *.
    destruct (0 <? Range.size cur); cbn; lia.
Qed.

Lemma run_good ops : forall c,
  0 <= Range.size (RangeCollector.current c) ->
  Forall good (RangeCollector.destroy c) ->
  Forall idOK (appended ops) ->
  Forall good (RangeCollector.destroy (run c ops)).
Proof.
  induction ops as [|o ops IH]; intros c Hsize Hgood Hid; [exact Hgood|].
  cbn [run fold_left]. rewrite appended_cons in Hid.
  apply Forall_app in Hid as [Ho Hops].
  destruct (step_good c o Hsize Hgood Ho) as [Hsize' Hgood'].
  apply (IH _ Hsize' Hgood' Hops).
Qed.

(** What one call does to the ids of the ranges the collector will have
    written. *)
Lemma step_content c o :
  0 <= Range.size (RangeCollector.current c) ->
  0 <= Range.size (RangeCollector.current (step c o))
  /\ (content (step c o) = content c ++ appended [o]
      \/ (Forall (fun id => id ∈ content c) (appended [o])
          /\ RangeCollector.destroy (step c o) = RangeCollector.destroy c)).
Proof.
  intros Hsize. destruct o as [s i|]; cbn [step].
  - destruct (append_effect c s i Hsize) as (Hpos & Hcase).
    split; [lia|].
    destruct Hcase as [[-> _]|[(r & rs0 & Ers & _ & Es & Ei & Hr & ->)
                               |(r & rs0 & Ers & Hcov & ->)]].
    + left. rewrite expandAll_app, expandAll_single, expand_one.
      cbn. rewrite Z.add_0_r. reflexivity.
    + left. rewrite Ers, !expandAll_app, !expandAll_single.
      rewrite expand_extend by lia. rewrite <- app_assoc. cbn. subst. reflexivity.
    + right. split; [|reflexivity]. cbn. constructor; [|constructor].
      rewrite Ers, expandAll_app, expandAll_single.
      apply elem_of_app. right. apply elem_of_expand. exact Hcov.
  - destruct (destroy_flush c) as [E Hz]. split.
    + destruct c as [cur out]. unfold RangeCollector.flush.
      cbn [RangeCollector.current] in *.
      destruct (0 <? Range.size cur); cbn; lia.
    + left. rewrite E. cbn. rewrite app_nil_r. reflexivity.
Qed.

Lemma run_content_elem ops : forall c id,
  0 <= Range.size (RangeCollector.current c) ->
  id ∈ content (run c ops) <-> id ∈ content c \/ id ∈ appended ops.
Proof.
  induction ops as [|o ops IH]; intros c id Hsize.
  - cbn. split; [auto|]. intros [H|H]; [exact H|inversion H].
  - cbn [run fold_left]. destruct (step_content c o Hsize) as (Hsize' & Hcase).
    fold (run (step c o) ops). rewrite (IH _ id Hsize').
    rewrite (appended_cons o ops), elem_of_app.
    destruct Hcase as [->|[Hin ->]].
    + rewrite elem_of_app. tauto.
    + rewrite Forall_forall in Hin. split; [tauto|].
      intros [H|[H|H]]; auto.
Qed.

Lemma run_content_distinct ops : forall c,
  0 <= Range.size (RangeCollector.current c) ->
  NoDup (content c ++ appended ops) ->
  content (run c ops) = content c ++ appended ops.
Proof.
  induction ops as [|o ops IH]; intros c Hsize Hnd.
  - cbn. rewrite app_nil_r. reflexivity.
  - cbn [run fold_left]. destruct (step_content c o Hsize) as (Hsize' & Hcase).
    fold (run (step c o) ops). rewrite (appended_cons o ops) in Hnd |- *.
    destruct Hcase as [E|[Hin E]].
    + rewrite IH; [|exact Hsize'|rewrite E, <- app_assoc; exact Hnd].
      rewrite E, <- app_assoc. reflexivity.
    + destruct o as [s i|]; cbn in Hin |- *.
      * exfalso. inversion Hin as [|? ? Hsi _]; subst.
        apply NoDup_app in Hnd as (_ & Hdis & _).
        apply (Hdis (s, i) Hsi). cbn. left.
      * cbn [step] in E, Hsize'.
        rewrite IH; [rewrite E; reflexivity|exact Hsize'|rewrite E; exact Hnd].
Qed.

End CollectorFacts.

(** X1: whatever the sequence of [append] and [flush] calls on a
    collector, when the ids appended are within [scan_type] and
    [index_type] every range it has written by the time it is destroyed is
    not empty, has its fields within their machine types, and keeps
    [start + size - 1] within [index_type]. *)
Theorem RangeCollector_writes_good_ranges (ops : list RangeOps.op) :
  Forall RangeOps.idOK (RangeOps.appended ops) ->
  Forall RangeOps.good
         (RangeCollector.destroy (RangeOps.run (RangeCollector.init []) ops)).
Proof.
  intros Hid. apply run_good; [cbn; lia|constructor|exact Hid].
Qed.

Lemma RangeCollector_writes_good_ranges_witness :
  Forall RangeOps.good
         (RangeCollector.destroy
            (RangeOps.run (RangeCollector.init []) RangeOps.testFlush)).
Proof.
  apply RangeCollector_writes_good_ranges.
  repeat constructor; cbn; unfold Range.scan_max, Range.index_max; lia.
Defined.

(** X2: whatever the sequence of [append] and [flush] calls, the ranges a
    collector has written by the time it is destroyed cover exactly the
    ids that were appended: none is lost, none is invented, also when an
    id is appended more than once or a flush comes in between. *)
Theorem RangeCollector_covers_exactly_appended (ops : list RangeOps.op) s i :
  (exists r,
      r ∈ RangeCollector.destroy (RangeOps.run (RangeCollector.init []) ops)
      /\ Bucketer.covers r s i)
  <-> (s, i) ∈ RangeOps.appended ops.
Proof.
  pose proof (run_content_elem ops (RangeCollector.init []) (s, i)
                ltac:(cbn; lia)) as Hrun.
  unfold RangeOps.expandAll in Hrun.
  rewrite (list_elem_of_bind RangeOps.expand (s, i)) in Hrun.
  setoid_rewrite elem_of_expand in Hrun. split.
  - intros (r & Hr & Hc). destruct (proj1 Hrun) as [H|H]; [eauto| |exact H].
    cbn in H. inversion H.
  - intros H. destruct (proj2 Hrun (or_intror H)) as (r & Hc & Hr). eauto.
Qed.

(** X3: ranges to ids is the inverse of ids to ranges.  When the ids
    appended are pairwise distinct, expanding the ranges the collector has
    written, range by range and index by index, gives back the ids in the
    order they were appended, whatever flushes came in between. *)
Theorem RangeCollector_expand_round_trip (ops : list RangeOps.op) :
  NoDup (RangeOps.appended ops) ->
  RangeOps.expandAll
    (RangeCollector.destroy (RangeOps.run (RangeCollector.init []) ops))
  = RangeOps.appended ops.
Proof.
  intros Hnd.
  apply (run_content_distinct ops (RangeCollector.init [])); [cbn; lia|].
  exact Hnd.
Qed.

Lemma RangeCollector_expand_round_trip_witness :
  RangeOps.expandAll
    (RangeCollector.destroy
       (RangeOps.run (RangeCollector.init []) RangeOps.testFlush))
  = [(3, 5); (3, 6); (3, 7); (4, 0)].
Proof.
  apply (RangeCollector_expand_round_trip RangeOps.testFlush).
  apply (bool_decide_unpack _). vm_compute. exact I.
Defined.

(** ** Runs of consecutive splats *)

Section RunFacts.

Import RangeOps.

Local Abbreviation M := Range.size_max.

(** The full ranges of a run: [q] ranges of [size_max] splats each. *)
Local Abbreviation fulls s a q :=
  ((fun j => Range.mk s M (a + j * M)) <$> seqZ 0 q).

Lemma consecutive_snoc s a n :
  0 <= n -> consecutive s a (n + 1) = consecutive s a n ++ [(s, a + n)].
Proof.
  intros Hn. unfold consecutive. rewrite seqZ_app by lia.
  rewrite fmap_app. reflexivity.
Qed.

Lemma appendAll_snoc c ids s i :
  RangeCollector.appendAll c (ids ++ [(s, i)])
  = RangeCollector.append (RangeCollector.appendAll c ids) s i.
Proof. unfold RangeCollector.appendAll. rewrite fold_left_app. reflexivity. Qed.

(** The collector after a run of [n + 1] consecutive splats. *)
Lemma consecutive_state s a out0 (n : nat) :
  let N := Z.of_nat n + 1 in
  let q := (N - 1) / M in
  RangeCollector.appendAll (RangeCollector.init out0) (consecutive s a N)
  = RangeCollector.mk (Range.mk s (N - q * M) (a + q * M)) (out0 ++ fulls s a q).
Proof.
  assert (0 < M) as HM by (unfold Range.size_max; lia).
  induction n as [|n IH].
  - cbn zeta. change (Z.of_nat 0 + 1) with 1. change ((1 - 1) / M) with 0.
    change (consecutive s a 1) with [(s, a + 0)].
    cbn. rewrite app_nil_r, !Z.add_0_r. reflexivity.
  - cbn zeta in *. replace (Z.of_nat (S n) + 1) with (Z.of_nat n + 1 + 1) by lia.
    set (N := Z.of_nat n + 1) in *.
    rewrite consecutive_snoc by lia. rewrite appendAll_snoc, IH. clear IH.
    replace (N + 1 - 1) with N by lia.
    set (q := (N - 1) / M).
    pose proof (Z.div_mod (N - 1) M ltac:(lia)) as Hdm.
    pose proof (Z.mod_pos_bound (N - 1) M HM) as Hmod. fold q in Hdm.
    assert (0 <= q) as Hq by (apply Z.div_pos; lia).
    unfold RangeCollector.append, Range.append.
    cbn [RangeCollector.current RangeCollector.out Range.size Range.scan
         Range.start].
    destruct (Z.eqb_spec (N - q * M) 0) as [E0|_]; [lia|].
    rewrite Z.eqb_refl.
    destruct (Z.eqb_spec (a + N) (a + q * M + (N - q * M))) as [_|Ne]; [|lia].
    cbn [andb].
    destruct (Z.ltb_spec (N - q * M) M) as [Hlt|Hge].
    + assert (N / M = q) as ->.
      { symmetry. apply (Z.div_unique N M q (N - q * M)); lia. }
      f_equal. f_equal. lia.
    + assert (N / M = q + 1) as ->.
      { symmetry. apply (Z.div_unique N M (q + 1) 0); lia. }
      destruct (Z.leb_spec (a + q * M) (a + N)); [|lia].
      destruct (Z.ltb_spec (a + N) (a + q * M + (N - q * M))); [lia|].
      cbn [andb]. unfold Range.single. f_equal.
      * f_equal; lia.
      * rewrite seqZ_app by lia. rewrite fmap_app, app_assoc.
        f_equal. unfold seqZ. change (Z.to_nat 1) with 1%nat.
        cbn [seq fmap list_fmap]. change (Z.of_nat 0) with 0.
        do 2 f_equal; lia.
Qed.

End RunFacts.

(** X4: a run of [count] consecutive splats of one scan, appended to a
    fresh collector, is written as full ranges of [2^32 - 1] splats
    followed by one range with the rest: the run is split only where a
    range's 32-bit size would overflow, and no splat is lost at the
    split. *)
Theorem RangeCollector_consecutive_run (s a count : Z) :
  0 < count ->
  let q := (count - 1) / Range.size_max in
  RangeCollector.destroy
    (RangeCollector.appendAll (RangeCollector.init [])
       (RangeOps.consecutive s a count))
  = ((fun j => Range.mk s Range.size_max (a + j * Range.size_max))
       <$> seqZ 0 q)
    ++ [Range.mk s (count - q * Range.size_max) (a + q * Range.size_max)].
Proof.
  intros Hc q.
  pose proof (consecutive_state s a [] (Z.to_nat (count - 1))) as H.
  cbn zeta in H. replace (Z.of_nat (Z.to_nat (count - 1)) + 1) with count in H
    by lia.
  fold q in H. rewrite H. apply destroy_nonempty.
  cbn [Range.size].
  assert (0 < Range.size_max) as HM by (unfold Range.size_max; lia).
  pose proof (Z.div_mod (count - 1) Range.size_max ltac:(lia)) as Hdm.
  pose proof (Z.mod_pos_bound (count - 1) Range.size_max HM) as Hmod.
  fold q in Hdm. lia.
Qed.

(** TestRangeBig::testBigRange: 0x123456789 consecutive splats give the two
    ranges the nightly test expects. *)
Lemma RangeCollector_consecutive_run_witness :
  RangeCollector.destroy
    (RangeCollector.appendAll (RangeCollector.init [])
       (RangeOps.consecutive 0 0 0x123456789))
  = [Range.mk 0 0xFFFFFFFF 0; Range.mk 0 0x2345678A 0xFFFFFFFF].
Proof.
  exact (eq_trans
           (RangeCollector_consecutive_run 0 0 0x123456789 ltac:(lia))
           eq_refl).
Defined.

(** ** Ranges of ids in increasing order *)

Section CoalesceFacts.

Import RangeOps.

Local Abbreviation chain rs :=
  (forall (k : nat) prev range,
      rs !! k = Some prev -> rs !! S k = Some range -> apart prev range).

Lemma chain_prefix (l1 l2 : list Range.t) : chain (l1 ++ l2) -> chain l1.
Proof.
  intros H k prev range Hp Hr. apply (H k).
  - apply lookup_app_l_Some. exact Hp.
  - apply lookup_app_l_Some. exact Hr.
Qed.

Lemma chain_snoc (rs : list Range.t) a :
  chain rs -> (forall p, last rs = Some p -> apart p a) -> chain (rs ++ [a]).
Proof.
  intros Hc Hlast k prev range Hp Hr.
  apply lookup_app_Some in Hr as [Hr|[Hlen Hr]].
  - apply (Hc k); [|exact Hr].
    apply lookup_app_Some in Hp as [Hp|[Hlen _]]; [exact Hp|].
    apply lookup_lt_Some in Hr. lia.
  - apply list_lookup_singleton_Some in Hr as [Hk <-].
    apply Hlast. rewrite last_lookup.
    apply lookup_app_Some in Hp as [Hp|[Hlen' _]]; [|lia].
    replace (pred (length rs)) with k by lia. exact Hp.
Qed.

Lemma chain_replace (rs0 : list Range.t) r r' :
  chain (rs0 ++ [r]) -> (forall p, apart p r -> apart p r') ->
  chain (rs0 ++ [r']).
Proof.
  intros Hc Himp. apply chain_snoc; [apply (chain_prefix rs0 [r]), Hc|].
  intros p Hp. apply Himp. rewrite last_lookup in Hp.
  assert (length rs0 <> 0%nat) as Hlen.
  { destruct rs0; [discriminate Hp|cbn; lia]. }
  apply (Hc (pred (length rs0))).
  - apply lookup_app_l_Some. exact Hp.
  - replace (S (pred (length rs0))) with (length rs0) by lia.
    rewrite lookup_app_r by lia. rewrite Nat.sub_diag. reflexivity.
Qed.

Lemma appendAll_run c ids :
  RangeCollector.appendAll c ids
  = run c ((fun id => Append (fst id) (snd id)) <$> ids).
Proof.
  revert c. induction ids as [|id ids IH]; intros c; [reflexivity|].
  cbn. apply IH.
Qed.

Lemma appended_fmap ids :
  appended ((fun id => Append (fst id) (snd id)) <$> ids) = ids.
Proof.
  induction ids as [|[s i] ids IH]; [reflexivity|].
  cbn [fmap list_fmap]. rewrite appended_cons, IH. reflexivity.
Qed.

(** After appending ids to a fresh collector: something is buffered as
    soon as an id was appended, and the ids of the ranges are ids that
    were appended. *)
Lemma appendAll_state ids :
  let c := RangeCollector.appendAll (RangeCollector.init []) ids in
  0 <= Range.size (RangeCollector.current c)
  /\ (ids <> [] -> 0 < Range.size (RangeCollector.current c))
  /\ (ids = [] -> RangeCollector.destroy c = [])
  /\ forall id, id ∈ expandAll (RangeCollector.destroy c) <-> id ∈ ids.
Proof.
  cbn zeta. split; [|split; [|split]].
  - induction ids as [|[s i] ids IH] using rev_ind; [cbn; lia|].
    rewrite appendAll_snoc.
    destruct (append_effect _ s i IH) as [H _]. lia.
  - intros Hne. destruct ids as [|x ids] using rev_ind; [congruence|].
    destruct x as [s i]. rewrite appendAll_snoc. clear IHids.
    assert (0 <= Range.size
                   (RangeCollector.current
                      (RangeCollector.appendAll (RangeCollector.init []) ids)))
      as Hsize.
    { clear. induction ids as [|[s i] ids IH] using rev_ind; [cbn; lia|].
      rewrite appendAll_snoc.
      destruct (append_effect _ s i IH) as [H _]. lia. }
    destruct (append_effect _ s i Hsize) as [H _]. exact H.
  - intros ->. reflexivity.
  - intros id. rewrite appendAll_run.
    rewrite (run_content_elem _ (RangeCollector.init []) id ltac:(cbn; lia)).
    rewrite appended_fmap. cbn. split; [|auto].
    intros [H|H]; [inversion H|exact H].
Qed.

Lemma idLt_irrefl id : ~ idLt id id.
Proof. unfold idLt. lia. Qed.

Lemma idLt_NoDup ids : StronglySorted idLt ids -> NoDup ids.
Proof.
  induction 1 as [|x l Hl IH Hx]; constructor; [|exact IH].
  intros Hin. rewrite Forall_forall in Hx.
  apply (idLt_irrefl x). apply Hx. exact Hin.
Qed.

(** Ids in increasing order with indices below [2^32 - 1] give ranges
    whose neighbours are apart. *)
Lemma appendAll_chain ids :
  StronglySorted idLt ids ->
  Forall (fun id => 0 <= snd id < Range.size_max) ids ->
  chain (RangeCollector.destroy
           (RangeCollector.appendAll (RangeCollector.init []) ids)).
Proof.
  induction ids as [|[s i] l IH] using rev_ind; intros Hsorted Hidx.
  - intros k prev range Hp. destruct k; discriminate Hp.
  - apply StronglySorted_app in Hsorted as (Hbefore & Hl & _).
    apply Forall_app in Hidx as [Hidx Hi].
    inversion Hi as [|? ? Hi' _]; subst. cbn [snd] in Hi'. clear Hi.
    specialize (IH Hl Hidx). rewrite appendAll_snoc.
    destruct (appendAll_state l) as (Hsize & Hpos & Hnil & Hmem).
    set (c := RangeCollector.appendAll (RangeCollector.init []) l) in *.
    assert (forall r rs0 j,
              RangeCollector.destroy c = rs0 ++ [r] -> 0 <= j < Range.size r ->
              (Range.scan r, Range.start r + j) ∈ l
              /\ idLt (Range.scan r, Range.start r + j) (s, i)) as Hlast.
    { intros r rs0 j Ers Hj.
      assert ((Range.scan r, Range.start r + j) ∈ l) as Hin.
      { apply Hmem. rewrite Ers, expandAll_app, expandAll_single.
        apply elem_of_app. right. apply elem_of_expand.
        unfold Bucketer.covers. lia. }
      split; [exact Hin|].
      apply (Hbefore _ (s, i) Hin). left. }
    destruct (append_effect c s i Hsize) as (_ & Hcase).
    destruct Hcase as [[-> Hwhy]|[(r & rs0 & Ers & _ & Es & Ei & Hr & ->)
                                  |(r & rs0 & Ers & Hcov & _)]].
    + apply chain_snoc; [exact IH|]. intros p Hp.
      destruct (decide (l = [])) as [->|Hne].
      { rewrite Hnil in Hp by reflexivity. discriminate Hp. }
      specialize (Hpos Hne).
      destruct Hwhy as [E0|Efail]; [lia|].
      assert (RangeCollector.destroy c
              = RangeCollector.out c ++ [RangeCollector.current c]) as Ers.
      { destruct c as [cur out]. apply destroy_nonempty. exact Hpos. }
      rewrite Ers, last_snoc in Hp. injection Hp as <-.
      set (cur := RangeCollector.current c) in *.
      destruct (Hlast cur _ 0 Ers ltac:(lia)) as [Hfirst _].
      rewrite Forall_forall in Hidx. apply Hidx in Hfirst. cbn [snd] in Hfirst.
      destruct (Hlast cur _ (Range.size cur - 1) Ers ltac:(lia)) as [_ Hlt].
      unfold idLt in Hlt. cbn [fst snd] in Hlt.
      unfold apart. cbn [Range.scan Range.start Range.size].
      destruct Hlt as [Hlt|[Escan Hlt]]; [left; lia|right].
      split; [lia|].
      destruct (Z.eq_dec i (Range.start cur + Range.size cur)) as [Ei|Ni]; [|lia].
      exfalso. unfold Range.append in Efail.
      destruct (Z.eqb_spec (Range.size cur) 0); [lia|].
      destruct (Z.eqb_spec s (Range.scan cur)); [|lia].
      destruct (Z.eqb_spec i (Range.start cur + Range.size cur)); [|lia].
      destruct (Z.ltb_spec (Range.size cur) Range.size_max); [|lia].
      cbn in Efail. discriminate Efail.
    + rewrite Ers in IH. apply (chain_replace rs0 r); [exact IH|].
      intros p Hp. exact Hp.
    + exfalso. apply (idLt_irrefl (s, i)).
      apply (Hbefore (s, i)); [|left].
      apply Hmem. rewrite Ers, expandAll_app, expandAll_single.
      apply elem_of_app. right. apply elem_of_expand. exact Hcov.
Qed.

End CoalesceFacts.

(** X5: ids appended in increasing order (by scan, then by index), with
    indices below [2^32 - 1], are coalesced into maximal runs: of two
    neighbouring ranges written, the second has a greater scan, or the
    same scan and a start beyond the end of the first with at least one
    index left out in between. *)
Theorem RangeCollector_coalesces_increasing_ids (ids : list (Z * Z)) :
  StronglySorted RangeOps.idLt ids ->
  Forall (fun id => 0 <= snd id < Range.size_max) ids ->
  forall (k : nat) prev range,
    RangeCollector.destroy
      (RangeCollector.appendAll (RangeCollector.init []) ids) !! k = Some prev ->
    RangeCollector.destroy
      (RangeCollector.appendAll (RangeCollector.init []) ids) !! S k
    = Some range ->
    RangeOps.apart prev range.
Proof. intros Hs Hi. apply appendAll_chain; assumption. Qed.

Lemma RangeCollector_coalesces_increasing_ids_witness :
  RangeOps.apart (Range.mk 5 1 2) (Range.mk 5 2 4).
Proof.
  apply (RangeCollector_coalesces_increasing_ids
           [(3, 5); (3, 6); (4, 7); (5, 2); (5, 4); (5, 5)]) with (k := 2%nat).
  - repeat first [apply SSorted_nil | apply SSorted_cons
                 | apply Forall_nil_2 | apply Forall_cons_2];
      unfold RangeOps.idLt; cbn; lia.
  - repeat first [apply Forall_nil_2 | apply Forall_cons_2];
      unfold Range.size_max; cbn; lia.
  - vm_compute. reflexivity.
  - vm_compute. reflexivity.
Defined.

(** ** The buckets against the assertions of TestBucket::validate *)

Section ValidateFacts.

Import Bucketer RangeOps Validate.

(** The order of the splats of the source: by scan, then by index. *)
Local Abbreviation splatLt :=
  (fun a b : Splat => idLt (scan a, index a) (scan b, index b)).

Lemma StronglySorted_imap {A B} (R : B -> B -> Prop) (l : list A) :
  forall f : nat -> A -> B,
    (forall (i j : nat) x y, (i < j)%nat -> l !! i = Some x -> l !! j = Some y ->
                             R (f i x) (f j y)) ->
    StronglySorted R (imap f l).
Proof.
  induction l as [|a l IH]; intros f Hf; [constructor|].
  rewrite imap_cons. constructor.
  - apply IH. intros i j x y Hij Hi Hj. apply (Hf (S i) (S j)); [lia|exact Hi|exact Hj].
  - apply Forall_forall. intros b Hb.
    apply elem_of_lookup_imap in Hb as (j & y & -> & Hj).
    apply (Hf 0%nat (S j)); [lia|reflexivity|exact Hj].
Qed.

Lemma StronglySorted_concat_lookup {A} (R : A -> A -> Prop) (ls : list (list A)) :
  (forall l, l ∈ ls -> StronglySorted R l) ->
  (forall (i j : nat) la lb x y,
      (i < j)%nat -> ls !! i = Some la -> ls !! j = Some lb ->
      x ∈ la -> y ∈ lb -> R x y) ->
  StronglySorted R (concat ls).
Proof.
  induction ls as [|l ls IH]; intros Hpart Hcross; [constructor|].
  cbn [concat]. apply StronglySorted_app. split; [|split].
  - intros x y Hx Hy. apply elem_of_concat in Hy as (lb & Hy & Hlb).
    apply list_elem_of_lookup in Hlb as (j & Hj).
    apply (Hcross 0%nat (S j) l lb); [lia|reflexivity|exact Hj|exact Hx|exact Hy].
  - apply Hpart. left.
  - apply IH.
    + intros l' Hl'. apply Hpart. right. exact Hl'.
    + intros i j la lb x y Hij Hi Hj. apply (Hcross (S i) (S j)); [lia|exact Hi|exact Hj].
Qed.

(** The splats of the source come in increasing order; their indices are
    positions in their files. *)
Lemma enumerate_sorted files : StronglySorted splatLt (enumerate files).
Proof.
  unfold enumerate. apply StronglySorted_concat_lookup.
  - intros l Hl. apply elem_of_lookup_imap in Hl as (s & file & -> & _).
    apply StronglySorted_imap. intros i j x y Hij _ _.
    unfold idLt. cbn. lia.
  - intros i j la lb x y Hij Hi Hj Hx Hy.
    apply list_lookup_imap_Some in Hi as (fa & _ & ->).
    apply list_lookup_imap_Some in Hj as (fb & _ & ->).
    apply elem_of_lookup_imap in Hx as (ia & ca & -> & _).
    apply elem_of_lookup_imap in Hy as (ib & cb & -> & _).
    unfold idLt. cbn. lia.
Qed.

Lemma enumerate_index files sp :
  Forall (fun file : list grid => Z.of_nat (length file) <= Range.size_max) files ->
  sp ∈ enumerate files -> 0 <= index sp < Range.size_max.
Proof.
  intros Hfiles Hsp.
  apply elem_of_enumerate in Hsp as (s & i & file & Hf & Hc & _ & ->).
  apply lookup_lt_Some in Hc. rewrite Forall_forall in Hfiles.
  assert (file ∈ files) as Hin by (apply list_elem_of_lookup; eauto).
  specialize (Hfiles file Hin). lia.
Qed.

Lemma StronglySorted_fmap_ids (l : list Splat) :
  StronglySorted splatLt l ->
  StronglySorted idLt ((fun s => (scan s, index s)) <$> l).
Proof.
  induction 1 as [|x l Hl IH Hx]; [constructor|].
  cbn [fmap list_fmap]. constructor; [exact IH|].
  apply Forall_fmap. exact Hx.
Qed.

Local Abbreviation sizes rs := (SplatTree.sumZ (Range.size <$> rs)).

Local Abbreviation chain rs :=
  (forall (k : nat) prev range,
      rs !! k = Some prev -> rs !! S k = Some range -> apart prev range).

Lemma sizes_nonneg (rs : list Range.t) :
  Forall (fun r => 0 < Range.size r) rs -> 0 <= sizes rs.
Proof.
  induction 1 as [|r rs Hr _ IH]; cbn; [lia|].
  unfold SplatTree.sumZ in IH. lia.
Qed.

(** The loop over the ranges passes on ranges that are not empty, whose
    neighbours are apart, and whose sizes add up within 64 bits; it
    returns the sum of the sizes. *)
Lemma rangesLoop_passes (rs : list Range.t) : forall prev acc,
  Forall (fun r => 0 < Range.size r) rs ->
  (forall r, r ∈ from_option (fun p => [p]) [] prev ++ rs ->
             0 <= Range.start r + Range.size r < 2 ^ 64) ->
  chain (from_option (fun p => [p]) [] prev ++ rs) ->
  0 <= acc -> acc + sizes rs < 2 ^ 64 ->
  rangesLoop prev rs acc = Some (acc + sizes rs).
Proof.
  induction rs as [|r rs IH]; intros prev acc Hpos Hbound Hchain Hacc Hsum;
    cbn [rangesLoop].
  - cbn. rewrite Z.add_0_r. reflexivity.
  - apply Forall_cons in Hpos as [Hr Hpos].
    pose proof (sizes_nonneg rs Hpos) as Hrest.
    cbn [fmap list_fmap SplatTree.sumZ foldr] in Hsum.
    fold (SplatTree.sumZ (Range.size <$> rs)) in Hsum.
    assert (wrap64 (acc + Range.size r) = acc + Range.size r) as ->.
    { unfold wrap64. apply Z.mod_small. lia. }
    destruct (Z.ltb_spec 0 (Range.size r)) as [_|]; [|lia]. cbn [andb].
    assert (match prev with
            | Some prev0 =>
                (Range.scan prev0 <? Range.scan r)
                || (Range.scan r =? Range.scan prev0)
                   && (wrap64 (Range.start prev0 + Range.size prev0)
                       <? Range.start r)
            | None => true
            end = true) as ->.
    { destruct prev as [p|]; [|reflexivity].
      assert (apart p r) as Hap by (apply (Hchain 0%nat); reflexivity).
      assert (wrap64 (Range.start p + Range.size p)
              = Range.start p + Range.size p) as ->.
      { unfold wrap64. apply Z.mod_small. apply Hbound. cbn. left. }
      unfold apart in Hap.
      destruct (Z.ltb_spec (Range.scan p) (Range.scan r)); [reflexivity|].
      destruct (Z.eqb_spec (Range.scan r) (Range.scan p)); [|lia].
      destruct (Z.ltb_spec (Range.start p + Range.size p) (Range.start r));
        [reflexivity|lia]. }
    rewrite IH; [| exact Hpos | | | lia | lia].
    + f_equal. cbn. unfold SplatTree.sumZ. lia.
    + intros r' Hr'. apply Hbound. apply elem_of_app. right.
      cbn in Hr'. exact Hr'.
    + intros k a b Ha Hb. cbn [from_option app] in Ha, Hb.
      destruct prev as [p|]; cbn [from_option app] in Hchain.
      * apply (Hchain (S k)); [exact Ha|exact Hb].
      * apply (Hchain k); [exact Ha|exact Hb].
Qed.

Lemma length_expandAll (rs : list Range.t) :
  Forall (fun r => 0 < Range.size r) rs ->
  Z.of_nat (length (expandAll rs)) = sizes rs.
Proof.
  induction 1 as [|r rs Hr _ IH]; [reflexivity|].
  unfold expandAll in *. rewrite bind_cons, length_app, Nat2Z.inj_add, IH.
  rewrite length_expand by lia. reflexivity.
Qed.

Lemma appendAll_nonempty_ranges ids :
  Forall (fun r => 0 < Range.size r)
         (RangeCollector.destroy
            (RangeCollector.appendAll (RangeCollector.init []) ids)).
Proof.
  induction ids as [|[s i] ids IH] using rev_ind; [constructor|].
  rewrite appendAll_snoc.
  destruct (appendAll_state ids) as (Hsize & _).
  destruct (append_effect _ s i Hsize) as (_ & Hcase).
  destruct Hcase as [[-> _]|[(r & rs0 & Ers & _ & _ & _ & Hr & ->)
                             |(r & rs0 & _ & _ & ->)]].
  - apply Forall_app. split; [exact IH|]. constructor; [cbn; lia|constructor].
  - rewrite Ers in IH. apply Forall_app in IH as [IH _].
    apply Forall_app. split; [exact IH|]. constructor; [cbn; lia|constructor].
  - exact IH.
Qed.

(** The ranges of splats taken in the order of the source pass the loop
    over the ranges, which counts the splats. *)
Lemma collect_passes (l : list Splat) :
  StronglySorted splatLt l ->
  Forall (fun sp => 0 <= index sp < Range.size_max) l ->
  Z.of_nat (length l) < 2 ^ 64 ->
  rangesLoop None (collect l) 0 = Some (Z.of_nat (length l)).
Proof.
  intros Hsorted Hidx Hlen. unfold collect.
  set (ids := (fun s => (scan s, index s)) <$> l).
  assert (StronglySorted idLt ids) as Hids by (apply StronglySorted_fmap_ids, Hsorted).
  assert (Forall (fun id => 0 <= snd id < Range.size_max) ids) as Hidx'.
  { subst ids. apply Forall_fmap. exact Hidx. }
  pose proof (appendAll_nonempty_ranges ids) as Hpos.
  pose proof (appendAll_chain ids Hids Hidx') as Hchain.
  destruct (appendAll_state ids) as (_ & _ & _ & Hmem).
  assert (expandAll (RangeCollector.destroy
                       (RangeCollector.appendAll (RangeCollector.init []) ids))
          = ids) as Hround.
  { rewrite appendAll_run.
    rewrite (run_content_distinct _ (RangeCollector.init [])); [|cbn; lia|].
    - rewrite appended_fmap. reflexivity.
    - rewrite appended_fmap. cbn. apply idLt_NoDup, Hids. }
  set (rs := RangeCollector.destroy _) in *.
  assert (sizes rs = Z.of_nat (length l)) as Hsum.
  { rewrite <- (length_expandAll rs Hpos), Hround. subst ids.
    rewrite length_fmap. reflexivity. }
  rewrite (rangesLoop_passes rs None 0 Hpos); [rewrite Hsum; reflexivity| |exact Hchain|lia|lia].
  intros r Hr. cbn in Hr. rewrite Forall_forall in Hpos.
  rewrite Forall_forall in Hidx'.
  pose proof (Hpos r Hr) as Hsz.
  assert ((Range.scan r, Range.start r + 0) ∈ ids
          /\ (Range.scan r, Range.start r + (Range.size r - 1)) ∈ ids) as [H0 H1].
  { split; apply Hmem; unfold expandAll; apply list_elem_of_bind; exists r;
      (split; [|exact Hr]); apply elem_of_expand; unfold covers; lia. }
  apply Hidx' in H0, H1. cbn [snd] in H0, H1.
  unfold Range.size_max in *. lia.
Qed.

Lemma noOverlap_sorted (bs : list Bucket) :
  StronglySorted (fun a b => disjoint (bgrid a) (bgrid b)) bs ->
  noOverlap bs = true.
Proof.
  induction 1 as [|b bs Hs IH Hb]; [reflexivity|].
  cbn [noOverlap]. rewrite IH, andb_true_r.
  apply forallb_forall. intros b2 Hb2. rewrite Forall_forall in Hb.
  apply list_elem_of_In in Hb2. apply Hb in Hb2. unfold disjoint in Hb2.
  rewrite Hb2. reflexivity.
Qed.

End ValidateFacts.

(** X6: the blocks of every successful call of [bucket] pass the
    assertions TestBucket::validate makes on blocks, ranges and grids:
    the bounds on cells and splats, no empty block, each grid within the
    full grid, no empty range, ids increasing and ranges coalesced, the
    sizes of the ranges adding up to the splat count of the block, and no
    two blocks overlapping; provided no file has more than [2^32 - 1]
    splats (beyond that the test's assertion on neighbours fails, as its
    comment says) and [maxSplats] is a 64-bit value. *)
Theorem bucket_passes_validate
    MAX_DIM maxSplats maxCells maxSplit leafCells files bbox bs :
  0 < maxCells -> 0 < leafCells -> Bucketer.nonempty bbox ->
  maxSplats < 2 ^ 64 ->
  Forall (fun file : list Bucketer.grid =>
            Z.of_nat (length file) <= Range.size_max) files ->
  Bucketer.bucket MAX_DIM maxSplats maxCells maxSplit leafCells files bbox
  = Ret bs ->
  Validate.validate bbox bs maxSplats maxCells = true.
Proof.
  intros Hc Hl Hne Hms Hfiles E.
  destruct (bucket_spec _ _ _ _ _ _ _ _ Hc Hl Hne E) as (Hok & Hdisj & _).
  unfold Validate.validate. rewrite (noOverlap_sorted bs Hdisj), andb_true_r.
  apply forallb_forall. intros b Hb. apply list_elem_of_In in Hb.
  rewrite Forall_forall in Hok.
  destruct (Hok b Hb) as (Hsub & Hcells & Hcount & Hranges & Hnum).
  unfold Validate.checkBlock. rewrite Hranges.
  set (l := List.filter
              (fun s => Bucketer.gridsIntersect (Bucketer.bgrid b) (Bucketer.cube s))
              (Bucketer.enumerate files)) in *.
  rewrite (collect_passes l).
  - apply max3_le in Hcells.
    destruct (Bucketer.numCells (Bucketer.bgrid b)) as [[cx cy] cz].
    destruct bbox as [[fx fy] fz], (Bucketer.bgrid b) as [[ex ey] ez].
    cbn [Bucketer.subGrid] in Hsub. unfold Bucketer.extentSub in Hsub.
    rewrite <- Hnum, Z.eqb_refl.
    repeat (apply andb_true_intro; split);
      first [apply Z.leb_le | apply Z.ltb_lt | reflexivity]; lia.
  - apply StronglySorted_List_filter, enumerate_sorted.
  - apply Forall_forall. intros sp Hsp. apply elem_of_List_filter in Hsp as [Hsp _].
    apply (enumerate_index files sp Hfiles Hsp).
  - rewrite <- Hnum. lia.
Qed.

Lemma bucket_passes_validate_witness :
  Validate.validate Bucketer.testGrid Bucketer.testSimple_blocks 5 8 = true.
Proof.
  apply (bucket_passes_validate (2 ^ 31) 5 8 1000000 1 Bucketer.setupSimple).
  - lia.
  - lia.
  - vm_compute. repeat split.
  - lia.
  - repeat first [apply Forall_nil_2 | apply Forall_cons_2];
      unfold Range.size_max; cbn; lia.
  - vm_compute. reflexivity.
Defined.

(** ** Morton codes and the octree *)

Section MortonFacts.

Import SplatTree.

Lemma max3_child x y z a b c :
  0 <= a <= 1 -> 0 <= b <= 1 -> 0 <= c <= 1 ->
  max3 (2 * x + a) (2 * y + b) (2 * z + c) / 2 = max3 x y z.
Proof.
  intros Ha Hb Hc. rewrite <- max3_half.
  replace ((2 * x + a) / 2) with x by (apply (Z.div_unique _ 2 x a); lia).
  replace ((2 * y + b) / 2) with y by (apply (Z.div_unique _ 2 y b); lia).
  replace ((2 * z + c) / 2) with z by (apply (Z.div_unique _ 2 z c); lia).
  reflexivity.
Qed.

(** The code of a child cell: the code of its parent, then three more
    bits that say which octant it is. *)
Lemma interleave_child x y z a b c :
  0 <= x -> 0 <= y -> 0 <= z ->
  0 <= a <= 1 -> 0 <= b <= 1 -> 0 <= c <= 1 ->
  interleave (2 * x + a) (2 * y + b) (2 * z + c)
  = 8 * interleave x y z + (a + 2 * b + 4 * c).
Proof.
  intros Hx Hy Hz Ha Hb Hc. unfold interleave.
  set (m := max3 (2 * x + a) (2 * y + b) (2 * z + c)).
  pose proof (max3_child x y z a b c Ha Hb Hc) as Hhalf. fold m in Hhalf.
  destruct (Z.eq_dec m 0) as [E0|N0].
  - assert (x = 0 /\ y = 0 /\ z = 0 /\ a = 0 /\ b = 0 /\ c = 0)
      as (-> & -> & -> & -> & -> & ->) by (unfold max3 in m; lia).
    reflexivity.
  - assert (0 < m) as Hm by (unfold max3 in m; lia).
    pose proof (bitlen_half m Hm) as Hbl. rewrite Hhalf in Hbl.
    pose proof (bitlen_nonneg (max3 x y z)) as Hnn.
    replace (bitlen m) with (bitlen (max3 x y z) + 1) by lia.
    rewrite Z2Nat.inj_add by lia. rewrite Nat.add_1_r.
    cbn [interleave_bits].
    replace ((2 * x + a) / 2) with x by (apply (Z.div_unique _ 2 x a); lia).
    replace ((2 * y + b) / 2) with y by (apply (Z.div_unique _ 2 y b); lia).
    replace ((2 * z + c) / 2) with z by (apply (Z.div_unique _ 2 z c); lia).
    replace ((2 * x + a) mod 2) with a by (apply (Z.mod_unique _ 2 x a); lia).
    replace ((2 * y + b) mod 2) with b by (apply (Z.mod_unique _ 2 y b); lia).
    replace ((2 * z + c) mod 2) with c by (apply (Z.mod_unique _ 2 z c); lia).
    lia.
Qed.

Lemma valid_below digits L x y z :
  0 <= L -> 3 * L < digits ->
  0 <= x < 2 ^ L -> 0 <= y < 2 ^ L -> 0 <= z < 2 ^ L ->
  valid digits x y z /\ 0 <= interleave x y z < 8 ^ L.
Proof.
  intros HL Hfit Hx Hy Hz.
  assert (bitlen (max3 x y z) <= L) as Hb.
  { apply bitlen_bound; unfold max3; lia. }
  pose proof (bitlen_nonneg (max3 x y z)) as Hnn.
  split; [unfold valid; lia|].
  unfold interleave.
  pose proof (interleave_bits_bound (Z.to_nat (bitlen (max3 x y z))) x y z) as Hi.
  rewrite Z2Nat.id in Hi by lia. rewrite pow8 by lia.
  assert (2 ^ (3 * bitlen (max3 x y z)) <= 2 ^ (3 * L))
    by (apply Z.pow_le_mono_r; lia).
  lia.
Qed.

(** Every code below [8 ^ L] is the code of a cell of level [L]. *)
Lemma interleave_onto (L : nat) : forall c,
  0 <= c < 8 ^ Z.of_nat L ->
  exists x y z,
    0 <= x < 2 ^ Z.of_nat L /\ 0 <= y < 2 ^ Z.of_nat L
    /\ 0 <= z < 2 ^ Z.of_nat L /\ interleave x y z = c.
Proof.
  induction L as [|L IH]; intros c Hc.
  - exists 0, 0, 0. change (8 ^ Z.of_nat 0) with 1 in Hc.
    change (2 ^ Z.of_nat 0) with 1. repeat split; try lia.
    replace c with 0 by lia. reflexivity.
  - rewrite Nat2Z.inj_succ, Z.pow_succ_r in Hc by lia.
    rewrite Nat2Z.inj_succ, Z.pow_succ_r by lia.
    destruct (IH (c / 8)) as (x & y & z & Hx & Hy & Hz & E).
    { split; [apply Z.div_pos; lia|]. apply Z.div_lt_upper_bound; lia. }
    pose proof (Z.div_mod c 8 ltac:(lia)) as Hdm.
    pose proof (Z.mod_pos_bound c 8 ltac:(lia)) as Hd.
    set (d := c mod 8) in *.
    exists (2 * x + d mod 2), (2 * y + (d / 2) mod 2), (2 * z + (d / 4) mod 2).
    pose proof (Z.mod_pos_bound d 2 ltac:(lia)).
    pose proof (Z.mod_pos_bound (d / 2) 2 ltac:(lia)).
    pose proof (Z.mod_pos_bound (d / 4) 2 ltac:(lia)).
    repeat (split; [lia|]).
    rewrite interleave_child by lia. rewrite E.
    assert (d mod 2 + 2 * ((d / 2) mod 2) + 4 * ((d / 4) mod 2) = d) as ->; [|lia].
    assert (d = 0 \/ d = 1 \/ d = 2 \/ d = 3 \/ d = 4 \/ d = 5 \/ d = 6 \/ d = 7)
      as Hcases by lia.
    clearbody d.
    destruct Hcases as [->|[->|[->|[->|[->|[->|[->| ->]]]]]]]; reflexivity.
Qed.

End MortonFacts.

(** X7: the codes follow the octree.  The code of the child cell
    [(2x + a, 2y + b, 2z + c)] of a cell [(x, y, z)] is eight times the
    code of the cell plus the number [a + 2b + 4c] of the octant: the
    eight children of a cell have the eight consecutive codes that start
    at eight times its code. *)
Theorem makeCode_child_codes (digits x y z a b c : Z) :
  0 < digits <= SplatTree.uint_digits ->
  0 <= a <= 1 -> 0 <= b <= 1 -> 0 <= c <= 1 ->
  SplatTree.valid digits (2 * x + a) (2 * y + b) (2 * z + c) ->
  exists code,
    SplatTree.makeCode digits x y z = Ret code
    /\ SplatTree.makeCode digits (2 * x + a) (2 * y + b) (2 * z + c)
       = Ret (8 * code + (a + 2 * b + 4 * c)).
Proof.
  intros Hd Ha Hb Hc Hv. pose proof Hv as (Hx & Hy & Hz & Hfit).
  exists (SplatTree.interleave x y z). split.
  - apply makeCode_valid; [exact Hd|].
    unfold SplatTree.valid. repeat (split; [lia|]).
    assert (SplatTree.bitlen (SplatTree.max3 x y z)
            <= SplatTree.bitlen
                 (SplatTree.max3 (2 * x + a) (2 * y + b) (2 * z + c))); [|lia].
    apply bitlen_mono. unfold SplatTree.max3. lia.
  - rewrite makeCode_valid by assumption.
    rewrite interleave_child by lia. reflexivity.
Qed.

Lemma makeCode_child_codes_witness :
  exists code,
    SplatTree.makeCode 32 5 3 6 = Ret code
    /\ SplatTree.makeCode 32 11 6 13 = Ret (8 * code + (1 + 2 * 0 + 4 * 1)).
Proof.
  apply (makeCode_child_codes 32 5 3 6 1 0 1).
  - unfold SplatTree.uint_digits. lia.
  - lia.
  - lia.
  - lia.
  - unfold SplatTree.valid. vm_compute. repeat split; discriminate.
Defined.

(** X8: on each level of the octree the codes number the cells without
    gaps.  For a level [L] whose codes fit [size_type], [makeCode] returns
    a code below [8 ^ L] for every cell with coordinates below [2 ^ L], and
    every code below [8 ^ L] is the code of such a cell. *)
Theorem makeCode_numbers_level (digits L : Z) :
  0 < digits <= SplatTree.uint_digits -> 0 <= L -> 3 * L < digits ->
  (forall x y z,
      0 <= x < 2 ^ L -> 0 <= y < 2 ^ L -> 0 <= z < 2 ^ L ->
      exists code,
        SplatTree.makeCode digits x y z = Ret code /\ 0 <= code < 8 ^ L)
  /\ (forall code,
        0 <= code < 8 ^ L ->
        exists x y z,
          0 <= x < 2 ^ L /\ 0 <= y < 2 ^ L /\ 0 <= z < 2 ^ L
          /\ SplatTree.makeCode digits x y z = Ret code).
Proof.
  intros Hd HL Hfit. split.
  - intros x y z Hx Hy Hz.
    destruct (valid_below digits L x y z HL Hfit Hx Hy Hz) as [Hv Hb].
    exists (SplatTree.interleave x y z). split; [|exact Hb].
    apply makeCode_valid; assumption.
  - intros code Hcode.
    destruct (interleave_onto (Z.to_nat L) code) as (x & y & z & Hx & Hy & Hz & E).
    { rewrite Z2Nat.id by lia. exact Hcode. }
    rewrite Z2Nat.id in Hx, Hy, Hz by lia.
    exists x, y, z. repeat (split; [lia|]).
    destruct (valid_below digits L x y z HL Hfit Hx Hy Hz) as [Hv _].
    rewrite makeCode_valid by assumption. rewrite E. reflexivity.
Qed.

Lemma makeCode_numbers_level_witness :
  (forall x y z,
      0 <= x < 2 ^ 3 -> 0 <= y < 2 ^ 3 -> 0 <= z < 2 ^ 3 ->
      exists code, SplatTree.makeCode 32 x y z = Ret code /\ 0 <= code < 8 ^ 3)
  /\ (forall code,
        0 <= code < 8 ^ 3 ->
        exists x y z,
          0 <= x < 2 ^ 3 /\ 0 <= y < 2 ^ 3 /\ 0 <= z < 2 ^ 3
          /\ SplatTree.makeCode 32 x y z = Ret code).
Proof.
  apply (makeCode_numbers_level 32 3).
  - unfold SplatTree.uint_digits. lia.
  - lia.
  - lia.
Defined.

(** ** The constructor on every splat vector *)

Section ConstructorTotality.

Import SplatTree.

Variable Splat Grid : Type.
Variable numVertices : Grid -> Z * Z * Z.
Variable vertexBounds : Grid -> Splat -> (Z * Z * Z) * (Z * Z * Z).
Variable digits : Z.
Hypothesis digits_range : 0 < digits <= uint_digits.

Local Abbreviation splat_entries := (splat_entries Splat Grid numVertices vertexBounds digits).
Local Abbreviation all_entries := (all_entries Splat Grid numVertices vertexBounds digits).
Local Abbreviation compute_maxLevel := (compute_maxLevel Grid numVertices).
Local Abbreviation levels_fit := (levels_fit Grid numVertices digits).
Local Abbreviation construct := (construct Splat Grid numVertices vertexBounds digits).

(** When the shift loop is left, the two shifted bounds are neighbours at
    most. *)
Lemma shift_loop_exit fuel : forall lo hi s0 s,
  shift_loop fuel lo hi s0 = Ret s -> Z.shiftr hi s - Z.shiftr lo s <= 1.
Proof.
  induction fuel as [|f IH]; intros lo hi s0 s; cbn [shift_loop];
    destruct (Z.ltb_spec 1 (Z.shiftr hi s0 - Z.shiftr lo s0)) as [Hgt|Hle];
    try discriminate.
  - intros E. injection E as <-. exact Hle.
  - apply IH.
  - intros E. injection E as <-. exact Hle.
Qed.

Lemma shiftr_succ v s : 0 <= s -> Z.shiftr v (s + 1) = Z.shiftr v s / 2.
Proof.
  intros Hs. rewrite <- Z.shiftr_shiftr by lia.
  rewrite (Z.shiftr_div_pow2 _ 1) by lia. reflexivity.
Qed.

Lemma shiftr_mono v w s : 0 <= s -> v <= w -> Z.shiftr v s <= Z.shiftr w s.
Proof.
  intros Hs Hvw. rewrite !Z.shiftr_div_pow2 by lia.
  apply Z.div_le_mono; [apply Z.pow_pos_nonneg; lia|exact Hvw].
Qed.

(** Shifting further keeps neighbours neighbours. *)
Lemma shiftr_close lo hi s s' :
  0 <= s <= s' -> Z.shiftr hi s - Z.shiftr lo s <= 1 ->
  Z.shiftr hi s' - Z.shiftr lo s' <= 1.
Proof.
  intros Hs H. replace s' with (s + (s' - s)) by lia.
  rewrite <- !Z.shiftr_shiftr by lia.
  set (a := Z.shiftr lo s) in *. set (b := Z.shiftr hi s) in *.
  pose proof (shiftr_mono b (a + 1) (s' - s) ltac:(lia) ltac:(lia)) as Hm.
  rewrite !Z.shiftr_div_pow2 in * by lia.
  assert (0 < 2 ^ (s' - s)) as Hp by (apply Z.pow_pos_nonneg; lia).
  assert ((a + 1) / 2 ^ (s' - s) <= a / 2 ^ (s' - s) + 1); [|lia].
  rewrite <- Z.div_add by lia.
  apply Z.div_le_mono; [exact Hp|nia].
Qed.

(** The shift loop ends: below [2 ^ B] the bounds have met by shift [B]. *)
Lemma shift_loop_returns fuel : forall lo hi s0 B,
  0 <= s0 -> 0 <= lo -> 0 <= hi < 2 ^ B -> B - s0 <= Z.of_nat fuel ->
  exists s, shift_loop fuel lo hi s0 = Ret s /\ s0 <= s <= Z.max s0 B.
Proof.
  induction fuel as [|f IH]; intros lo hi s0 B Hs0 Hlo Hhi Hfuel;
    cbn [shift_loop];
    (destruct (Z.ltb_spec 1 (Z.shiftr hi s0 - Z.shiftr lo s0)) as [Hgt|Hle];
     [|exists s0; split; [reflexivity|lia]]);
    (assert (s0 < B) as HsB;
     [destruct (Z.lt_ge_cases s0 B) as [|Hge]; [assumption|];
      exfalso;
      assert (Z.shiftr hi s0 = 0) as E0;
      [rewrite Z.shiftr_div_pow2 by lia; apply Z.div_small; split; [lia|];
       assert (2 ^ B <= 2 ^ s0) by (apply Z.pow_le_mono_r; lia); lia|];
      pose proof (proj2 (Z.shiftr_nonneg lo s0) Hlo); lia|]).
  - lia.
  - destruct (IH lo hi (s0 + 1) B) as (s & E & Hs); [lia..|].
    exists s. split; [exact E|lia].
Qed.

Lemma axis_step_returns nv lo hi s0 B :
  0 <= lo < nv -> 0 <= hi < nv -> nv <= 2 ^ B ->
  0 <= s0 -> 0 <= B <= uint_digits ->
  exists s, axis_step nv lo hi s0 = Ret s /\ s0 <= s <= Z.max s0 B.
Proof.
  intros Hlo Hhi Hnv Hs0 HB. unfold axis_step, assert.
  destruct (Z.leb_spec 0 hi); [|lia]. destruct (Z.ltb_spec hi nv); [|lia].
  destruct (Z.leb_spec 0 lo); [|lia]. destruct (Z.ltb_spec lo nv); [|lia].
  cbn [andb mbind outcome_bind bind].
  apply shift_loop_returns; lia.
Qed.

Lemma axis_step_exit nv lo hi s0 s :
  axis_step nv lo hi s0 = Ret s -> Z.shiftr hi s - Z.shiftr lo s <= 1.
Proof.
  unfold axis_step, assert.
  destruct ((0 <=? hi) && (hi <? nv)); cbn; try discriminate.
  destruct ((0 <=? lo) && (lo <? nv)); cbn; try discriminate.
  apply shift_loop_exit.
Qed.

Lemma length_cells lx ly lz hx hy hz :
  length (cells (lx, ly, lz) (hx, hy, hz))
  = (Z.to_nat (hz - lz + 1) * (Z.to_nat (hy - ly + 1) * Z.to_nat (hx - lx + 1)))%nat.
Proof.
  unfold cells.
  assert (Hb : forall {A B} (f : A -> list B) (l : list A) (n : nat),
            (forall a, length (f a) = n) -> length (l ≫= f) = (length l * n)%nat).
  { intros A B f l n Hf. induction l as [|a l IH]; [reflexivity|].
    rewrite bind_cons, length_app, IH, Hf. cbn. lia. }
  rewrite (Hb _ _ _ _ (Z.to_nat (hy - ly + 1) * Z.to_nat (hx - lx + 1))%nat).
  - rewrite length_seqZ. reflexivity.
  - intros z. rewrite (Hb _ _ _ _ (Z.to_nat (hx - lx + 1))).
    + rewrite length_seqZ. reflexivity.
    + intros y. rewrite (Hb _ _ _ _ 1%nat); [rewrite length_seqZ; lia|].
      reflexivity.
Qed.

Lemma mapM_length {A B} (f : A -> outcome B) (l : list A) bs :
  mapM f l = Ret bs -> length bs = length l.
Proof.
  intros E. apply mapM_Forall2 in E. symmetry. exact (Forall2_length _ _ _ E).
Qed.

Lemma mapM_returns {A B} (f : A -> outcome B) (l : list A) :
  (forall a, a ∈ l -> exists b, f a = Ret b) -> exists bs, mapM f l = Ret bs.
Proof.
  induction l as [|a l IH]; intros Hf; cbn [mapM]; [eauto|].
  destruct (Hf a ltac:(left)) as (b & ->). cbn [mbind outcome_bind bind].
  destruct IH as (bs & ->); [intros a' Ha'; apply Hf; right; exact Ha'|].
  cbn [mbind outcome_bind bind]. eauto.
Qed.

(** A splat has at most eight entries, whatever the grid. *)
Lemma splat_entries_length grid maxLevel levelStart id splat es :
  splat_entries grid maxLevel levelStart id splat = Ret es ->
  (length es <= 8)%nat.
Proof.
  unfold SplatTree.splat_entries.
  destruct (vertexBounds grid splat) as [[[lx ly] lz] [[hx hy] hz]].
  destruct (numVertices grid) as [[nx ny] nz].
  destruct (axis_step nx lx hx 0) as [s1| | |] eqn:E1;
    cbn [mbind outcome_bind bind]; try discriminate.
  destruct (axis_step ny ly hy s1) as [s2| | |] eqn:E2;
    cbn [mbind outcome_bind bind]; try discriminate.
  destruct (axis_step nz lz hz s2) as [s3| | |] eqn:E3;
    cbn [mbind outcome_bind bind]; try discriminate.
  unfold assert at 1.
  destruct (s3 <=? maxLevel); cbn [mbind outcome_bind bind]; try discriminate.
  intros EM. apply mapM_length in EM. rewrite EM, length_cells.
  pose proof (axis_step_exit _ _ _ _ _ E1) as X1.
  pose proof (axis_step_exit _ _ _ _ _ E2) as X2.
  pose proof (axis_step_exit _ _ _ _ _ E3) as X3.
  apply axis_step_spec in E1 as (_ & _ & Hs1).
  apply axis_step_spec in E2 as (_ & _ & Hs2).
  apply axis_step_spec in E3 as (_ & _ & Hs3).
  apply (shiftr_close lx hx s1 s3) in X1; [|lia].
  apply (shiftr_close ly hy s2 s3) in X2; [|lia].
  assert (forall v, v <= 1 -> (Z.to_nat (v + 1) <= 2)%nat) as Hn by (intros; lia).
  apply Hn in X1, X2, X3.
  pose proof (Nat.mul_le_mono _ _ _ _ X2 X1) as H21.
  pose proof (Nat.mul_le_mono _ _ _ _ X3 H21) as H321.
  exact H321.
Qed.

Lemma all_entries_length grid maxLevel levelStart : forall splats id0 es,
  all_entries grid maxLevel levelStart id0 splats = Ret es ->
  (length es <= 8 * length splats)%nat.
Proof.
  induction splats as [|sp splats IH]; intros id0 es; cbn [SplatTree.all_entries].
  - intros E. injection E as <-. cbn. lia.
  - destruct (splat_entries grid maxLevel levelStart id0 sp) as [e1| | |] eqn:E1;
      cbn [mbind outcome_bind bind]; try discriminate.
    destruct (all_entries grid maxLevel levelStart (id0 + 1) splats)
      as [e2| | |] eqn:E2; cbn [mbind outcome_bind bind]; try discriminate.
    intros E. injection E as <-. rewrite length_app. cbn [length].
    apply splat_entries_length in E1. apply IH in E2. lia.
Qed.

(** The splat ids of a tree are those of the sorted entries. *)
Lemma construct_ids splats grid tree :
  construct splats grid = Ret tree ->
  exists maxLevel es,
    compute_maxLevel grid = Ret maxLevel
    /\ all_entries grid maxLevel (make_levelStart digits maxLevel) 0 splats = Ret es
    /\ ids tree = splatId <$> stable_sort es
    /\ levelStart tree = make_levelStart digits maxLevel.
Proof.
  unfold SplatTree.construct, MLSGPU_ASSERT.
  destruct (Z.of_nat (length splats) <=? size_max digits);
    cbn [mbind outcome_bind bind]; try discriminate.
  destruct (compute_maxLevel grid) as [maxLevel| | |] eqn:Eml;
    cbn [mbind outcome_bind bind]; try discriminate.
  destruct (all_entries grid maxLevel (make_levelStart digits maxLevel) 0 splats)
    as [es| | |] eqn:Ees; cbn [mbind outcome_bind bind]; try discriminate.
  unfold extract. rewrite extract_split. intros E. injection E as <-.
  exists maxLevel, es. cbn. auto.
Qed.

Local Abbreviation inside := (SplatBounds.inside Splat Grid numVertices vertexBounds).
Local Abbreviation proper := (SplatBounds.proper Splat Grid vertexBounds).

(** The entries of a splat are computed only when its bounds are inside
    the vertex extents. *)
Lemma splat_entries_inside grid maxLevel levelStart id splat es :
  splat_entries grid maxLevel levelStart id splat = Ret es -> inside grid splat.
Proof.
  unfold SplatTree.splat_entries, SplatBounds.inside.
  destruct (vertexBounds grid splat) as [[[lx ly] lz] [[hx hy] hz]].
  destruct (numVertices grid) as [[nx ny] nz].
  destruct (axis_step nx lx hx 0) as [s1| | |] eqn:E1;
    cbn [mbind outcome_bind bind]; try discriminate.
  destruct (axis_step ny ly hy s1) as [s2| | |] eqn:E2;
    cbn [mbind outcome_bind bind]; try discriminate.
  destruct (axis_step nz lz hz s2) as [s3| | |] eqn:E3;
    cbn [mbind outcome_bind bind]; try discriminate.
  intros _.
  apply axis_step_spec in E1, E2, E3. tauto.
Qed.

(** With bounds inside the vertex extents the entries of a splat are
    computed: no assertion fails and no code is out of range. *)
Lemma splat_entries_returns grid maxLevel id splat :
  levels_fit grid maxLevel -> inside grid splat ->
  exists es,
    splat_entries grid maxLevel (make_levelStart digits maxLevel) id splat
    = Ret es.
Proof using digits_range.
  intros (Hnv & Hml & Hfit). unfold SplatTree.splat_entries, SplatBounds.inside.
  destruct (vertexBounds grid splat) as [[[lx ly] lz] [[hx hy] hz]].
  destruct (numVertices grid) as [[nx ny] nz] eqn:Env.
  intros ((Hhx & Hlx) & (Hhy & Hly) & (Hhz & Hlz)).
  destruct (compute_maxLevel_spec Grid numVertices grid maxLevel nx ny nz Env Hnv Hml)
    as [Hm0 Hsize].
  assert (max3 nx ny nz <= 2 ^ maxLevel) as Hmax
      by (apply Hsize; unfold max3; lia).
  unfold max3 in Hmax.
  assert (maxLevel <= uint_digits) as Hml32 by (unfold uint_digits in *; lia).
  destruct (axis_step_returns nx lx hx 0 maxLevel) as (s1 & -> & Hs1); try lia.
  cbn [mbind outcome_bind bind].
  destruct (axis_step_returns ny ly hy s1 maxLevel) as (s2 & -> & Hs2); try lia.
  cbn [mbind outcome_bind bind].
  destruct (axis_step_returns nz lz hz s2 maxLevel) as (s3 & -> & Hs3); try lia.
  cbn [mbind outcome_bind bind]. unfold assert at 1.
  destruct (Z.leb_spec s3 maxLevel) as [Hs3m|]; [|lia].
  cbn [mbind outcome_bind bind].
  set (level := maxLevel - s3).
  assert (2 ^ (level + s3) = 2 ^ maxLevel) as Epow by (f_equal; subst level; lia).
  apply mapM_returns. intros [[x y] z] Hin.
  apply elem_of_cells in Hin as (Hx & Hy & Hz).
  pose proof (shiftr_bound lx s3 level ltac:(lia) ltac:(subst level; lia) ltac:(lia)).
  pose proof (shiftr_bound ly s3 level ltac:(lia) ltac:(subst level; lia) ltac:(lia)).
  pose proof (shiftr_bound lz s3 level ltac:(lia) ltac:(subst level; lia) ltac:(lia)).
  pose proof (shiftr_bound hx s3 level ltac:(lia) ltac:(subst level; lia) ltac:(lia)).
  pose proof (shiftr_bound hy s3 level ltac:(lia) ltac:(subst level; lia) ltac:(lia)).
  pose proof (shiftr_bound hz s3 level ltac:(lia) ltac:(subst level; lia) ltac:(lia)).
  destruct (cell_entry_spec digits digits_range maxLevel level id x y z)
    as (E & _); try (subst level; lia); try lia.
  eexists. exact E.
Qed.

(** With proper bounds a splat has an entry. *)
Lemma splat_entries_nonempty grid maxLevel levelStart id splat es :
  splat_entries grid maxLevel levelStart id splat = Ret es ->
  proper grid splat -> es <> [].
Proof.
  unfold SplatTree.splat_entries, SplatBounds.proper.
  destruct (vertexBounds grid splat) as [[[lx ly] lz] [[hx hy] hz]].
  destruct (numVertices grid) as [[nx ny] nz].
  destruct (axis_step nx lx hx 0) as [s1| | |] eqn:E1;
    cbn [mbind outcome_bind bind]; try discriminate.
  destruct (axis_step ny ly hy s1) as [s2| | |] eqn:E2;
    cbn [mbind outcome_bind bind]; try discriminate.
  destruct (axis_step nz lz hz s2) as [s3| | |] eqn:E3;
    cbn [mbind outcome_bind bind]; try discriminate.
  unfold assert at 1.
  destruct (s3 <=? maxLevel); cbn [mbind outcome_bind bind]; try discriminate.
  intros EM (Hx & Hy & Hz). apply mapM_length in EM.
  rewrite length_cells in EM.
  apply axis_step_spec in E1 as (_ & _ & Hs1).
  apply axis_step_spec in E2 as (_ & _ & Hs2).
  apply axis_step_spec in E3 as (_ & _ & Hs3).
  pose proof (shiftr_mono lx hx s3 ltac:(lia) Hx).
  pose proof (shiftr_mono ly hy s3 ltac:(lia) Hy).
  pose proof (shiftr_mono lz hz s3 ltac:(lia) Hz).
  intros ->. cbn [length] in EM. symmetry in EM.
  apply Nat.eq_mul_0 in EM as [EM|EM]; [lia|].
  apply Nat.eq_mul_0 in EM as [EM|EM]; lia.
Qed.

Lemma all_entries_each grid maxLevel levelStart : forall splats id0 es,
  all_entries grid maxLevel levelStart id0 splats = Ret es ->
  forall (i : nat) splat, splats !! i = Some splat ->
    exists esi,
      splat_entries grid maxLevel levelStart (id0 + Z.of_nat i) splat = Ret esi
      /\ forall e, e ∈ esi -> e ∈ es.
Proof.
  induction splats as [|sp splats IH]; intros id0 es; cbn [SplatTree.all_entries].
  - intros _ i splat Hi. destruct i; discriminate Hi.
  - destruct (splat_entries grid maxLevel levelStart id0 sp) as [e1| | |] eqn:E1;
      cbn [mbind outcome_bind bind]; try discriminate.
    destruct (all_entries grid maxLevel levelStart (id0 + 1) splats)
      as [e2| | |] eqn:E2; cbn [mbind outcome_bind bind]; try discriminate.
    intros E. injection E as <-. intros [|i] splat Hi.
    + injection Hi as <-. exists e1. rewrite Z.add_0_r. split; [exact E1|].
      intros e He. apply elem_of_app. left. exact He.
    + destruct (IH _ _ E2 i splat Hi) as (esi & Ei & Hsub).
      exists esi. replace (id0 + Z.of_nat (S i)) with (id0 + 1 + Z.of_nat i) by lia.
      split; [exact Ei|]. intros e He. apply elem_of_app. right. auto.
Qed.

Lemma all_entries_returns grid maxLevel : forall splats id0,
  levels_fit grid maxLevel -> Forall (inside grid) splats ->
  exists es,
    all_entries grid maxLevel (make_levelStart digits maxLevel) id0 splats = Ret es.
Proof using digits_range.
  induction splats as [|sp splats IH]; intros id0 Hfit Hall;
    cbn [SplatTree.all_entries]; [eauto|].
  apply Forall_cons in Hall as [Hsp Hall].
  destruct (splat_entries_returns grid maxLevel id0 sp Hfit Hsp) as (e1 & ->).
  cbn [mbind outcome_bind bind].
  destruct (IH (id0 + 1) Hfit Hall) as (e2 & ->).
  cbn [mbind outcome_bind bind]. eauto.
Qed.

(** The loop that finds [maxLevel] stops at the first level that is large
    enough. *)
Lemma maxLevel_loop_least fuel : forall size m0 m,
  0 <= m0 -> maxLevel_loop fuel size m0 = Ret m -> m <= uint_digits ->
  forall k, m0 <= k < m -> 2 ^ k < size.
Proof.
  induction fuel as [|f IH]; intros size m0 m Hm0; cbn [maxLevel_loop];
    destruct (Z.ltb_spec (wrap uint_digits (Z.shiftl 1 m0)) size) as [Hlt|Hge];
    try discriminate.
  - intros E. injection E as <-. lia.
  - intros E Hm k Hk. destruct (Z.eq_dec k m0) as [->|Hne].
    + unfold wrap in Hlt. rewrite Z.shiftl_1_l in Hlt.
      rewrite Z.mod_small in Hlt; [exact Hlt|].
      split; [apply Z.pow_nonneg; lia|].
      apply Z.pow_lt_mono_r; unfold uint_digits in *; lia.
    + apply (IH size (m0 + 1) m); [lia|exact E|exact Hm|lia].
  - intros E. injection E as <-. lia.
Qed.

End ConstructorTotality.

(** X9: the constructor returns a tree whenever the bounds of every
    splat are inside the vertex extents of the grid.  For a splat vector
    that [size_type] can count and a grid whose octree levels fit
    [size_type], bounds inside the extents are all it takes: none of the
    assertions fails (the one on [shift] included), [makeCode] never
    throws and every loop ends. *)
Theorem SplatTree_returns_when_bounds_inside (Splat Grid : Type)
    (numVertices : Grid -> Z * Z * Z)
    (vertexBounds : Grid -> Splat -> (Z * Z * Z) * (Z * Z * Z))
    (digits : Z) (splats : list Splat) (grid : Grid) (maxLevel : Z) :
  0 < digits <= SplatTree.uint_digits ->
  Z.of_nat (length splats) <= SplatTree.size_max digits ->
  SplatTree.levels_fit Grid numVertices digits grid maxLevel ->
  Forall (SplatBounds.inside Splat Grid numVertices vertexBounds grid) splats ->
  exists tree,
    SplatTree.construct Splat Grid numVertices vertexBounds digits splats grid
    = Ret tree.
Proof.
  intros Hd Hlen Hfit Hall.
  destruct (all_entries_returns Splat Grid numVertices vertexBounds digits Hd
              grid maxLevel splats 0 Hfit Hall) as (es & Ees).
  destruct Hfit as (_ & Hml & _).
  exact (construct_returns Splat Grid numVertices vertexBounds digits
           splats grid maxLevel es Hlen Hml Ees).
Qed.

Lemma SplatTree_returns_when_bounds_inside_witness :
  exists tree,
    SplatTree.construct ((Z * Z * Z) * (Z * Z * Z)) (Z * Z * Z)
      (fun g => g) (fun _ s => s) 32
      [((0, 0, 0), (1, 1, 1)); ((1, 1, 1), (1, 1, 1))] (2, 2, 2)
    = Ret tree.
Proof.
  apply (SplatTree_returns_when_bounds_inside _ _ _ _ 32 _ (2, 2, 2) 1).
  - unfold SplatTree.uint_digits. lia.
  - vm_compute. discriminate.
  - split; [|split]; [vm_compute; reflexivity | vm_compute; reflexivity | lia].
  - repeat first [apply Forall_nil_2 | apply Forall_cons_2];
      unfold SplatBounds.inside; cbn; lia.
Defined.

(** X10: a splat has at most eight entries, so the tree holds at most
    eight splat ids per splat: the capacity the constructor reserves for
    its entries, [8 * splats.size()], is never exceeded. *)
Theorem SplatTree_at_most_eight_ids_per_splat (Splat Grid : Type)
    (numVertices : Grid -> Z * Z * Z)
    (vertexBounds : Grid -> Splat -> (Z * Z * Z) * (Z * Z * Z))
    (digits : Z) (splats : list Splat) (grid : Grid) (tree : SplatTree.t) :
  SplatTree.construct Splat Grid numVertices vertexBounds digits splats grid
  = Ret tree ->
  Z.of_nat (length (SplatTree.ids tree)) <= 8 * Z.of_nat (length splats).
Proof.
  intros E.
  destruct (construct_ids _ _ _ _ _ _ _ _ E) as (m & es & _ & Ees & -> & _).
  rewrite length_fmap, stable_sort_perm.
  apply all_entries_length in Ees. lia.
Qed.

Lemma SplatTree_at_most_eight_ids_per_splat_witness :
  Z.of_nat (length [0; 0; 0; 0; 0; 0; 0; 0; 1]) <= 8 * Z.of_nat 2.
Proof.
  apply (SplatTree_at_most_eight_ids_per_splat
           ((Z * Z * Z) * (Z * Z * Z)) (Z * Z * Z)
           (fun g => g) (fun _ s => s) 32
           [((0, 0, 0), (1, 1, 1)); ((1, 1, 1), (1, 1, 1))] (2, 2, 2)
           (SplatTree.mk [0; 1; 9] [0; 0; 1; 2; 3; 4; 5; 6; 7; 9]
                         [0; 0; 0; 0; 0; 0; 0; 0; 1])).
  vm_compute. reflexivity.
Defined.



(** X12: the levels of a tree.  [maxLevel] is the least level whose
    [2 ^ maxLevel] vertices span the largest extent of the grid;
    [levelStart] has [maxLevel + 2] entries, entry [i] being the number
    [(8 ^ i - 1) / 7] of cells on the levels before [i]; and [start] has
    one entry per cell of the [maxLevel + 1] levels, and one more. *)
Theorem SplatTree_levels (Splat Grid : Type)
    (numVertices : Grid -> Z * Z * Z)
    (vertexBounds : Grid -> Splat -> (Z * Z * Z) * (Z * Z * Z))
    (digits : Z) (splats : list Splat) (grid : Grid) (maxLevel : Z)
    (tree : SplatTree.t) (nx ny nz : Z) :
  0 < digits <= SplatTree.uint_digits ->
  SplatTree.construct Splat Grid numVertices vertexBounds digits splats grid
  = Ret tree ->
  SplatTree.levels_fit Grid numVertices digits grid maxLevel ->
  numVertices grid = (nx, ny, nz) -> 0 <= SplatTree.max3 nx ny nz ->
  (SplatTree.max3 nx ny nz <= 2 ^ maxLevel
   /\ forall k, 0 <= k < maxLevel -> 2 ^ k < SplatTree.max3 nx ny nz)
  /\ Z.of_nat (length (SplatTree.levelStart tree)) = maxLevel + 2
  /\ (forall i : nat,
        Z.of_nat i <= maxLevel + 1 ->
        SplatTree.levelStart tree !! i = Some ((8 ^ Z.of_nat i - 1) / 7))
  /\ Z.of_nat (length (SplatTree.start tree))
     = (8 ^ (maxLevel + 1) - 1) / 7 + 1.
Proof.
  intros Hd E Hfit Env Hnn.
  assert (forall n : nat, SplatTree.geo n = (8 ^ Z.of_nat n - 1) / 7) as Hgeo.
  { intros n. pose proof (geo_closed n) as Hc.
    apply (Z.div_unique _ 7 _ 0); lia. }
  destruct (construct_ids _ _ _ _ _ _ _ _ E) as (m & es & Hm & _ & _ & Els).
  pose proof Hfit as (Hnv & Hml & Hlev).
  assert (m = maxLevel) as -> by congruence.
  rewrite Env in Hnv.
  destruct (compute_maxLevel_spec Grid numVertices grid maxLevel nx ny nz
              Env Hnv Hml) as [Hm0 Hsize].
  split; [split; [auto|]|split; [|split]].
  - intros k Hk. unfold SplatTree.compute_maxLevel in Hml. rewrite Env in Hml.
    unfold SplatTree.max3 in *.
    unfold SplatTree.wrap in Hml at 1. rewrite Z.mod_small in Hml by lia.
    apply (maxLevel_loop_least _ _ 0 maxLevel ltac:(lia) Hml); [|lia].
    unfold SplatTree.uint_digits in *. lia.
  - rewrite Els, make_levelStart_geo by (try assumption; lia).
    rewrite length_fmap, length_seq. lia.
  - intros i Hi. rewrite Els, make_levelStart_geo by (try assumption; lia).
    rewrite list_lookup_fmap, lookup_seq_lt by lia. cbn. rewrite Hgeo. reflexivity.
  - destruct (construct_spec Splat Grid numVertices vertexBounds digits Hd
                splats grid maxLevel tree Hfit E) as (_ & _ & _ & Hlen & _).
    rewrite Hlen, Hgeo. rewrite Z2Nat.id by lia.
    assert (0 <= (8 ^ (maxLevel + 1) - 1) / 7).
    { apply Z.div_pos; [|lia].
      assert (0 < 8 ^ (maxLevel + 1)) by (apply Z.pow_pos_nonneg; lia). lia. }
    lia.
Qed.

Lemma SplatTree_levels_witness :
  let tree := SplatTree.mk [0; 1; 9] [0; 0; 1; 2; 3; 4; 5; 6; 7; 9]
                           [0; 0; 0; 0; 0; 0; 0; 0; 1] in
  (SplatTree.max3 2 2 2 <= 2 ^ 1
   /\ forall k, 0 <= k < 1 -> 2 ^ k < SplatTree.max3 2 2 2)
  /\ Z.of_nat (length (SplatTree.levelStart tree)) = 1 + 2
  /\ (forall i : nat,
        Z.of_nat i <= 1 + 1 ->
        SplatTree.levelStart tree !! i = Some ((8 ^ Z.of_nat i - 1) / 7))
  /\ Z.of_nat (length (SplatTree.start tree)) = (8 ^ (1 + 1) - 1) / 7 + 1.
Proof.
  intros tree.
  apply (SplatTree_levels ((Z * Z * Z) * (Z * Z * Z)) (Z * Z * Z)
           (fun g => g) (fun _ s => s) 32
           [((0, 0, 0), (1, 1, 1)); ((1, 1, 1), (1, 1, 1))] (2, 2, 2) 1 tree
           2 2 2).
  - unfold SplatTree.uint_digits. lia.
  - vm_compute. reflexivity.
  - split; [|split]; [vm_compute; reflexivity | vm_compute; reflexivity | lia].
  - reflexivity.
  - vm_compute. discriminate.
Defined.

(** ** Reading a range of vertices in chunks *)

Section ReaderFacts.

Import Reader.

Context {Splat : Type}.
Variable vertices : list Splat.

Lemma slice_app (a b c : Z) :
  0 <= a <= b -> b <= c ->
  slice a b vertices ++ slice b c vertices = slice a c vertices.
Proof.
  intros Hab Hbc. unfold slice.
  replace (Z.to_nat b) with (Z.to_nat a + Z.to_nat (b - a))%nat by lia.
  rewrite <- drop_drop, take_take_drop. f_equal. lia.
Qed.

Lemma slice_length (a b : Z) :
  (length (slice a b vertices) <= Z.to_nat (b - a))%nat.
Proof. unfold slice. rewrite length_take. lia. Qed.

Lemma slice_empty (a : Z) : slice a a vertices = [].
Proof. unfold slice. rewrite Z.sub_diag. reflexivity. Qed.

(** The loop, started anywhere in the range, delivers the rest of it. *)
Lemma read_loop_spec readRaw (first last : Z) (fuel : nat) : forall a out,
  (forall a b,
      first <= a -> a < b -> b <= last -> b - a <= bufferSize ->
      readRaw a b = Ret (slice a b vertices)) ->
  0 <= first <= a -> a <= last -> last - a <= Z.of_nat fuel ->
  read_loop Splat readRaw fuel a last out
  = Ret (out ++ slice a last vertices).
Proof.
  induction fuel as [|f IH]; intros a out Hraw Ha Hal Hfuel; cbn [read_loop];
    (destruct (Z.ltb_spec a last) as [Hlt|Hge];
     [|replace a with last by lia; rewrite slice_empty, app_nil_r; reflexivity]).
  - lia.
  - set (size := Z.min bufferSize (last - a)).
    assert (0 < size <= bufferSize /\ a + size <= last) as (Hsz & Hend)
        by (unfold bufferSize in *; lia).
    rewrite (Hraw a (a + size)) by lia. cbn [mbind outcome_bind bind].
    rewrite take_ge
      by (pose proof (slice_length a (a + size)); lia).
    rewrite IH; [|exact Hraw|lia|lia|lia].
    rewrite <- app_assoc, slice_app by lia. reflexivity.
Qed.

End ReaderFacts.



(** ** Validated options *)

Section OptionsFacts.

Import Options.

Variable size_digits grid_digits : Z.
Variable sizeofSplat : Z.
Variable MAX_DIMENSION_LOG2 MAX_LEVELS : Z.
Variable MAX_CELL_VERTICES MAX_CELL_INDICES : Z.

Local Abbreviation validateOptions :=
  (validateOptions size_digits grid_digits sizeofSplat MAX_DIMENSION_LOG2
                   MAX_LEVELS MAX_CELL_VERTICES MAX_CELL_INDICES).

(** What the checks on [levels] and [subsampling] leave: the shift
    [levels + subsampling - 1] lies between 3 and [MAX_DIMENSION_LOG2]. *)
Lemma validateOptions_shift vm isMPI why :
  validateOptions vm isMPI = Valid
  \/ (validateOptions vm isMPI = Invalid why
      /\ why <> LevelsOutOfRange /\ why <> SubsamplingTooSmall
      /\ why <> BucketSplatsNotPositive /\ why <> LoadSplatsTooSmall
      /\ why <> HostSplatsTooSmall /\ why <> MaxSplitTooSmall
      /\ why <> SumTooLarge) ->
  1 <= levels vm /\ 3 <= subsampling vm
  /\ levels vm + subsampling vm - 1 <= MAX_DIMENSION_LOG2
  /\ 1 <= getMaxBucketSplats sizeofSplat vm
  /\ getMaxBucketSplats sizeofSplat vm <= getMaxLoadSplats sizeofSplat vm
  /\ getMaxBucketSplats sizeofSplat vm <= getMaxHostSplats sizeofSplat vm
  /\ 8 <= to_size size_digits (maxSplit vm).
Proof.
  unfold Options.validateOptions, subsamplingMin.
  destruct (Z.ltb_spec (levels vm) 1) as [?|Hl]; cbn [orb];
    [intros [E|(E & N & _)]; [discriminate E|congruence]|].
  destruct (to_int _ <? levels vm);
    [intros [E|(E & N & _)]; [discriminate E|congruence]|].
  destruct (Z.ltb_spec (subsampling vm) 3) as [?|Hs];
    [intros [E|(E & _ & N & _)]; [discriminate E|congruence]|].
  destruct (Z.ltb_spec (getMaxBucketSplats sizeofSplat vm) 1) as [?|Hb];
    [intros [E|(E & _ & _ & N & _)]; [discriminate E|congruence]|].
  destruct (Z.ltb_spec (getMaxLoadSplats sizeofSplat vm)
                       (getMaxBucketSplats sizeofSplat vm)) as [?|Hload];
    [intros [E|(E & _ & _ & _ & N & _)]; [discriminate E|congruence]|].
  destruct (Z.ltb_spec (getMaxHostSplats sizeofSplat vm)
                       (getMaxBucketSplats sizeofSplat vm)) as [?|Hhost];
    [intros [E|(E & _ & _ & _ & _ & N & _)]; [discriminate E|congruence]|].
  destruct (Z.ltb_spec (to_size size_digits (maxSplit vm)) 8) as [?|Hsplit];
    [intros [E|(E & _ & _ & _ & _ & _ & N & _)]; [discriminate E|congruence]|].
  destruct (Z.ltb_spec (MAX_DIMENSION_LOG2 + 1 - levels vm) (subsampling vm))
    as [?|Hsum];
    [intros [E|(E & _ & _ & _ & _ & _ & _ & N)]; [discriminate E|congruence]|].
  intros _. lia.
Qed.

Lemma pow2_shift n w :
  3 <= n < w -> 8 <= Z.shiftl 1 n mod 2 ^ w /\ Z.shiftl 1 n mod 2 ^ w = 2 ^ n.
Proof.
  intros Hn. rewrite Z.shiftl_1_l.
  assert (2 ^ 3 <= 2 ^ n) by (apply Z.pow_le_mono_r; lia).
  assert (2 ^ n < 2 ^ w) by (apply Z.pow_lt_mono_r; lia).
  rewrite Z.mod_small by lia. change (2 ^ 3) with 8 in *. lia.
Qed.

End OptionsFacts.

(** X14: [validateOptions] never reports that the sum of [--subsampling]
    and [--levels] is too small.  The test on [treeVerts] comes after the
    tests that [levels] is at least 1, that [subsampling] is at least
    [subsamplingMin = 3] and that their sum is not too large, and these
    leave [treeVerts = 2 ^ (subsampling + levels - 1) >= 8], the work group
    size; [std::size_t] has to be wide enough for the largest dimension. *)
Theorem validateOptions_never_too_small
    (size_digits grid_digits sizeofSplat MAX_DIMENSION_LOG2 MAX_LEVELS
     MAX_CELL_VERTICES MAX_CELL_INDICES : Z) (vm : Options.t) (isMPI : bool) :
  MAX_DIMENSION_LOG2 < size_digits ->
  Options.validateOptions size_digits grid_digits sizeofSplat
    MAX_DIMENSION_LOG2 MAX_LEVELS MAX_CELL_VERTICES MAX_CELL_INDICES vm isMPI
  <> Options.Invalid Options.SumTooSmall.
Proof.
  intros Hwide E.
  destruct (validateOptions_shift size_digits grid_digits sizeofSplat
              MAX_DIMENSION_LOG2 MAX_LEVELS MAX_CELL_VERTICES MAX_CELL_INDICES
              vm isMPI Options.SumTooSmall) as (Hl & Hs & Hsum & _).
  { right. split; [exact E|]. repeat split; discriminate. }
  revert E. unfold Options.validateOptions, Options.subsamplingMin.
  destruct ((Options.levels vm <? 1) || _); [discriminate|].
  destruct (Options.subsampling vm <? 3); [discriminate|].
  destruct (_ <? 1); [discriminate|].
  destruct (Options.getMaxLoadSplats sizeofSplat vm <? _); [discriminate|].
  destruct (Options.getMaxHostSplats sizeofSplat vm <? _); [discriminate|].
  destruct (_ <? 8); [discriminate|].
  destruct (_ <? Options.subsampling vm); [discriminate|].
  cbn [Options.wgs]. unfold Options.to_size at 1 2.
  destruct (pow2_shift (Options.subsampling vm + Options.levels vm - 1)
              size_digits ltac:(lia)) as [H8 _].
  destruct (Z.ltb_spec (Z.shiftl 1 (Options.subsampling vm + Options.levels vm - 1)
                        mod 2 ^ size_digits) 8); [lia|].
  cbn [orb].
  destruct (Options.deviceThreads vm <? 1); [discriminate|].
  destruct (negb _); [discriminate|].
  destruct (Options.memMesh vm <? _); [discriminate|].
  destruct (isMPI && _); discriminate.
Qed.

Lemma validateOptions_never_too_small_witness :
  Options.validateOptions 64 32 64 13 10 5 15
    (Options.mk 1 3 8 1 63 64 64 64 0 0 true) false
  <> Options.Invalid Options.SumTooSmall.
Proof.
  apply validateOptions_never_too_small. lia.
Defined.

(** X15: options that [validateOptions] accepts give [doBucket] sound
    arguments for [Bucket::bucket]: at least one splat per bucket, a block
    of [blockCells = 2 ^ (levels + subsampling - 1) - 1 >= 7] cells computed
    without overflow of [unsigned int], a fan-out of at least 8, and a
    micro-cell size that does not exceed the block.  [leafCells] is not
    validated: the micro-cell size is zero exactly when [leafCells] is a
    multiple of [2 ^ 32], zero included. *)
Theorem validateOptions_bucket_arguments
    (size_digits grid_digits sizeofSplat MAX_DIMENSION_LOG2 MAX_LEVELS
     MAX_CELL_VERTICES MAX_CELL_INDICES : Z) (vm : Options.t) (isMPI : bool) :
  MAX_DIMENSION_LOG2 < 32 ->
  Options.validateOptions size_digits grid_digits sizeofSplat
    MAX_DIMENSION_LOG2 MAX_LEVELS MAX_CELL_VERTICES MAX_CELL_INDICES vm isMPI
  = Options.Valid ->
  let '(maxSplats, blockCells, microCells, maxSplit) :=
    Options.bucketArguments size_digits sizeofSplat vm in
  1 <= maxSplats
  /\ blockCells = 2 ^ (Options.levels vm + Options.subsampling vm - 1) - 1
  /\ 7 <= blockCells
  /\ 8 <= maxSplit
  /\ 0 <= microCells <= blockCells
  /\ (microCells = 0 <-> Options.leafCells vm mod 2 ^ 32 = 0).
Proof.
  intros Hdim E.
  destruct (validateOptions_shift size_digits grid_digits sizeofSplat
              MAX_DIMENSION_LOG2 MAX_LEVELS MAX_CELL_VERTICES MAX_CELL_INDICES
              vm isMPI Options.SumTooSmall (or_introl E))
    as (Hl & Hs & Hsum & Hb & _ & _ & Hsplit).
  unfold Options.bucketArguments, Options.microCells, Options.blockCells,
    Options.to_uint.
  destruct (pow2_shift (Options.levels vm + Options.subsampling vm - 1) 32
              ltac:(lia)) as [H8 Epow].
  rewrite Epow.
  assert (2 ^ (Options.levels vm + Options.subsampling vm - 1) < 2 ^ 32)
    by (apply Z.pow_lt_mono_r; lia).
  rewrite Epow in H8.
  rewrite (Z.mod_small (2 ^ _ - 1)) by lia.
  pose proof (Z.mod_pos_bound (Options.leafCells vm) (2 ^ 32) ltac:(lia)).
  repeat split; try lia.
Qed.

Lemma validateOptions_bucket_arguments_witness :
  let '(maxSplats, blockCells, microCells, maxSplit) :=
    Options.bucketArguments 64 64 (Options.mk 1 3 8 1 63 64 64 64 0 0 true) in
  1 <= maxSplats
  /\ blockCells = 2 ^ (1 + 3 - 1) - 1
  /\ 7 <= blockCells
  /\ 8 <= maxSplit
  /\ 0 <= microCells <= blockCells
  /\ (microCells = 0 <-> 63 mod 2 ^ 32 = 0).
Proof.
  apply (validateOptions_bucket_arguments 64 32 64 13 10 0 0
           (Options.mk 1 3 8 1 63 64 64 64 0 0 true) false).
  - lia.
  - vm_compute. reflexivity.
Defined.

(** X16: a negative [--max-split] passes the validation.  The option is
    read as an [int] and kept in a [std::size_t], which turns a negative
    value into a huge one, so the test [maxSplit < 8] does not reject it:
    options that are accepted stay accepted when [--max-split] is replaced
    by any negative [int]. *)
Theorem validateOptions_accepts_negative_maxSplit
    (size_digits grid_digits sizeofSplat MAX_DIMENSION_LOG2 MAX_LEVELS
     MAX_CELL_VERTICES MAX_CELL_INDICES : Z) (vm : Options.t) (isMPI : bool)
    (m : Z) :
  32 <= size_digits -> - 2 ^ 31 <= m < 0 ->
  Options.validateOptions size_digits grid_digits sizeofSplat
    MAX_DIMENSION_LOG2 MAX_LEVELS MAX_CELL_VERTICES MAX_CELL_INDICES vm isMPI
  = Options.Valid ->
  Options.validateOptions size_digits grid_digits sizeofSplat
    MAX_DIMENSION_LOG2 MAX_LEVELS MAX_CELL_VERTICES MAX_CELL_INDICES
    (Options.withMaxSplit vm m) isMPI
  = Options.Valid.
Proof.
  intros Hwide Hm.
  assert (8 <= Options.to_size size_digits m) as Hbig.
  { unfold Options.to_size.
    assert (2 ^ 32 <= 2 ^ size_digits) by (apply Z.pow_le_mono_r; lia).
    rewrite <- (Z.mod_add m 1) by lia.
    rewrite Z.mod_small by lia. lia. }
  unfold Options.validateOptions, Options.getMeshHostMemory,
    Options.getMeshMemoryCells, Options.getMaxBucketSplats,
    Options.getMaxLoadSplats, Options.getMaxHostSplats.
  cbn [Options.withMaxSplit Options.levels Options.subsampling
       Options.maxSplit Options.deviceThreads Options.memBucketSplats
       Options.memLoadSplats Options.memHostSplats Options.memMesh
       Options.memGather Options.fitPruneInRange].
  destruct ((Options.levels vm <? 1) || _); [discriminate|].
  destruct (Options.subsampling vm <? _); [discriminate|].
  destruct (_ <? 1); [discriminate|].
  destruct (Options.memLoadSplats vm / sizeofSplat <? _); [discriminate|].
  destruct (Options.memHostSplats vm / sizeofSplat <? _); [discriminate|].
  destruct (Options.to_size size_digits (Options.maxSplit vm) <? 8);
    [discriminate|].
  destruct (Z.ltb_spec (Options.to_size size_digits m) 8); [lia|].
  intros E. exact E.
Qed.

Lemma validateOptions_accepts_negative_maxSplit_witness :
  Options.validateOptions 64 32 64 13 10 0 0
    (Options.withMaxSplit (Options.mk 1 3 8 1 63 64 64 64 0 0 true) (-1)) false
  = Options.Valid.
Proof.
  apply validateOptions_accepts_negative_maxSplit.
  - lia.
  - lia.
  - vm_compute. reflexivity.
Defined.

(** X17: [gridsIntersect] of the bucketing tests decides whether two grids
    share a cell: for grids that have cells it holds exactly when some cell
    lies in both, and the order of its arguments does not matter. *)
Theorem gridsIntersect_shared_cell (a b : Bucketer.grid) :
  Bucketer.nonempty a -> Bucketer.nonempty b ->
  (Bucketer.gridsIntersect a b = true
   <-> exists p, Bucketer.cellIn p a /\ Bucketer.cellIn p b)
  /\ Bucketer.gridsIntersect a b = Bucketer.gridsIntersect b a.
Proof.
  intros Ha Hb. split.
  - split.
    + apply intersect_cellIn; assumption.
    + intros (p & Hpa & Hpb). exact (cellIn_intersect p a b Hpa Hpb).
  - destruct (Bucketer.gridsIntersect a b) eqn:E.
    + symmetry. apply intersect_cellIn in E; [|assumption..].
      destruct E as (p & Hpa & Hpb). exact (cellIn_intersect p b a Hpb Hpa).
    + symmetry. apply disjoint_sym. exact E.
Qed.

Lemma gridsIntersect_shared_cell_witness :
  (Bucketer.gridsIntersect ((0, 4), (0, 4), (0, 4)) ((3, 8), (2, 6), (1, 5)) = true
   <-> exists p, Bucketer.cellIn p ((0, 4), (0, 4), (0, 4))
                 /\ Bucketer.cellIn p ((3, 8), (2, 6), (1, 5)))
  /\ Bucketer.gridsIntersect ((0, 4), (0, 4), (0, 4)) ((3, 8), (2, 6), (1, 5))
     = Bucketer.gridsIntersect ((3, 8), (2, 6), (1, 5)) ((0, 4), (0, 4), (0, 4)).
Proof.
  apply gridsIntersect_shared_cell; cbn; lia.
Defined.
